(** * ArchSDN controller: allocators, Q-learning tables, peer dispatch,
      the path-activation engine, the framing of messages and the start
      of the controller, embedded from [archsdn/engine/globals.py],
      [archsdn/p2p_requests.py] and [archsdn/ArchSDN.py]. *)

From Stdlib Require Import ZArith QArith Lia.
From Stdlib Require Strings.Byte.
From stdpp Require Import base gmap strings list sorting.

Local Open Scope Z_scope.

(** ** Python exceptions and outcomes *)

(** The exception classes the embedded code raises or catches. *)
Inductive exn : Type :=
| ValueError (msg : string)
| KeyError
| IndexError
| AssertionError (msg : string)
| AttributeError (msg : string)
| ZeroDivisionError
| TypeError
| PathNotFound
| ImplementationTaskExists
| OtherException (msg : string).

(** A call either returns a value or raises. *)
Inductive outcome (A : Type) : Type :=
| Ok (a : A)
| Raise (e : exn).
Arguments Ok {A} a.
Arguments Raise {A} e.

(** ** ID allocators ([globals.py], lines 249-337) *)

(** The module-level pair (counter, recycle list) of one allocator. The
    recycle list is kept in Python order: [append] adds at the end and
    [pop] takes from the end. *)
Record id_pool : Type := IdPool {
  id_counter : Z;
  recycled : list Z
}.

(** [__recycled_cookie_ids = []], [__cookie_id_counter = 0]. *)
Definition cookie_pool_init : id_pool := IdPool 0 [].

(** [__recycled_mpls_labels = []], [__mpls_label_id_counter = 16]. *)
Definition mpls_pool_init : id_pool := IdPool 16 [].

(** [list.pop()]: the last element and the list without it. *)
Fixpoint py_pop (l : list Z) : option (Z * list Z) :=
  match l with
  | [] => None
  | x :: r =>
      match py_pop r with
      | None => Some (x, [])
      | Some (y, r') => Some (y, x :: r')
      end
  end.

(** [max(list)] on a non-empty list. *)
Definition py_max (l : list Z) : option Z :=
  match l with
  | [] => None
  | x :: r => Some (fold_left Z.max r x)
  end.

(** [list.remove(x)]: drops the first occurrence of [x]. *)
Fixpoint py_remove (x : Z) (l : list Z) : list Z :=
  match l with
  | [] => []
  | y :: r => if Z.eqb x y then r else y :: py_remove x r
  end.

(** The compaction loop shared by both [free_*] functions:
    [while len(pool) > 0: m = max(pool); if counter == m: pool.remove(m);
    counter -= 1 else: break]. Every iteration that does not leave the
    loop removes one element, so [length pool] iterations are enough (see
    [compact_loop_exit]). *)
Fixpoint compact_loop (fuel : nat) (st : id_pool) : id_pool :=
  match fuel with
  | O => st
  | S fuel' =>
      match py_max (recycled st) with
      | None => st
      | Some max_value =>
          if id_counter st =? max_value
          then compact_loop fuel'
                 (IdPool (id_counter st - 1) (py_remove max_value (recycled st)))
          else st
      end
  end.

Definition compact (st : id_pool) : id_pool :=
  compact_loop (length (recycled st)) st.

(** [alloc_cookie_id]. *)
Definition alloc_cookie_id (st : id_pool) : outcome Z * id_pool :=
  if id_counter st =? 0xFFFFFFFFFFFFFFFF
  then (Raise (ValueError "No more cookies left..."), st)
  else match py_pop (recycled st) with
       | Some (cookie_id, rest) => (Ok cookie_id, IdPool (id_counter st) rest)
       | None => (Ok (id_counter st + 1), IdPool (id_counter st + 1) (recycled st))
       end.

(** [free_cookie_id]. *)
Definition free_cookie_id (cookie_id : Z) (st : id_pool) : outcome unit * id_pool :=
  if cookie_id <=? 0
  then (Raise (ValueError "Cookies cannot be zero or negative."), st)
  else if cookie_id >? id_counter st
  then (Raise (ValueError "That cookie was not allocated."), st)
  else if bool_decide (cookie_id ∈ recycled st)
  then (Raise (ValueError "Cookie already free."), st)
  else (Ok tt, compact (IdPool (id_counter st) (recycled st ++ [cookie_id]))).

(** [alloc_mpls_label_id]. *)
Definition alloc_mpls_label_id (st : id_pool) : outcome Z * id_pool :=
  if id_counter st =? 0x100000
  then (Raise (ValueError "No MPLS labels available."), st)
  else match py_pop (recycled st) with
       | Some (label_id, rest) => (Ok label_id, IdPool (id_counter st) rest)
       | None => (Ok (id_counter st + 1), IdPool (id_counter st + 1) (recycled st))
       end.

(** [free_mpls_label_id]. *)
Definition free_mpls_label_id (label_id : Z) (st : id_pool) : outcome unit * id_pool :=
  if label_id <=? 16
  then (Raise (ValueError "Mpls label ID cannot be lower than 16"), st)
  else if (label_id >? id_counter st) || bool_decide (label_id ∈ recycled st)
  then (Raise (ValueError "Label ID was not allocated."), st)
  else (Ok tt, compact (IdPool (id_counter st) (recycled st ++ [label_id]))).

(** *** Histories of allocator calls *)

Inductive alloc_op : Type :=
| OpAlloc
| OpFree (id : Z).

(** One allocator, given by its two entry points. *)
Record allocator : Type := Allocator {
  alloc_id : id_pool -> outcome Z * id_pool;
  free_id : Z -> id_pool -> outcome unit * id_pool;
  pool_init : id_pool
}.

Definition cookie_allocator : allocator :=
  Allocator alloc_cookie_id free_cookie_id cookie_pool_init.

Definition mpls_allocator : allocator :=
  Allocator alloc_mpls_label_id free_mpls_label_id mpls_pool_init.

(** Runs a history and tracks the ids currently held by callers ([live]).
    The history is rejected ([None]) when a call raises or when it frees
    an id that no caller holds: what remains are the histories in which
    every free releases an outstanding allocation. *)
Fixpoint run_ops (a : allocator) (ops : list alloc_op)
    (st : id_pool) (live : gset Z) : option (id_pool * gset Z) :=
  match ops with
  | [] => Some (st, live)
  | OpAlloc :: rest =>
      match alloc_id a st with
      | (Ok id, st') => run_ops a rest st' ({[ id ]} ∪ live)
      | (Raise _, _) => None
      end
  | OpFree id :: rest =>
      if bool_decide (id ∈ live)
      then match free_id a id st with
           | (Ok _, st') => run_ops a rest st' (live ∖ {[ id ]})
           | (Raise _, _) => None
           end
      else None
  end.

(** States an allocator can be in after some sequence of successful
    calls from its initial state. *)
Inductive reachable (a : allocator) : id_pool -> Prop :=
| reach_init : reachable a (pool_init a)
| reach_alloc st id st' :
    reachable a st -> alloc_id a st = (Ok id, st') -> reachable a st'
| reach_free st id st' :
    reachable a st -> free_id a id st = (Ok tt, st') -> reachable a st'.


(** The invariant that links an allocator state with the set [live] of
    ids held by callers, for an allocator whose ids lie above [lb]. *)
Definition pool_inv (lb : Z) (st : id_pool) (live : gset Z) : Prop :=
  lb <= id_counter st
  /\ NoDup (recycled st)
  /\ (forall x, x ∈ recycled st -> lb < x < id_counter st)
  /\ (forall x, x ∈ live -> lb < x <= id_counter st /\ x ∉ recycled st)
  /\ (forall x, lb < x <= id_counter st -> x ∈ recycled st \/ x ∈ live).

(** The same inside [free_*], between the [append] and the end of the
    compaction loop: the counter itself may sit in the recycle list. *)
Definition pool_inv_free (lb : Z) (st : id_pool) (live : gset Z) : Prop :=
  lb <= id_counter st
  /\ NoDup (recycled st)
  /\ (forall x, x ∈ recycled st -> lb < x <= id_counter st)
  /\ (forall x, x ∈ live -> lb < x <= id_counter st /\ x ∉ recycled st)
  /\ (forall x, lb < x <= id_counter st -> x ∈ recycled st \/ x ∈ live).

(** The exit condition of the compaction loop. *)
Definition compact_done (st : id_pool) : Prop :=
  match py_max (recycled st) with
  | None => True
  | Some max_value => id_counter st <> max_value
  end.

(** What the history theorems need from an allocator whose ids lie above
    [lb]: both entry points keep [pool_inv], and [free] accepts exactly
    the ids that a caller holds. *)
Definition allocator_sound (a : allocator) (lb : Z) : Prop :=
  pool_init a = IdPool lb []
  /\ (forall st live id st',
        pool_inv lb st live -> alloc_id a st = (Ok id, st') ->
        (id ∉ live) /\ pool_inv lb st' ({[ id ]} ∪ live))
  /\ (forall st live id r st',
        pool_inv lb st live -> free_id a id st = (r, st') ->
        (id ∈ live -> r = Ok tt)
        /\ (r = Ok tt -> id ∈ live /\ pool_inv lb st' (live ∖ {[ id ]}))).

(** ** Q-learning tables ([globals.py], lines 64-106) *)

(** A first-level key of [QValues] and [kspl]: the id of an adjacent
    sector or an edge [(switch_id, port)]. *)
Inductive table_key : Type :=
| SectorKey (sector_id : Z)
| EdgeKey (switch_id port : Z).

(** A second-level key: the engine passes the target either as an
    [IPv4Address] object ([target_ipv4]) or as its text
    ([target_ipv4_str]); the two never compare equal in Python. *)
Inductive host_address : Type :=
| AddrObject (ip : Z)
| AddrString (ip : Z).

#[global] Instance table_key_eq_dec : EqDecision table_key.
Proof. solve_decision. Defined.

#[global] Instance host_address_eq_dec : EqDecision host_address.
Proof. solve_decision. Defined.

#[global] Instance table_key_countable : Countable table_key.
Proof.
  refine (inj_countable'
    (fun k => match k with
              | SectorKey s => inl s
              | EdgeKey sw p => inr (sw, p)
              end)
    (fun x => match x with
              | inl s => SectorKey s
              | inr (sw, p) => EdgeKey sw p
              end) _).
  by intros [].
Defined.

#[global] Instance host_address_countable : Countable host_address.
Proof.
  refine (inj_countable'
    (fun a => match a with
              | AddrObject ip => inl ip
              | AddrString ip => inr ip
              end)
    (fun x => match x with
              | inl ip => AddrObject ip
              | inr ip => AddrString ip
              end) _).
  by intros [].
Defined.

(** [QValues[SectorID][IPv4/IPv6] = Q-Value]. Python floats are read as
    exact rationals. *)
Abbreviation q_table := (gmap table_key (gmap host_address Q)).

(** [kspl[SectorID][IPv4/IPv6] = minimum length]; a cell may hold
    [None]. *)
Abbreviation kspl_table := (gmap table_key (gmap host_address (option Z))).

Definition q_alpha : Q := 9 # 10.
Definition q_beta : Q := 1 # 10.

(** [get_known_shortest_path]. *)
Definition get_known_shortest_path (sector_id : table_key) (host : host_address)
    (kspl : kspl_table) : option Z * kspl_table :=
  let kspl1 :=
    match kspl !! sector_id with
    | None => <[sector_id := {[host := None]}]> kspl
    | Some _ => kspl
    end in
  let row := default ∅ (kspl1 !! sector_id) in
  let kspl2 :=
    match row !! host with
    | None => <[sector_id := <[host := None]> row]> kspl1
    | Some _ => kspl1
    end in
  (default None (default ∅ (kspl2 !! sector_id) !! host), kspl2).

(** [set_known_shortest_path]. *)
Definition set_known_shortest_path (sector_id : table_key) (host : host_address)
    (path_length : Z) (kspl : kspl_table) : kspl_table :=
  match kspl !! sector_id with
  | None => <[sector_id := {[host := Some path_length]}]> kspl
  | Some row => <[sector_id := <[host := Some path_length]> row]> kspl
  end.

(** [get_q_value]. *)
Definition get_q_value (sector_id : table_key) (host : host_address)
    (QValues : q_table) : Q * q_table :=
  let QValues1 :=
    match QValues !! sector_id with
    | None => <[sector_id := {[host := 0%Q]}]> QValues
    | Some row =>
        match row !! host with
        | None => <[sector_id := <[host := 0%Q]> row]> QValues
        | Some _ => QValues
        end
    end in
  (default 0%Q (default ∅ (QValues1 !! sector_id) !! host), QValues1).

(** [set_q_value]. *)
Definition set_q_value (sector_id : table_key) (host : host_address)
    (value : Q) (QValues : q_table) : q_table :=
  match QValues !! sector_id with
  | None => <[sector_id := {[host := value]}]> QValues
  | Some row =>
      match row !! host with
      | None => <[sector_id := <[host := value]> row]> QValues
      | Some _ => QValues
      end
  end.

(** [calculate_new_qvalue]. *)
Definition calculate_new_qvalue (old_value forward_value reward : Q) : Q :=
  (old_value + q_alpha * (reward + q_beta * forward_value - old_value))%Q.

(** The cell of a table as a plain lookup, without the side effect of
    [get_q_value]. *)
Definition q_cell (sector_id : table_key) (host : host_address)
    (QValues : q_table) : option Q :=
  QValues !! sector_id ≫= fun row => row !! host.

Definition kspl_cell (sector_id : table_key) (host : host_address)
    (kspl : kspl_table) : option (option Z) :=
  kspl !! sector_id ≫= fun row => row !! host.

(** ** Data of the path-activation engine ([p2p_requests.py]) *)

(** [global_path_search_id]: source controller, source IPv4, target IPv4
    and scenario type. *)
Abbreviation gpsid := (Z * Z * Z * string)%type.

Definition gpsid_source_controller (g : gpsid) : Z := g.1.1.1.
Definition gpsid_source_ipv4 (g : gpsid) : Z := g.1.1.2.
Definition gpsid_target_ipv4 (g : gpsid) : Z := g.1.2.
Definition gpsid_scenario_type (g : gpsid) : string := g.2.

(** The [scenario_request] dict of [__activate_scenario], with its four
    mandatory keys present and of the expected Python types. *)
Record scenario_request : Type := ScenarioRequest {
  req_global_path_search_id : gpsid;
  req_sector_requesting_service : Z;
  req_mpls_label : Z;
  req_hash_val : Z
}.

(** The dict a peer answers to [__activate_scenario]; [success] is always
    there, the other keys may be missing. *)
Record activation_result : Type := ActivationResult {
  ar_success : bool;
  ar_global_path_search_id : option gpsid;
  ar_q_value : option Q;
  ar_path_length : option Z;
  ar_reason : option string
}.

(** The dict a peer answers to [__terminate_scenario]. *)
Record termination_result : Type := TerminationResult {
  tr_success : bool;
  tr_global_path_search_id : option gpsid;
  tr_reason : option string
}.

(** Entities of the sector topology, as the engine names them. *)
Inductive entity_id : Type :=
| SectorEntity (controller_id : Z)
| HostEntity (name : string).

Inductive entity_class : Type :=
| IsHost
| IsSwitch
| IsSector.

(** A [Path]: its [(switch_id, port_in, port_out)] triples, whose number
    is [len(path)], and the attributes the engine reads. *)
Record path : Type := Path {
  path_hops : list (Z * Z * Z);
  remaining_bandwidth_average : Q;
  entity_a : entity_id;
  entity_b : entity_id
}.

Definition path_len (p : path) : Z := Z.of_nat (length (path_hops p)).

(** The arguments of a decoded request, kept in the shape the two
    engine entry points expect, or as [PayloadOther]. *)
Inductive rpc_payload : Type :=
| PayloadActivate (r : scenario_request)
| PayloadTerminate (g : gpsid) (requesting_sector_id : Z)
| PayloadOther.

(** [central.query_address_info(...)]: the fields the engine reads. *)
Record host_info : Type := HostInfo {
  host_name : string;
  host_controller_id : Z
}.

(** [mapped_services[network_service][service_type][entities_ids_pair]]
    holds a service object, named here by its [id(...)]. *)
Abbreviation services_table := (gmap string (gmap string (gmap (Z * Z) Z))).

Definition mapped_services_init : services_table :=
  {[ "IPv4" := {[ "ICMP" := ∅; "UDP" := ∅; "TCP" := ∅; "*" := ∅ ]};
     "MPLS" := {[ "OneWay" := ∅; "TwoWay" := ∅ ]} ]}.

(** [__scenario_implementation_tasks]. *)
Abbreviation tasks_table := (gmap string (gmap string (gset gpsid))).

Definition implementation_tasks_init : tasks_table :=
  {[ "IPv4" := {[ "ICMP" := ∅; "UDP" := ∅; "TCP" := ∅; "*" := ∅ ]};
     "MPLS" := {[ "*" := ∅ ]} ]}.

(** Peer RPCs issued by the engine, recorded for the statements below:
    the table key the engine had chosen for the attempt and what the
    proxy call produced, resp. the sector asked to terminate. *)
Inductive rpc_event : Type :=
| RpcActivate (key : table_key) (peer : Z) (result : activation_result)
| RpcTerminate (peer : Z) (result : outcome termination_result).

(** What a service installer may touch: the world outside [globals.py],
    the cookie allocator and [mapped_services]. *)
Record service_footprint (X : Type) : Type := ServiceFootprint {
  fp_world : X;
  fp_cookies : id_pool;
  fp_services : services_table
}.
Arguments ServiceFootprint {X} _ _ _.
Arguments fp_world {X} _.
Arguments fp_cookies {X} _.
Arguments fp_services {X} _.

(** The module-level state of [globals.py], the state [world] of the
    modules that are outside this development (topology, services,
    sockets), and the record of peer RPCs. *)
Record controller_state (X : Type) : Type := ControllerState {
  QValues : q_table;
  kspl : kspl_table;
  implementation_tasks : tasks_table;
  beacons_hash_table : list (Z * (Z * Z));
  active_scenarios : gmap gpsid (list Z * list Z);
  mapped_services : services_table;
  cookie_ids : id_pool;
  mpls_labels : id_pool;
  world : X;
  rpc_log : list rpc_event
}.
Arguments ControllerState {X} _ _ _ _ _ _ _ _ _ _.
Arguments QValues {X} _.
Arguments kspl {X} _.
Arguments implementation_tasks {X} _.
Arguments beacons_hash_table {X} _.
Arguments active_scenarios {X} _.
Arguments mapped_services {X} _.
Arguments cookie_ids {X} _.
Arguments mpls_labels {X} _.
Arguments world {X} _.
Arguments rpc_log {X} _.

(** The collaborators whose code is outside [globals.py] and
    [p2p_requests.py]: the central registry, the sector topology, the
    service installers, the peer proxies, the local database, and Python's
    [str] and [repr]. Each is a
    function of the world state [X]; queries leave it as it is. *)
Record Env (X : Type) : Type := MkEnv {
  this_controller_id : Z;
  assertions_enabled : bool;
  flags_debug : bool;
  central_query_address_info : X -> Z -> outcome host_info;
  query_sectors_ids : X -> outcome (list Z);
  query_edges_to_sector : X -> Z -> outcome (list (Z * Z * Z));
  query_entity : X -> entity_id -> outcome entity_class;
  construct_bidirectional_path :
    entity_id -> entity_id -> Z -> Z -> option Z -> X -> outcome path * X;
  construct_unidirectional_path :
    entity_id -> entity_id -> Z -> option Z -> X -> outcome path * X;
  get_controller_proxy : Z -> X -> outcome unit * X;
  proxy_method_lookup : Z -> string -> X -> outcome unit;
  proxy_activate_scenario : Z -> scenario_request -> X -> outcome activation_result * X;
  proxy_terminate_scenario : Z -> gpsid -> Z -> X -> outcome termination_result * X;
  icmpv4_flow_activation :
    path -> option Z -> Z -> option Z -> service_footprint X -> outcome Z * service_footprint X;
  ipv4_generic_flow_activation :
    path -> option Z -> Z -> option Z -> service_footprint X -> outcome Z * service_footprint X;
  sector_to_sector_mpls_flow_activation :
    path -> Z -> Z -> service_footprint X -> outcome Z * service_footprint X;
  time_asctime : X -> string;
  database_query_address_info : rpc_payload -> X -> outcome host_info;
  repr_of_name : option string -> string;
  str_of_exn : exn -> string;
  str_of_exn_type : exn -> string;
  str_of_gpsid : gpsid -> string;
  str_of_uuid : Z -> string;
  (** the place of a sector id in the iteration of a Python set that
      holds it, which CPython derives from the hash of the id: a set is
      iterated by increasing rank *)
  set_iteration_rank : Z -> Z
}.
Arguments this_controller_id {X} _.
Arguments assertions_enabled {X} _.
Arguments flags_debug {X} _.
Arguments central_query_address_info {X} _ _ _.
Arguments query_sectors_ids {X} _ _.
Arguments query_edges_to_sector {X} _ _ _.
Arguments query_entity {X} _ _ _.
Arguments construct_bidirectional_path {X} _ _ _ _ _ _ _.
Arguments construct_unidirectional_path {X} _ _ _ _ _ _.
Arguments get_controller_proxy {X} _ _ _.
Arguments proxy_method_lookup {X} _ _ _ _.
Arguments proxy_activate_scenario {X} _ _ _ _.
Arguments proxy_terminate_scenario {X} _ _ _ _ _.
Arguments icmpv4_flow_activation {X} _ _ _ _ _ _.
Arguments ipv4_generic_flow_activation {X} _ _ _ _ _ _.
Arguments sector_to_sector_mpls_flow_activation {X} _ _ _ _ _.
Arguments time_asctime {X} _ _.
Arguments database_query_address_info {X} _ _ _.
Arguments repr_of_name {X} _ _.
Arguments str_of_exn {X} _ _.
Arguments str_of_exn_type {X} _ _.
Arguments str_of_gpsid {X} _ _.
Arguments str_of_uuid {X} _ _.
Arguments set_iteration_rank {X} _ _.

(** ** A state-and-exception monad for the engine *)

Definition M (S A : Type) : Type := S -> outcome A * S.

Definition ret {S A : Type} (a : A) : M S A := fun s => (Ok a, s).

Definition raise {S A : Type} (e : exn) : M S A := fun s => (Raise e, s).

Definition bind {S A B : Type} (m : M S A) (k : A -> M S B) : M S B :=
  fun s =>
    match m s with
    | (Ok a, s') => k a s'
    | (Raise e, s') => (Raise e, s')
    end.

(** [try: m except Exception as ex: handler(ex)]. *)
Definition try_except {S A : Type} (m : M S A) (handler : exn -> M S A) : M S A :=
  fun s =>
    match m s with
    | (Ok a, s') => (Ok a, s')
    | (Raise e, s') => handler e s'
    end.

Notation "'let*' x ':=' m 'in' k" := (bind m (fun x => k))
  (at level 10, x pattern, m at level 100, k at level 200).

Notation "m ';;' k" := (bind m (fun _ => k))
  (at level 100, k at level 200, right associativity).

(** ** The globals as seen from the engine *)

Section Globals.
Context {X : Type}.

Definition set_QValues (st : controller_state X) (t : q_table) : controller_state X :=
  ControllerState t (kspl st) (implementation_tasks st) (beacons_hash_table st)
    (active_scenarios st) (mapped_services st) (cookie_ids st) (mpls_labels st)
    (world st) (rpc_log st).

Definition set_kspl (st : controller_state X) (t : kspl_table) : controller_state X :=
  ControllerState (QValues st) t (implementation_tasks st) (beacons_hash_table st)
    (active_scenarios st) (mapped_services st) (cookie_ids st) (mpls_labels st)
    (world st) (rpc_log st).

Definition set_implementation_tasks (st : controller_state X) (t : tasks_table)
    : controller_state X :=
  ControllerState (QValues st) (kspl st) t (beacons_hash_table st)
    (active_scenarios st) (mapped_services st) (cookie_ids st) (mpls_labels st)
    (world st) (rpc_log st).

Definition set_active_scenarios (st : controller_state X)
    (t : gmap gpsid (list Z * list Z)) : controller_state X :=
  ControllerState (QValues st) (kspl st) (implementation_tasks st) (beacons_hash_table st)
    t (mapped_services st) (cookie_ids st) (mpls_labels st)
    (world st) (rpc_log st).

Definition set_mapped_services (st : controller_state X) (t : services_table)
    : controller_state X :=
  ControllerState (QValues st) (kspl st) (implementation_tasks st) (beacons_hash_table st)
    (active_scenarios st) t (cookie_ids st) (mpls_labels st)
    (world st) (rpc_log st).

Definition set_cookie_ids (st : controller_state X) (p : id_pool) : controller_state X :=
  ControllerState (QValues st) (kspl st) (implementation_tasks st) (beacons_hash_table st)
    (active_scenarios st) (mapped_services st) p (mpls_labels st)
    (world st) (rpc_log st).

Definition set_mpls_labels (st : controller_state X) (p : id_pool) : controller_state X :=
  ControllerState (QValues st) (kspl st) (implementation_tasks st) (beacons_hash_table st)
    (active_scenarios st) (mapped_services st) (cookie_ids st) p
    (world st) (rpc_log st).

Definition set_world (st : controller_state X) (w : X) : controller_state X :=
  ControllerState (QValues st) (kspl st) (implementation_tasks st) (beacons_hash_table st)
    (active_scenarios st) (mapped_services st) (cookie_ids st) (mpls_labels st)
    w (rpc_log st).

Definition set_rpc_log (st : controller_state X) (l : list rpc_event) : controller_state X :=
  ControllerState (QValues st) (kspl st) (implementation_tasks st) (beacons_hash_table st)
    (active_scenarios st) (mapped_services st) (cookie_ids st) (mpls_labels st)
    (world st) l.

(** [globals.get_q_value(...)] and friends, on the controller state. *)
Definition globals_get_q_value (key : table_key) (host : host_address)
    : M (controller_state X) Q :=
  fun st => let (v, t) := get_q_value key host (QValues st) in (Ok v, set_QValues st t).

Definition globals_set_q_value (key : table_key) (host : host_address) (value : Q)
    : M (controller_state X) unit :=
  fun st => (Ok tt, set_QValues st (set_q_value key host value (QValues st))).

Definition globals_get_known_shortest_path (key : table_key) (host : host_address)
    : M (controller_state X) (option Z) :=
  fun st =>
    let (v, t) := get_known_shortest_path key host (kspl st) in (Ok v, set_kspl st t).

Definition globals_set_known_shortest_path (key : table_key) (host : host_address)
    (path_length : Z) : M (controller_state X) unit :=
  fun st => (Ok tt, set_kspl st (set_known_shortest_path key host path_length (kspl st))).

Definition globals_alloc_mpls_label_id : M (controller_state X) Z :=
  fun st => let (r, p) := alloc_mpls_label_id (mpls_labels st) in (r, set_mpls_labels st p).

(** [get_hash_val]: the first item of [beacons_hash_table] whose value is
    [(switch_id, port_id)]. *)
Definition get_hash_val (switch_id port_id : Z) (table : list (Z * (Z * Z))) : outcome Z :=
  match filter (fun item => item.2 = (switch_id, port_id)) table with
  | item :: _ => Ok item.1
  | [] => Raise KeyError
  end.

Definition globals_get_hash_val (switch_id port_id : Z) : M (controller_state X) Z :=
  fun st => (get_hash_val switch_id port_id (beacons_hash_table st), st).

(** [__Implementation_Task.__init__]. *)
Definition register_implementation_task (taskID : gpsid) (first_layer second_layer : string)
    : M (controller_state X) unit :=
  fun st =>
    match implementation_tasks st !! first_layer with
    | None => (Raise (AttributeError "first_layer argument is invalid."), st)
    | Some layer =>
        match layer !! second_layer with
        | None => (Raise (AttributeError "second_layer argument is invalid."), st)
        | Some tasks =>
            if bool_decide (taskID ∈ tasks)
            then (Raise ImplementationTaskExists, st)
            else (Ok tt,
                  set_implementation_tasks st
                    (<[first_layer := <[second_layer := {[ taskID ]} ∪ tasks]> layer]>
                       (implementation_tasks st)))
        end
    end.

(** [__Implementation_Task.__del__] of a token that was registered. *)
Definition release_implementation_task (taskID : gpsid) (first_layer second_layer : string)
    (st : controller_state X) : controller_state X :=
  match implementation_tasks st !! first_layer with
  | None => st
  | Some layer =>
      match layer !! second_layer with
      | None => st
      | Some tasks =>
          set_implementation_tasks st
            (<[first_layer := <[second_layer := tasks ∖ {[ taskID ]}]> layer]>
               (implementation_tasks st))
      end
  end.

(** Modelled from the spec: [globals.is_scenario_active], called by the
    engine but not defined in the [globals.py] at hand. Section 4.4:
    [is_scenario_active(gpsid) -> bool]. *)
Definition is_scenario_active (g : gpsid) (st : controller_state X) : bool :=
  bool_decide (is_Some (active_scenarios st !! g)).

(** Modelled from the spec: [globals.set_active_scenario], likewise
    missing. Section 4.4: insert; a collision is a programming error. *)
Definition set_active_scenario (g : gpsid) (record : list Z * list Z)
    : M (controller_state X) unit :=
  fun st =>
    match active_scenarios st !! g with
    | Some _ => (Raise (AssertionError "scenario is already active"), st)
    | None => (Ok tt, set_active_scenarios st (<[g := record]> (active_scenarios st)))
    end.

(** Modelled from the spec: [globals.get_active_scenario], likewise
    missing. Section 4.4: read, or read-and-remove when [pop] is set. *)
Definition get_active_scenario (g : gpsid) (pop : bool)
    : M (controller_state X) (list Z * list Z) :=
  fun st =>
    match active_scenarios st !! g with
    | None => (Raise KeyError, st)
    | Some record =>
        (Ok record,
         if pop then set_active_scenarios st (delete g (active_scenarios st)) else st)
    end.

(** Calls into the modules outside this development. *)
Definition lift_world {A : Type} (f : X -> outcome A * X) : M (controller_state X) A :=
  fun st => let (r, w) := f (world st) in (r, set_world st w).

Definition query_world {A : Type} (f : X -> outcome A) : M (controller_state X) A :=
  fun st => (f (world st), st).

Definition lift_footprint {A : Type}
    (f : service_footprint X -> outcome A * service_footprint X)
    : M (controller_state X) A :=
  fun st =>
    let (r, fp) := f (ServiceFootprint (world st) (cookie_ids st) (mapped_services st)) in
    (r, set_mapped_services (set_cookie_ids (set_world st (fp_world fp)) (fp_cookies fp))
          (fp_services fp)).

Definition log_rpc (ev : rpc_event) : M (controller_state X) unit :=
  fun st => (Ok tt, set_rpc_log st (rpc_log st ++ [ev])).

End Globals.

(** ** The path-activation engine ([__activate_scenario]) *)

(** [list.remove(x)] ([set.remove(x)]) on any element type; [None] where
    Python raises because [x] is absent. *)
Fixpoint py_list_remove {A : Type} `{EqDecision A} (x : A) (l : list A) : option (list A) :=
  match l with
  | [] => None
  | y :: r =>
      if decide (x = y) then Some r
      else match py_list_remove x r with
           | Some r' => Some (y :: r')
           | None => None
           end
  end.

(** Why an activation was refused; [refusal_text] below gives the
    [reason] string of each. *)
Inductive refusal : Type :=
| LoopDetected
| AlreadyImplemented
| NoSectorsToExplore
| AlternativesExhausted
| TaskAlreadyRunning
| NoLocalPath
| ActivationFailed (e : exn)
| InvalidScenarioType.

(** The two shapes of the dict that [__activate_scenario] returns. *)
Inductive engine_reply : Type :=
| Activated (q_value : Q) (path_length : Z)
| Refused (why : refusal).

(** [(switch, port, hash_val)], from [query_edges_to_sector]. *)
Abbreviation edge := (Z * Z * Z)%type.
(** [(switch, port, hash_val, adjacent_sector)]. *)
Abbreviation link := (Z * Z * Z * Z)%type.

Definition edge_key (e : edge) : table_key := EdgeKey e.1.1 e.1.2.
Definition link_key (l : link) : table_key := EdgeKey l.1.1.1 l.1.1.2.

Definition kspl_truthy (k : option Z) : bool :=
  match k with
  | Some n => negb (n =? 0)
  | None => false
  end.

Section Engine.
Context {X : Type} (env : Env X).

Local Abbreviation state := (controller_state X).

(** [assert cond, msg]; skipped when Python runs with assertions off. *)
Definition py_assert (cond : bool) (msg : string) : M state unit :=
  if assertions_enabled env && negb cond then raise (AssertionError msg) else ret tt.

(** [tuple(filter(lambda x: globals.get_q_value(key(x), target) == 0, xs))]. *)
Fixpoint never_used {A : Type} (key : A -> table_key) (target : host_address)
    (xs : list A) : M state (list A) :=
  match xs with
  | [] => ret []
  | x :: r =>
      let* v := globals_get_q_value (key x) target in
      let* rest := never_used key target r in
      ret (if Qeq_bool v 0 then x :: rest else rest)
  end.

(** [max(xs, key=lambda x: globals.get_q_value(key(x), target))] after its
    first element: a later element wins only with a strictly larger
    value. *)
Fixpoint max_by_q_value {A : Type} (key : A -> table_key) (target : host_address)
    (best : A) (best_value : Q) (xs : list A) : M state A :=
  match xs with
  | [] => ret best
  | x :: r =>
      let* v := globals_get_q_value (key x) target in
      if Qle_bool v best_value
      then max_by_q_value key target best best_value r
      else max_by_q_value key target x v r
  end.

(** The choice among the candidates: the first one whose Q-value is 0,
    else one of maximal Q-value (lines 487-499, 654-666, 1085-1097). *)
Definition select_by_q_value {A : Type} (key : A -> table_key) (target : host_address)
    (xs : list A) : M state A :=
  let* unused := never_used key target xs in
  match unused with
  | x :: _ => ret x
  | [] =>
      match xs with
      | [] => raise (ValueError "max() arg is an empty sequence")
      | x :: r =>
          let* v := globals_get_q_value (key x) target in
          max_by_q_value key target x v r
      end
  end.

Definition remove_selected {A : Type} `{EqDecision A} (x : A) (xs : list A)
    : M state (list A) :=
  match py_list_remove x xs with
  | Some r => ret r
  | None => raise (ValueError "list.remove(x): x not in list")
  end.

Definition peer_failure (reason : string) : activation_result :=
  ActivationResult false None None None (Some reason).

(** The peer RPC of one attempt (lines 522-533, 699-710, 966-977,
    1120-1131). In the target-adjacent ICMPv4 and IPv4 branches the proxy is
    obtained before the [try], elsewhere inside it. [key] is only
    recorded. *)
Definition request_activation (proxy_inside_try : bool) (key : table_key) (peer : Z)
    (g : gpsid) (local_mpls_label switch_id port_id : Z) : M state activation_result :=
  (if proxy_inside_try then ret tt else lift_world (get_controller_proxy env peer));;
  let* result :=
    try_except
      ((if proxy_inside_try then lift_world (get_controller_proxy env peer) else ret tt);;
       query_world (proxy_method_lookup env peer "activate_scenario");;
       let* h := globals_get_hash_val switch_id port_id in
       lift_world (proxy_activate_scenario env peer
                     (ScenarioRequest g (this_controller_id env) local_mpls_label h)))
      (fun ex => ret (peer_failure (str_of_exn env ex))) in
  log_rpc (RpcActivate key peer result);;
  ret result.

(** [0 if "q_value" not in result else result["q_value"]]. *)
Definition forward_q_value (result : activation_result) : Q :=
  default 0%Q (ar_q_value result).

(** The block run on [service_activation_result["success"]] up to the
    Q-value update (lines 539-565, 715-740, 982-1008, 1136-1161): refresh
    KSPL, compute the reward, update the Q-value. Returns the new Q-value
    and the peer's path length. *)
Definition on_peer_success (key : table_key) (q_target : host_address) (target_ipv4 : Z)
    (result : activation_result) (p : path) : M state (Q * Z) :=
  let* kspl0 := globals_get_known_shortest_path key (AddrObject target_ipv4) in
  let* peer_length :=
    match ar_path_length result with
    | Some n => ret n
    | None => raise KeyError
    end in
  (if kspl_truthy kspl0 && (default 0 kspl0 >? peer_length + 1)
   then globals_set_known_shortest_path key (AddrObject target_ipv4) (peer_length + 1)
   else globals_set_known_shortest_path key (AddrObject target_ipv4) (peer_length + 1));;
  let* kspl1 := globals_get_known_shortest_path key (AddrObject target_ipv4) in
  py_assert (kspl_truthy kspl1) "kspl cannot be Zero or None.";;
  let* reward :=
    match kspl1 with
    | None => raise TypeError
    | Some n =>
        if n =? 0 then raise ZeroDivisionError
        else ret (remaining_bandwidth_average p / inject_Z n)%Q
    end in
  let* old_q_value := globals_get_q_value key q_target in
  let new_q_value := calculate_new_qvalue old_q_value (forward_q_value result) reward in
  globals_set_q_value key q_target new_q_value;;
  ret (new_q_value, peer_length).

(** The block run when the peer did not succeed (lines 608-630, 791-815,
    1051-1073, 1210-1233): the Q-value update with reward -1, then the log
    line that reads [service_activation_result["reason"]]. *)
Definition on_peer_failure (key : table_key) (q_target : host_address)
    (result : activation_result) : M state unit :=
  let* old_q_value := globals_get_q_value key q_target in
  let new_q_value := calculate_new_qvalue old_q_value (forward_q_value result) (-1) in
  globals_set_q_value key q_target new_q_value;;
  match ar_reason result with
  | Some _ => ret tt
  | None => raise KeyError
  end.

(** [isinstance(entity_a_obj, Sector) and isinstance(entity_b_obj, Sector)]. *)
Definition both_sectors (p : path) : M state bool :=
  let* a := query_world (fun w => query_entity env w (entity_a p)) in
  let* b := query_world (fun w => query_entity env w (entity_b p)) in
  ret (match a, b with
       | IsSector, IsSector => true
       | _, _ => false
       end).

(** *** ICMPv4, target sector adjacent (lines 479-635) *)

(** The [while possible_links] loop of lines 485-514, which ends at the
    first link with a local path. Returns the link and path found, if
    any, and [possible_links] as the loop leaves it. *)
Fixpoint icmp_adjacent_path_loop (fuel : nat) (req : scenario_request) (owner : Z)
    (possible_links : list edge) : M state (option (edge * path) * list edge) :=
  match possible_links with
  | [] => ret (None, [])
  | _ :: _ =>
      match fuel with
      | O => raise (OtherException "iteration bound")
      | S fuel' =>
          let target_ipv4 := gpsid_target_ipv4 (req_global_path_search_id req) in
          let* selected_link :=
            select_by_q_value edge_key (AddrObject target_ipv4) possible_links in
          try_except
            (let* bidirectional_path :=
               lift_world (construct_bidirectional_path env
                 (SectorEntity (req_sector_requesting_service req)) (SectorEntity owner)
                 100 (req_hash_val req) (Some selected_link.2)) in
             ret (Some (selected_link, bidirectional_path), possible_links))
            (fun ex =>
               match ex with
               | PathNotFound =>
                   let* rest := remove_selected selected_link possible_links in
                   if (length rest =? 0)%nat then raise PathNotFound
                   else icmp_adjacent_path_loop fuel' req owner rest
               | _ => raise ex
               end)
      end
  end.

Definition icmp_target_adjacent (req : scenario_request) (info : host_info)
    : M state (engine_reply * list edge) :=
  let g := req_global_path_search_id req in
  let target_ipv4 := gpsid_target_ipv4 g in
  let owner := host_controller_id info in
  let* possible_links0 := query_world (fun w => query_edges_to_sector env w owner) in
  let* found := icmp_adjacent_path_loop (length possible_links0) req owner possible_links0 in
  let possible_links := found.2 in
  py_assert (match found.1 with Some (_, p) => negb (path_len p =? 0) | None => false end)
    "bidirectional_path path length cannot be zero.";;
  let* local_mpls_label := globals_alloc_mpls_label_id in
  match found.1 with
  | None => raise IndexError
  | Some (selected_link, bidirectional_path) =>
      let chosen_edge := edge_key selected_link in
      let* result :=
        request_activation false chosen_edge owner g local_mpls_label
          selected_link.1.1 selected_link.1.2 in
      if ar_success result then
        let* upd := on_peer_success chosen_edge (AddrObject target_ipv4) target_ipv4
                      result bidirectional_path in
        let* local_service_scenario :=
          lift_footprint (sector_to_sector_mpls_flow_activation env bidirectional_path
                            local_mpls_label (req_mpls_label req)) in
        set_active_scenario g
          ([local_service_scenario], [req_sector_requesting_service req; owner]);;
        ret (Activated upd.1 (path_len bidirectional_path + upd.2 - 1), possible_links)
      else
        on_peer_failure (SectorKey owner) (AddrObject target_ipv4) result;;
        ret (Refused NoSectorsToExplore, possible_links)
  end.

(** *** ICMPv4, general forwarding (lines 637-825) *)

(** [possible_links] of lines 641-644. *)
Fixpoint gather_links (adjacent_sectors_ids : list Z) : M state (list link) :=
  match adjacent_sectors_ids with
  | [] => ret []
  | adjacent_sector :: r =>
      let* edges := query_world (fun w => query_edges_to_sector env w adjacent_sector) in
      let* rest := gather_links r in
      ret (map (fun e : edge => (e, adjacent_sector)) edges ++ rest)
  end.

(** The exploration loop of lines 652-825, with [possible_links] as it
    stands when the reply is made. *)
Fixpoint icmp_explore_loop (fuel : nat) (req : scenario_request)
    (possible_links : list link) : M state (engine_reply * list link) :=
  match possible_links with
  | [] => ret (Refused AlternativesExhausted, [])
  | _ :: _ =>
      match fuel with
      | O => raise (OtherException "iteration bound")
      | S fuel' =>
          let g := req_global_path_search_id req in
          let target_ipv4 := gpsid_target_ipv4 g in
          let* selected_link :=
            select_by_q_value link_key (AddrObject target_ipv4) possible_links in
          let* possible_links' := remove_selected selected_link possible_links in
          let chosen_edge := link_key selected_link in
          let selected_sector_id := selected_link.2 in
          let* found :=
            try_except
              (let* bidirectional_path :=
                 lift_world (construct_bidirectional_path env
                   (SectorEntity (req_sector_requesting_service req))
                   (SectorEntity selected_sector_id)
                   100 (req_hash_val req) (Some selected_link.1.2)) in
               ret (Some bidirectional_path))
              (fun ex =>
                 match ex with
                 | PathNotFound =>
                     if (length possible_links' =? 0)%nat then raise PathNotFound
                     else ret None
                 | _ => raise ex
                 end) in
          match found with
          | None => icmp_explore_loop fuel' req possible_links'
          | Some bidirectional_path =>
              py_assert (negb (path_len bidirectional_path =? 0))
                "bidirectional_path path length cannot be zero.";;
              let* local_mpls_label := globals_alloc_mpls_label_id in
              let* result :=
                request_activation true chosen_edge selected_sector_id g local_mpls_label
                  selected_link.1.1.1 selected_link.1.1.2 in
              if ar_success result then
                let* upd := on_peer_success chosen_edge (AddrObject target_ipv4) target_ipv4
                              result bidirectional_path in
                let* s2s := both_sectors bidirectional_path in
                let* local_service_scenario :=
                  if s2s
                  then lift_footprint (sector_to_sector_mpls_flow_activation env
                         bidirectional_path local_mpls_label (req_mpls_label req))
                  else lift_footprint (icmpv4_flow_activation env bidirectional_path
                         (Some local_mpls_label) (req_mpls_label req) None) in
                set_active_scenario g
                  ([local_service_scenario],
                   [req_sector_requesting_service req; selected_sector_id]);;
                ret (Activated upd.1 (path_len bidirectional_path + upd.2 - 1),
                     possible_links')
              else
                on_peer_failure chosen_edge (AddrObject target_ipv4) result;;
                icmp_explore_loop fuel' req possible_links'
          end
      end
  end.

(** *** ICMPv4, target in this sector (lines 383-468) *)

Definition icmp_target_local (req : scenario_request) (info : host_info)
    : M state engine_reply :=
  let g := req_global_path_search_id req in
  let* bidirectional_path :=
    lift_world (construct_bidirectional_path env
      (SectorEntity (req_sector_requesting_service req)) (HostEntity (host_name info))
      100 (req_hash_val req) None) in
  py_assert (negb (path_len bidirectional_path =? 0))
    "bidirectional_path path length cannot be zero.";;
  let* local_mpls_label :=
    if path_len bidirectional_path >=? 3
    then (let* l := globals_alloc_mpls_label_id in ret (Some l))
    else ret None in
  let* local_service_scenario :=
    lift_footprint (icmpv4_flow_activation env bidirectional_path local_mpls_label
                      (req_mpls_label req) (Some (gpsid_source_ipv4 g))) in
  set_active_scenario g ([local_service_scenario], [req_sector_requesting_service req]);;
  ret (Activated 1 (path_len bidirectional_path - 1)).

(** [adjacent_sectors_ids = sector.query_sectors_ids()] followed by
    [adjacent_sectors_ids.remove(sector_requesting_service_id)], which
    raises [KeyError] on a set that lacks the element. *)
Definition other_adjacent_sectors (req : scenario_request) : M state (list Z) :=
  let* adjacent_sectors_ids := query_world (query_sectors_ids env) in
  match py_list_remove (req_sector_requesting_service req) adjacent_sectors_ids with
  | Some r => ret r
  | None => raise KeyError
  end.

(** The body of the [try] of the ICMPv4 branch after the task token is
    registered (lines 383-825). *)
Definition icmp_body (req : scenario_request) (info : host_info) : M state engine_reply :=
  if host_controller_id info =? this_controller_id env
  then icmp_target_local req info
  else
    let* adjacent_sectors_ids := other_adjacent_sectors req in
    if (length adjacent_sectors_ids =? 0)%nat then ret (Refused NoSectorsToExplore)
    else if bool_decide (host_controller_id info ∈ adjacent_sectors_ids)
    then (let* r := icmp_target_adjacent req info in ret r.1)
    else
      let* possible_links := gather_links adjacent_sectors_ids in
      let* r := icmp_explore_loop (length possible_links) req possible_links in
      ret r.1.

(** *** IPv4 (lines 852-1268) *)

(** [unidirectional_path.path[-2]]. *)
Definition path_penultimate_hop (p : path) : option (Z * Z * Z) :=
  match rev (path_hops p) with
  | _ :: hop :: _ => Some hop
  | _ => None
  end.

Definition ipv4_target_local (req : scenario_request) (info : host_info)
    : M state engine_reply :=
  let g := req_global_path_search_id req in
  let* unidirectional_path :=
    lift_world (construct_unidirectional_path env
      (SectorEntity (req_sector_requesting_service req)) (HostEntity (host_name info))
      (req_hash_val req) None) in
  py_assert (negb (path_len unidirectional_path =? 0))
    "unidirectional_path path length cannot be zero.";;
  let* local_mpls_label :=
    if path_len unidirectional_path >=? 3
    then (let* l := globals_alloc_mpls_label_id in ret (Some l))
    else ret None in
  let* local_service_scenario :=
    lift_footprint (ipv4_generic_flow_activation env unidirectional_path local_mpls_label
                      (req_mpls_label req) (Some (gpsid_source_ipv4 g))) in
  set_active_scenario g ([local_service_scenario], [req_sector_requesting_service req]);;
  ret (Activated 1 (path_len unidirectional_path - 1)).

(** Lines 953-1078. *)
Definition ipv4_target_adjacent (req : scenario_request) (info : host_info)
    : M state engine_reply :=
  let g := req_global_path_search_id req in
  let target_ipv4 := gpsid_target_ipv4 g in
  let owner := host_controller_id info in
  let* unidirectional_path :=
    lift_world (construct_unidirectional_path env
      (SectorEntity (req_sector_requesting_service req)) (SectorEntity owner)
      (req_hash_val req) None) in
  py_assert (negb (path_len unidirectional_path =? 0))
    "unidirectional_path path length cannot be zero.";;
  let* local_mpls_label := globals_alloc_mpls_label_id in
  match path_penultimate_hop unidirectional_path with
  | None => raise IndexError
  | Some (switch_id, _, port_out) =>
      let* result :=
        request_activation false (SectorKey owner) owner g local_mpls_label
          switch_id port_out in
      if ar_success result then
        let* upd := on_peer_success (SectorKey owner) (AddrString target_ipv4) target_ipv4
                      result unidirectional_path in
        let* local_service_scenario :=
          lift_footprint (sector_to_sector_mpls_flow_activation env unidirectional_path
                            local_mpls_label (req_mpls_label req)) in
        set_active_scenario g
          ([local_service_scenario], [req_sector_requesting_service req; owner]);;
        ret (Activated upd.1 (path_len unidirectional_path + upd.2 - 1))
      else
        on_peer_failure (SectorKey owner) (AddrString target_ipv4) result;;
        ret (Refused NoSectorsToExplore)
  end.

(** The loop over adjacent sectors of lines 1081-1243. *)
Fixpoint ipv4_explore_loop (fuel : nat) (req : scenario_request)
    (adjacent_sectors_ids : list Z) : M state (engine_reply * list Z) :=
  match adjacent_sectors_ids with
  | [] => ret (Refused AlternativesExhausted, [])
  | _ :: _ =>
      match fuel with
      | O => raise (OtherException "iteration bound")
      | S fuel' =>
          let g := req_global_path_search_id req in
          let target_ipv4 := gpsid_target_ipv4 g in
          let* selected_sector_id :=
            select_by_q_value SectorKey (AddrObject target_ipv4) adjacent_sectors_ids in
          let* adjacent_sectors_ids' :=
            match py_list_remove selected_sector_id adjacent_sectors_ids with
            | Some r => ret r
            | None => raise KeyError
            end in
          let* unidirectional_path :=
            lift_world (construct_unidirectional_path env
              (SectorEntity (req_sector_requesting_service req))
              (SectorEntity selected_sector_id) (req_hash_val req) None) in
          py_assert (negb (path_len unidirectional_path =? 0))
            "unidirectional_path path length cannot be zero.";;
          let* local_mpls_label := globals_alloc_mpls_label_id in
          match path_penultimate_hop unidirectional_path with
          | None => raise IndexError
          | Some (switch_id, _, port_out) =>
              let* result :=
                request_activation true (SectorKey selected_sector_id) selected_sector_id
                  g local_mpls_label switch_id port_out in
              if ar_success result then
                let* upd := on_peer_success (SectorKey selected_sector_id)
                              (AddrString target_ipv4) target_ipv4
                              result unidirectional_path in
                let* s2s := both_sectors unidirectional_path in
                let* local_service_scenario :=
                  if s2s
                  then lift_footprint (sector_to_sector_mpls_flow_activation env
                         unidirectional_path local_mpls_label (req_mpls_label req))
                  else lift_footprint (ipv4_generic_flow_activation env unidirectional_path
                         (Some local_mpls_label) (req_mpls_label req) None) in
                set_active_scenario g
                  ([local_service_scenario],
                   [req_sector_requesting_service req; selected_sector_id]);;
                ret (Activated upd.1 (path_len unidirectional_path + upd.2 - 1),
                     adjacent_sectors_ids')
              else
                on_peer_failure (SectorKey selected_sector_id) (AddrString target_ipv4)
                  result;;
                ipv4_explore_loop fuel' req adjacent_sectors_ids'
          end
      end
  end.

Definition ipv4_body (req : scenario_request) (info : host_info) : M state engine_reply :=
  if host_controller_id info =? this_controller_id env
  then ipv4_target_local req info
  else
    let* adjacent_sectors_ids := other_adjacent_sectors req in
    if (length adjacent_sectors_ids =? 0)%nat then ret (Refused NoSectorsToExplore)
    else if bool_decide (host_controller_id info ∈ adjacent_sectors_ids)
    then ipv4_target_adjacent req info
    else
      let* r := ipv4_explore_loop (length adjacent_sectors_ids) req adjacent_sectors_ids in
      ret r.1.

(** *** The whole of [__activate_scenario] *)

(** The three [except] clauses that close each branch (lines 827-850,
    1245-1268). *)
Definition scenario_handlers (ex : exn) : M state engine_reply :=
  ret (Refused match ex with
               | ImplementationTaskExists => TaskAlreadyRunning
               | PathNotFound => NoLocalPath
               | _ => ActivationFailed ex
               end).

(** [try: active_task_token = register_implementation_task(...); body
    except ...]: the token lives until the function returns, and only a
    token that was registered is removed. *)
Definition with_implementation_task (g : gpsid) (first_layer second_layer : string)
    (body : M state engine_reply) : M state engine_reply :=
  fun st =>
    match register_implementation_task g first_layer second_layer st with
    | (Raise ex, st') => scenario_handlers ex st'
    | (Ok _, st') =>
        let (r, st'') := try_except body scenario_handlers st' in
        (r, release_implementation_task g first_layer second_layer st'')
    end.

(** The function from its first line to the reply, as a tagged value;
    it raises where the source raises before its first [try]. *)
Definition activate_scenario_reply (req : scenario_request)
    : M state (host_info * engine_reply) :=
  let g := req_global_path_search_id req in
  py_assert (0 <=? req_mpls_label req) "scenario_mpls_label expected to be non negative  int";;
  py_assert (0 <=? req_hash_val req) "scenario_hash_val expected to be non negative int";;
  let* target_host_info :=
    query_world (fun w => central_query_address_info env w (gpsid_target_ipv4 g)) in
  let* reply :=
    if gpsid_source_controller g =? this_controller_id env
    then ret (Refused LoopDetected)
    else fun st =>
      if is_scenario_active g st then (Ok (Refused AlreadyImplemented), st)
      else if String.eqb (gpsid_scenario_type g) "ICMPv4"
      then with_implementation_task g "IPv4" "ICMP" (icmp_body req target_host_info) st
      else if String.eqb (gpsid_scenario_type g) "IPv4"
      then with_implementation_task g "IPv4" "*" (ipv4_body req target_host_info) st
      else (Ok (Refused InvalidScenarioType), st) in
  ret (target_host_info, reply).

(** The [reason] strings. *)
Definition refusal_text (g : gpsid) (info : host_info) (why : refusal) : string :=
  match why with
  | LoopDetected => "Path search has reached the source controller. Cancelling..."
  | AlreadyImplemented =>
      "Scenario with ID " +:+ str_of_gpsid env g +:+ " is already implemented."
  | NoSectorsToExplore => "No available sectors to explore."
  | AlternativesExhausted =>
      "Failed to activate Scenario with ID " +:+ str_of_gpsid env g
      +:+ ". Alternative adjacent sectors options is exhausted."
  | TaskAlreadyRunning =>
      "Global task with ID " +:+ str_of_gpsid env g +:+ " is already being executed"
  | NoLocalPath =>
      "Failed to implement path to sector " +:+ str_of_uuid env (host_controller_id info)
      +:+ ". An available path was not found in the network."
  | ActivationFailed ex =>
      "Failed to implement path to host " +:+ host_name info +:+ " at sector "
      +:+ str_of_uuid env (host_controller_id info) +:+ ". Reason "
      +:+ str_of_exn_type env ex +:+ "."
  | InvalidScenarioType =>
      "Failed to activate Scenario with ID " +:+ str_of_gpsid env g
      +:+ ". Invalid Scenario Type: " +:+ gpsid_scenario_type g
  end.

(** The dict that is returned. *)
Definition reply_dict (g : gpsid) (info : host_info) (reply : engine_reply)
    : activation_result :=
  match reply with
  | Activated q_value path_length =>
      ActivationResult true (Some g) (Some q_value) (Some path_length) None
  | Refused why => ActivationResult false None None None (Some (refusal_text g info why))
  end.

(** [__activate_scenario]. *)
Definition __activate_scenario (req : scenario_request) : M state activation_result :=
  let* r := activate_scenario_reply req in
  ret (reply_dict (req_global_path_search_id req) r.1 r.2).

End Engine.

(** ** [__terminate_scenario] and the request dispatch *)

Section Server.
Context {X : Type} (env : Env X).

Local Abbreviation state := (controller_state X).

(** The three nested [for] loops of lines 1312-1319: every entry of
    [mapped_services] whose service object is one of the scenario's is
    deleted. The objects themselves are finalised by the services
    module, which is outside this development. *)
Definition kill_mapped_services (local_scenarios_ids_list : list Z) (t : services_table)
    : services_table :=
  (fun layer : gmap string (gmap (Z * Z) Z) =>
     (fun entries : gmap (Z * Z) Z =>
        filter (fun kv : (Z * Z) * Z => kv.2 ∉ local_scenarios_ids_list) entries)
     <$> layer) <$> t.

(** The loop of lines 1327-1346 over the sectors in the order given. A
    proxy call that raises ends the loop. *)
Fixpoint notify_sectors (g : gpsid) (sectors : list Z) : M state unit :=
  match sectors with
  | [] => ret tt
  | sector_id :: rest =>
      lift_world (get_controller_proxy env sector_id);;
      query_world (proxy_method_lookup env sector_id "terminate_scenario");;
      let* _ :=
        (fun st : state =>
           let (res, w) :=
             proxy_terminate_scenario env sector_id g (this_controller_id env) (world st) in
           let st' := set_rpc_log (set_world st w)
                        (rpc_log st ++ [RpcTerminate sector_id res]) in
           (res, st')) in
      notify_sectors g rest
  end.

(** The elements of a set in the order of its iteration. *)
Definition iteration_of_set (elements : list Z) : list Z :=
  merge_sort (H := fun x y => decide (set_iteration_rank env x <= set_iteration_rank env y))
    (fun x y => set_iteration_rank env x <= set_iteration_rank env y) elements.

(** [set(adjacent_sectors_ids) - {requesting_sector_id}] as the [for] of
    line 1327 goes through it. *)
Definition sectors_to_notify (adjacent_sectors_ids : list Z) (requesting_sector_id : Z)
    : list Z :=
  iteration_of_set
    (filter (fun s => s <> requesting_sector_id) (remove_dups adjacent_sectors_ids)).

(** [__terminate_scenario]. *)
Definition __terminate_scenario (g : gpsid) (requesting_sector_id : Z)
    : M state termination_result :=
  fun st =>
    if negb (is_scenario_active g st)
    then (Ok (TerminationResult false None
                (Some ("Path with ID " +:+ str_of_gpsid env g
                       +:+ " registration does not exist."))), st)
    else
      try_except
        (let* record := get_active_scenario g true in
         (fun st1 : state =>
            (Ok tt, set_mapped_services st1
                      (kill_mapped_services record.1 (mapped_services st1))));;
         notify_sectors g (sectors_to_notify record.2 requesting_sector_id);;
         ret (TerminationResult true (Some g) None))
        (fun ex =>
           raise (OtherException
                    ("Failed to terminate scenario with ID " +:+ str_of_gpsid env g
                     +:+ ". Reason " +:+ str_of_exn_type env ex +:+ ".")))
        st.

(** A decoded request [(method_name, args, kwargs)] whose first
    component is a string. *)
Record rpc_request : Type := RpcRequest {
  rq_func_name : string;
  rq_payload : rpc_payload
}.

Inductive rpc_value : Type :=
| ValueTime (s : string)
| ValueNone
| ValueAddressInfo (i : host_info)
| ValueActivation (r : activation_result)
| ValueTermination (r : termination_result).

(** The second component of an answer [(status, body)]. *)
Inductive answer_body : Type :=
| AnswerValue (v : rpc_value)
| AnswerError (msg : string).

(** The keys of [_requests]. *)
Definition request_names : list string :=
  ["req_local_time"; "publish_event"; "query_address_info";
   "activate_scenario"; "terminate_scenario"].

(** [_requests] (lines 1362-1368). *)
Definition _requests (func_name : string) : option (rpc_payload -> M state rpc_value) :=
  if String.eqb func_name "req_local_time"
  then Some (fun _ st => (Ok (ValueTime (time_asctime env (world st))), st))
  else if String.eqb func_name "publish_event"
  then Some (fun _ => ret ValueNone)
  else if String.eqb func_name "query_address_info"
  then Some (fun p =>
               let* i := query_world (database_query_address_info env p) in
               ret (ValueAddressInfo i))
  else if String.eqb func_name "activate_scenario"
  then Some (fun p =>
               match p with
               | PayloadActivate r =>
                   let* a := __activate_scenario env r in ret (ValueActivation a)
               | _ => raise TypeError
               end)
  else if String.eqb func_name "terminate_scenario"
  then Some (fun p =>
               match p with
               | PayloadTerminate g s =>
                   let* t := __terminate_scenario g s in ret (ValueTermination t)
               | _ => raise TypeError
               end)
  else None.

(** The two [except] clauses of lines 249-257; [func_name] is [None]
    until line 237 has run. *)
Definition request_handlers (func_name : option string) (ex : exn)
    : M state (Z * answer_body) :=
  match ex with
  | KeyError =>
      ret (1, AnswerError ("Unknown Request: '" +:+ repr_of_name env func_name +:+ "'"))
  | _ =>
      if flags_debug env
      then ret (1, AnswerError ("Unknown Request: " +:+ str_of_exn env ex))
      else ret (1, AnswerError "Internal Error. Cannot process request.")
  end.

(** Lines 227-257 of [client_handler], from the decoded request to the
    answer that is sent back. *)
Definition client_handler (request : rpc_request) : M state (Z * answer_body) :=
  fun st =>
    match py_assert env (bool_decide (rq_func_name request ∈ request_names))
            "function name is not registered " st with
    | (Raise ex, st1) => request_handlers None ex st1
    | (Ok _, st1) =>
        let func_name := rq_func_name request in
        try_except
          (match _requests func_name with
           | None => raise KeyError
           | Some handler =>
               let* result := handler (rq_payload request) in
               ret (0, AnswerValue result)
           end)
          (request_handlers (Some func_name))
          st1
    end.

End Server.

(** ** A small federation for concrete runs *)

(** This controller is sector 1; sectors 2, 3 and 4 are adjacent.
    Two links lead to sector 3 and one to sector 4. The host looked for
    lives in sector [owner]. Every local path exists and every peer
    answers an activation with [peer_reply]. A peer asked to terminate
    drops the connection when [hangup] is set and else answers that it does
    not know the search. Python runs with assertions on and without [-d]. *)
Definition demo_env (owner : Z) (hangup : bool) (peer_reply : activation_result)
    : Env unit :=
  MkEnv unit
    1 true false
    (fun _ _ => Ok (HostInfo "h9" owner))
    (fun _ => Ok [2; 3; 4])
    (fun _ s => Ok (if s =? 3 then [(10, 1, 100); (11, 1, 101)]
                    else if s =? 4 then [(12, 1, 102)] else []))
    (fun _ _ => Ok IsSector)
    (fun a b _ _ _ w => (Ok (Path [(10, 0, 1); (11, 0, 1)] 50 a b), w))
    (fun a b _ _ w => (Ok (Path [(10, 0, 1); (11, 0, 1)] 50 a b), w))
    (fun _ w => (Ok tt, w))
    (fun _ _ _ => Ok tt)
    (fun _ _ w => (Ok peer_reply, w))
    (fun _ _ _ w =>
       if hangup then (Raise (OtherException "Socket Closed"), w)
       else (Ok (TerminationResult false None
                   (Some "Path with ID (id) registration does not exist.")), w))
    (fun _ _ _ _ fp => (Ok 1000, fp))
    (fun _ _ _ _ fp => (Ok 1000, fp))
    (fun _ _ _ fp => (Ok 1000, fp))
    (fun _ => "Tue Nov  3 08:40:00 2026")
    (fun _ _ => Ok (HostInfo "h9" owner))
    (fun n => match n with Some s => "'" +:+ s +:+ "'" | None => "None" end)
    (fun ex => match ex with
               | ValueError m | AssertionError m | AttributeError m
               | OtherException m => m
               | _ => EmptyString
               end)
    (fun _ => "<class 'Exception'>")
    (fun _ => "(id)")
    (fun s => "sector")
    (fun s => s).

(** A peer that refuses, and one that accepts with a path of length 2. *)
Definition demo_refusal : activation_result := peer_failure "busy".

Definition demo_acceptance : activation_result :=
  ActivationResult true (Some (5, 167772165, 167772169, "ICMPv4")) (Some 1%Q) (Some 2) None.

(** The environment [demo_env 3 true demo_refusal] with a central
    registry that does not know the target address. *)
Definition demo_env_unknown_target : Env unit :=
  let env := demo_env 3 true demo_refusal in
  MkEnv unit
    (this_controller_id env) (assertions_enabled env) (flags_debug env)
    (fun _ _ => Raise (OtherException "ClientNotRegistered"))
    (query_sectors_ids env) (query_edges_to_sector env) (query_entity env)
    (construct_bidirectional_path env) (construct_unidirectional_path env)
    (get_controller_proxy env) (proxy_method_lookup env)
    (proxy_activate_scenario env) (proxy_terminate_scenario env)
    (icmpv4_flow_activation env) (ipv4_generic_flow_activation env)
    (sector_to_sector_mpls_flow_activation env)
    (time_asctime env) (database_query_address_info env)
    (repr_of_name env) (str_of_exn env) (str_of_exn_type env)
    (str_of_gpsid env) (str_of_uuid env) (set_iteration_rank env).

Definition demo_state : controller_state unit :=
  ControllerState ∅ ∅ implementation_tasks_init
    [(100, (10, 1)); (101, (11, 1)); (102, (12, 1))]
    ∅ mapped_services_init cookie_pool_init mpls_pool_init tt [].

(** An ICMPv4 search started by sector 5 for host 10.0.0.9, handed over
    by sector 2. *)
Definition demo_request : scenario_request :=
  ScenarioRequest (5, 167772165, 167772169, "ICMPv4") 2 17 7.

(** The scenario-type "MPLS" in a search that this controller started. *)
Definition demo_request_mpls_own : scenario_request :=
  ScenarioRequest (1, 167772165, 167772169, "MPLS") 2 17 7.

(** A state in which the search of [demo_request] is registered with one
    local service and the sectors 2 and 3. *)
Definition demo_state_active : controller_state unit :=
  ControllerState ∅ ∅ implementation_tasks_init
    [(100, (10, 1)); (101, (11, 1)); (102, (12, 1))]
    {[ (5, 167772165, 167772169, "ICMPv4") := ([1000], [2; 3]) ]}
    (<["IPv4" := {[ "ICMP" := {[ (5, 9) := 1000 ]}; "UDP" := ∅; "TCP" := ∅; "*" := ∅ ]}]>
       mapped_services_init)
    cookie_pool_init mpls_pool_init tt [].

(** The same with the sectors 2, 3 and 4 in the record. *)
Definition demo_state_active_downstream : controller_state unit :=
  ControllerState ∅ ∅ implementation_tasks_init
    [(100, (10, 1)); (101, (11, 1)); (102, (12, 1))]
    {[ (5, 167772165, 167772169, "ICMPv4") := ([1000], [2; 3; 4]) ]}
    (<["IPv4" := {[ "ICMP" := {[ (5, 9) := 1000 ]}; "UDP" := ∅; "TCP" := ∅; "*" := ∅ ]}]>
       mapped_services_init)
    cookie_pool_init mpls_pool_init tt [].

(** A state in which the link (10, 1) is known to reach the target
    within one hop. *)
Definition demo_state_kspl : controller_state unit :=
  ControllerState ∅ {[ EdgeKey 10 1 := {[ AddrObject 167772169 := Some 1 ]} ]}
    implementation_tasks_init
    [(100, (10, 1)); (101, (11, 1)); (102, (12, 1))]
    ∅ mapped_services_init cookie_pool_init mpls_pool_init tt [].

(** A service object [h] is held somewhere in [mapped_services]. *)
Definition holds_service (t : services_table) (h : Z) : Prop :=
  exists network_service service_type entities_ids_pair layer entries,
    t !! network_service = Some layer
    /\ layer !! service_type = Some entries
    /\ entries !! entities_ids_pair = Some h.

(** Every proxy call that [__terminate_scenario] makes to one of
    [sectors] returns, whatever the peer reports. *)
Definition peers_answer {X : Type} (env : Env X) (g : gpsid) (sectors : list Z) : Prop :=
  forall s w, s ∈ sectors ->
    (exists w1, get_controller_proxy env s w = (Ok tt, w1))
    /\ proxy_method_lookup env s "terminate_scenario" w = Ok tt
    /\ (exists res w2,
          proxy_terminate_scenario env s g (this_controller_id env) w = (Ok res, w2)).

(** The answer of sector [s] that the loop of [__terminate_scenario]
    records when the proxy call returns. *)
Definition answered_by (s : Z) (ev : rpc_event) : Prop :=
  exists res, ev = RpcTerminate s (Ok res).

(** The loop over [sectors] has recorded [evs] and was ended by [ex]: the
    sectors before some sector [s] have answered, in their order; for [s]
    the creation of the proxy or the lookup of the method has raised [ex],
    and nothing is recorded for [s], or the remote call has raised [ex],
    and that is recorded; for the sectors after [s] nothing is recorded. *)
Definition stopped_at {X : Type} (env : Env X) (g : gpsid) (sectors : list Z)
    (evs : list rpc_event) (ex : exn) : Prop :=
  exists called s skipped oks,
    sectors = called ++ s :: skipped
    /\ Forall2 answered_by called oks
    /\ ((evs = oks
         /\ ((exists w, (get_controller_proxy env s w).1 = Raise ex)
             \/ (exists w, proxy_method_lookup env s "terminate_scenario" w = Raise ex)))
        \/ (evs = oks ++ [RpcTerminate s (Raise ex)]
            /\ exists w,
                 (proxy_terminate_scenario env s g (this_controller_id env) w).1
                 = Raise ex)).

(** The text of the exception that [__terminate_scenario] raises. *)
Definition termination_error {X : Type} (env : Env X) (g : gpsid) (ex : exn) : string :=
  "Failed to terminate scenario with ID " +:+ str_of_gpsid env g
  +:+ ". Reason " +:+ str_of_exn_type env ex +:+ ".".

(** ** Predicates on runs of the engine *)

(** [st'] differs from [st] neither in [kspl] nor in the record of peer
    RPCs. *)
Definition kspl_log_frame {X : Type} (st st' : controller_state X) : Prop :=
  kspl st' = kspl st /\ rpc_log st' = rpc_log st.

(** Every run of [m] ends in a state framed by its start. *)
Definition frames {X A : Type} (m : M (controller_state X) A) : Prop :=
  forall st r st', m st = (r, st') -> kspl_log_frame st st'.

(** No recorded activation RPC has succeeded. *)
Definition no_success {X : Type} (st : controller_state X) : Prop :=
  forall key peer res, RpcActivate key peer res ∈ rpc_log st -> ar_success res = false.

(** The last recorded RPC is the activation [(key, peer, res)], and none
    before it has succeeded. *)
Definition pending {X : Type} (key : table_key) (peer : Z) (res : activation_result)
    (st : controller_state X) : Prop :=
  exists before,
    rpc_log st = before ++ [RpcActivate key peer res]
    /\ forall key' peer' res',
         RpcActivate key' peer' res' ∈ before -> ar_success res' = false.

(** For every recorded activation RPC that succeeded with a path length
    [p], the KSPL cell of its key and of the target holds [p + 1]. *)
Definition kspl_ok {X : Type} (target_ipv4 : Z) (st : controller_state X) : Prop :=
  forall key peer res p,
    RpcActivate key peer res ∈ rpc_log st ->
    ar_success res = true ->
    ar_path_length res = Some p ->
    kspl_cell key (AddrObject target_ipv4) (kspl st) = Some (Some (p + 1)).

(** A state predicate that looks at [kspl] and the RPC record only. *)
Definition frame_closed {X : Type} (P : controller_state X -> Prop) : Prop :=
  forall st st', kspl_log_frame st st' -> P st -> P st'.

(** From a state in [P], every run of [m] ends in a state that is
    [kspl_ok], whether [m] returns or raises. *)
Definition safe {X A : Type} (target_ipv4 : Z) (P : controller_state X -> Prop)
    (m : M (controller_state X) A) : Prop :=
  forall st r st', P st -> m st = (r, st') -> kspl_ok target_ipv4 st'.

(** ** Observations of the allocators, the tables and the engine *)

(** The ceiling that [alloc_*] tests the counter against. *)
Definition cookie_ceiling : Z := 0xFFFFFFFFFFFFFFFF.
Definition mpls_ceiling : Z := 0x100000.

(** What [get_q_value] would return for a cell, as a plain function of
    the table. *)
Definition q_read (sector_id : table_key) (host : host_address) (QValues : q_table) : Q :=
  default 0%Q (q_cell sector_id host QValues).

(** What [get_known_shortest_path] would return for a cell. *)
Definition kspl_read (sector_id : table_key) (host : host_address) (kspl : kspl_table)
    : option Z :=
  default None (kspl_cell sector_id host kspl).

(** [p'] is reached from the label allocator state [p] by successful
    calls of [alloc_mpls_label_id] alone. *)
Inductive allocs_only : id_pool -> id_pool -> Prop :=
| allocs_none p : allocs_only p p
| allocs_step p id p1 p' :
    alloc_mpls_label_id p = (Ok id, p1) -> allocs_only p1 p' -> allocs_only p p'.

(** What a step of the engine may do to the globals other than [kspl],
    the scenario registry and what the service installers own: no token
    is added or removed, the beacon table is as it was, every Q-value reads
    as before, and labels are only allocated. *)
Definition engine_quiet {X : Type} (st st' : controller_state X) : Prop :=
  implementation_tasks st' = implementation_tasks st
  /\ beacons_hash_table st' = beacons_hash_table st
  /\ (forall k h, q_read k h (QValues st') = q_read k h (QValues st))
  /\ allocs_only (mpls_labels st) (mpls_labels st').

Definition quiet {X A : Type} (m : M (controller_state X) A) : Prop :=
  forall st r st', m st = (r, st') -> engine_quiet st st'.

(** An observation [f] of the controller state that none of the tables of
    the engine, the allocators and the collaborators' state enters. *)
Record engine_blind {X F : Type} (f : controller_state X -> F) : Prop := EngineBlind {
  blind_QValues : forall st t, f (set_QValues st t) = f st;
  blind_kspl : forall st t, f (set_kspl st t) = f st;
  blind_mpls_labels : forall st p, f (set_mpls_labels st p) = f st;
  blind_world : forall st w, f (set_world st w) = f st;
  blind_cookie_ids : forall st p, f (set_cookie_ids st p) = f st;
  blind_mapped_services : forall st t, f (set_mapped_services st t) = f st
}.

(** Every run of [m] ends in a state with the observation [f] it started
    with. *)
Definition keeps {X A F : Type} (f : controller_state X -> F)
    (m : M (controller_state X) A) : Prop :=
  forall st r st', m st = (r, st') -> f st' = f st.

(** What a reply says about the table of active scenarios: a success has
    recorded the search, with one service and the requester as the first
    sector; a refusal has left the table alone. *)
Definition recorded_as {X : Type} (g : gpsid) (requester : Z) (st : controller_state X)
    (reply : engine_reply) (st' : controller_state X) : Prop :=
  match reply with
  | Activated _ _ =>
      active_scenarios st !! g = None
      /\ exists service peers,
           active_scenarios st' = <[g := ([service], requester :: peers)]> (active_scenarios st)
           /\ (length peers <= 1)%nat
  | Refused _ => active_scenarios st' = active_scenarios st
  end.

Definition records {X A : Type} (g : gpsid) (requester : Z) (reply_of : A -> engine_reply)
    (m : M (controller_state X) A) : Prop :=
  forall st r st', m st = (r, st') ->
    match r with
    | Ok a => recorded_as g requester st (reply_of a) st'
    | Raise _ => active_scenarios st' = active_scenarios st
    end.

(** The sector that a recorded RPC went to. *)
Definition rpc_peer (ev : rpc_event) : Z :=
  match ev with
  | RpcActivate _ peer _ => peer
  | RpcTerminate peer _ => peer
  end.

(** Every run of [m] sends at most [n] requests, each to a sector in
    [allowed], and forgets none that was sent before. *)
Definition sends {X A : Type} (allowed : Z -> Prop) (n : nat)
    (m : M (controller_state X) A) : Prop :=
  forall st r st', m st = (r, st') ->
    exists new, rpc_log st' = rpc_log st ++ new
      /\ (length new <= n)%nat
      /\ forall ev, ev ∈ new -> allowed (rpc_peer ev).

(** Every run of [m] sends its activation requests to candidates of the
    list, to another one each time: the requests that the run adds to the
    record are, one by one and in their order, the requests for the
    entries of a list [tried], and [tried] is contained in [candidates],
    an entry that occurs [n] times in [candidates] occurring [n] times in
    [tried] at most. *)
Definition tries {X A L : Type} (key_of : L -> table_key) (peer_of : L -> Z)
    (candidates : list L) (m : M (controller_state X) A) : Prop :=
  forall st r st', m st = (r, st') ->
    exists tried new,
      rpc_log st' = rpc_log st ++ new
      /\ tried ⊆+ candidates
      /\ Forall2 (fun l ev => exists res, ev = RpcActivate (key_of l) (peer_of l) res)
           tried new.

(** The same without the count. *)
Definition asks {X A : Type} (allowed : Z -> Prop) (m : M (controller_state X) A) : Prop :=
  forall st r st', m st = (r, st') ->
    exists new, rpc_log st' = rpc_log st ++ new
      /\ forall ev, ev ∈ new -> allowed (rpc_peer ev).

(** A property of every value that [m] returns. *)
Definition yields {S A : Type} (m : M S A) (P : A -> Prop) : Prop :=
  forall st a st', m st = (Ok a, st') -> P a.

(** Two states in which every cell of the Q-table reads the same. *)
Definition same_reads {X : Type} (st st' : controller_state X) : Prop :=
  forall k h, q_read k h (QValues st') = q_read k h (QValues st).

(** ** The framing of requests and answers on a connection
       ([client_handler] lines 203-225 and 259-262, [__PeerProxy] lines
       112-147) *)

Definition byte_of_Z (z : Z) : Byte.byte :=
  default Byte.x00 (Byte.of_N (Z.to_N (z mod 256))).

Definition Z_of_byte (b : Byte.byte) : Z := Z.of_N (Byte.to_N b).

(** [struct.pack("!H", n)]: an unsigned 16-bit integer, most significant
    byte first; [struct.error] for a number out of range. *)
Definition pack_H (n : Z) : outcome (list Byte.byte) :=
  if (0 <=? n) && (n <=? 65535)
  then Ok [byte_of_Z (n / 256); byte_of_Z (n mod 256)]
  else Raise (OtherException "struct.error").

(** [struct.unpack("!H", buf)[0]]. *)
Definition unpack_H (buf : list Byte.byte) : outcome Z :=
  match buf with
  | [hi; lo] => Ok (256 * Z_of_byte hi + Z_of_byte lo)
  | _ => Raise (OtherException "struct.error")
  end.

(** [struct.pack("!H{:d}s".format(len(data)), len(data), data)]. *)
Definition pack_frame (data : list Byte.byte) : outcome (list Byte.byte) :=
  match pack_H (Z.of_nat (length data)) with
  | Ok header => Ok (header ++ data)
  | Raise e => Raise e
  end.

(** A connected socket as its reader sees it: the bytes that the peer
    sends before it closes, and how the network cuts them up: the [i]-th
    call of [recv] can deliver [S (chunking i)] bytes at most. Timeouts are
    left out. *)
Record socket : Type := Socket {
  incoming : list Byte.byte;
  chunking : nat -> nat;
  recv_calls : nat
}.

(** [socket.recv(bufsize, MSG_WAITALL)]: at least one byte and at most
    [bufsize] while the peer has bytes to deliver, and the empty
    [bytes] once it has closed. *)
Definition recv (bufsize : nat) (s : socket) : list Byte.byte * socket :=
  let n := Nat.min bufsize (S (chunking s (recv_calls s))) in
  (take n (incoming s), Socket (drop n (incoming s)) (chunking s) (S (recv_calls s))).

(** [memoryview(buf)[a:a+len(data)] = data], which raises [ValueError]
    when the slice of [buf] is shorter than [data]. *)
Definition slice_assign (buf : list Byte.byte) (a : nat) (data : list Byte.byte)
    : option (list Byte.byte) :=
  if (a + length data <=? length buf)%nat
  then Some (take a buf ++ data ++ drop (a + length data) buf)
  else None.

(** The loop [while received_bytes < n] of [client_handler], lines
    206-213 and 218-225; [None] where the handler returns because the peer
    has closed. The loops of the proxy, lines 126-133 and 139-146, treat
    the bytes they receive in the same way, and raise
    [Exception("Socket Closed")] where these return. *)
Fixpoint recv_exact_loop (fuel : nat) (n received_bytes : nat) (buf : list Byte.byte)
    (s : socket) : outcome (option (list Byte.byte)) * socket :=
  if (received_bytes <? n)%nat then
    match fuel with
    | O => (Raise (OtherException "iteration bound"), s)
    | S fuel' =>
        let (data_bytes, s') := recv (n - received_bytes) s in
        match data_bytes with
        | [] => (Ok None, s')
        | _ :: _ =>
            match slice_assign buf received_bytes data_bytes with
            | Some buf' =>
                recv_exact_loop fuel' n (received_bytes + length data_bytes) buf' s'
            | None => (Raise (ValueError "memoryview assignment"), s')
            end
        end
    end
  else (Ok (Some buf), s).

(** [buf = bytearray(n)] and the loop; every turn of the loop receives
    a byte at least, so [n] turns are enough. *)
Definition recv_exact (n : nat) (s : socket) : outcome (option (list Byte.byte)) * socket :=
  recv_exact_loop n n 0 (replicate n Byte.x00) s.

(** The two loops with the [struct.unpack] between them: the encoded
    request that arrives next, and [None] when the peer closes before it
    is complete. *)
Definition read_frame (s : socket) : outcome (option (list Byte.byte)) * socket :=
  match recv_exact 2 s with
  | (Ok (Some header), s1) =>
      match unpack_H header with
      | Ok msg_len => recv_exact (Z.to_nat msg_len) s1
      | Raise e => (Raise e, s1)
      end
  | (r, s1) => (r, s1)
  end.

(** ** The start of the controller ([ArchSDN.__init__], lines 54-130 and
       196-198 of [ArchSDN.py]) *)

(** A value of [default_configs]. [V] is the type of the values that
    [CONF] holds. *)
Inductive cfg_value (V : Type) : Type :=
| CfgUUID (u : Z)
| CfgIP (version address : Z)
| CfgInt (n : Z)
| CfgStr (s : string)
| CfgNone
| CfgRaw (v : V)
| CfgPath (v : V)
| CfgCallable.
Arguments CfgUUID {V} u.
Arguments CfgIP {V} version address.
Arguments CfgInt {V} n.
Arguments CfgStr {V} s.
Arguments CfgNone {V}.
Arguments CfgRaw {V} v.
Arguments CfgPath {V} v.
Arguments CfgCallable {V}.

(** What [__init__] calls outside its own file, on a world [W]. *)
Record BootEnv (V W : Type) : Type := MkBootEnv {
  (** [bool(value)] of a value of [CONF] *)
  conf_truthy : V -> bool;
  (** [super().__init__] and the two [signal.signal] *)
  ryu_app_init : W -> outcome unit * W;
  (** [UUID(value)], [ip_address(value)], [int(value)] *)
  parse_uuid : V -> outcome Z;
  parse_ip_address : V -> outcome (Z * Z);
  parse_int : V -> outcome Z;
  (** [value != ':memory:'] *)
  differs_from_memory : V -> bool;
  (** [Path(value)], and [Path(value).parent.exists()] *)
  make_path : V -> outcome unit;
  parent_exists : V -> W -> bool;
  database_initialise : cfg_value V -> cfg_value V -> W -> outcome unit * W;
  boot_debug : bool
}.
Arguments conf_truthy {V W} _ _.
Arguments ryu_app_init {V W} _ _.
Arguments parse_uuid {V W} _ _.
Arguments parse_ip_address {V W} _ _.
Arguments parse_int {V W} _ _.
Arguments differs_from_memory {V W} _ _.
Arguments make_path {V W} _ _.
Arguments parent_exists {V W} _ _ _.
Arguments database_initialise {V W} _ _ _ _.
Arguments boot_debug {V W} _.

Section Boot.
Context {V W : Type} (benv : BootEnv V W).

Local Abbreviation configs := (gmap string (cfg_value V)).

(** [default_configs] as the module defines it; [id] is the [uuid4()]
    drawn at import. *)
Definition default_configs (id : Z) : configs :=
  {[ "id" := CfgUUID id;
     "controllerIP" := CfgIP 4 0;
     "controllerPort" := CfgInt 12345;
     "centralIP" := CfgNone;
     "centralIP_port" := CfgInt 12345;
     "dbLocation" := CfgStr ":memory:";
     "logLevel" := CfgStr (if boot_debug benv then "DEBUG" else "INFO") ]}.

(** [dict(((key, CONF[key]) for key in CONF if "archSDN" in key and
    CONF[key]))]. *)
Definition archSDN_cli_opts (CONF : gmap string V) : gmap string V :=
  filter (fun kv => Is_true (bool_decide (is_Some (String.index 0 "archSDN" kv.1))
                             && conf_truthy benv kv.2)) CONF.

(** [if flag in archSDN_cli_opts: default_configs[key] =
    convert(archSDN_cli_opts[source])]. *)
Definition configure (opts : gmap string V) (flag source key : string)
    (convert : V -> outcome (cfg_value V)) (cfg : configs) : M W configs :=
  match opts !! flag with
  | None => ret cfg
  | Some _ =>
      match opts !! source with
      | None => raise KeyError
      | Some v =>
          match convert v with
          | Ok c => ret (<[key := c]> cfg)
          | Raise e => raise e
          end
      end
  end.

Definition dict_get (cfg : configs) (key : string) : M W (cfg_value V) :=
  match cfg !! key with
  | Some c => ret c
  | None => raise KeyError
  end.

Definition convert_with {A : Type} (parse : V -> outcome A) (wrap : A -> cfg_value V)
    (v : V) : outcome (cfg_value V) :=
  match parse v with
  | Ok a => Ok (wrap a)
  | Raise e => Raise e
  end.

(** The body of the [try] up to the call of [central.initialise], for
    the first instance that the process makes: the configuration as it
    stands at the call and the two arguments of the call. The lines on
    logging change nothing that is read here, and [dbLocation] holds the
    default string or what the option holds. *)
Definition configure_until_central (CONF : gmap string V) (id : Z)
    : M W (configs * cfg_value V * cfg_value V) :=
  (fun w => ryu_app_init benv w);;
  let cfg := <["get_datapath" := CfgCallable]>
               (<["send_msg" := CfgCallable]> (default_configs id)) in
  let opts := archSDN_cli_opts CONF in
  let* cfg := configure opts "archSDN_id" "archSDN_id" "id"
                (convert_with (parse_uuid benv) CfgUUID) cfg in
  let* cfg := configure opts "archSDN_controllerIP" "archSDN_controllerIP" "controllerIP"
                (convert_with (parse_ip_address benv) (fun a => CfgIP a.1 a.2)) cfg in
  let* cfg := configure opts "archSDN_controllerIPPort" "archSDN_controllerPort"
                "controllerPort" (convert_with (parse_int benv) CfgInt) cfg in
  let* cfg := configure opts "archSDN_centralIP" "archSDN_centralIP" "centralIP"
                (convert_with (parse_ip_address benv) (fun a => CfgIP a.1 a.2)) cfg in
  let* cfg := configure opts "archSDN_centralPort" "archSDN_centralPort" "centralPort"
                (convert_with (parse_int benv) CfgInt) cfg in
  let* cfg := configure opts "archSDN_dbLocation" "archSDN_dbLocation" "dbLocation"
                (fun v => Ok (CfgRaw v)) cfg in
  let* cfg := configure opts "archSDN_logLevel" "archSDN_logLevel" "logLevel"
                (fun v => Ok (CfgRaw v)) cfg in
  let* location := dict_get cfg "dbLocation" in
  let* cfg :=
    match location with
    | CfgRaw v =>
        if differs_from_memory benv v then
          match make_path benv v with
          | Raise e => raise e
          | Ok _ =>
              fun w =>
                if parent_exists benv v w
                then (Ok (<["dbLocation" := CfgPath v]> cfg), w)
                else (Raise (OtherException "Database location directory does not exist"), w)
          end
        else ret cfg
    | _ => ret cfg
    end in
  let* location := dict_get cfg "dbLocation" in
  let* controller_id := dict_get cfg "id" in
  (fun w => database_initialise benv location controller_id w);;
  let* central_ip := dict_get cfg "centralIP" in
  let* central_port := dict_get cfg "centralPort" in
  ret (cfg, central_ip, central_port).

(** How far [__init__] gets: to the call of [central.initialise], or to
    [sys.exit(str(ex))] in its [except Exception as ex]. *)
Inductive boot_result : Type :=
| CallsCentralInitialise (cfg : configs) (central_ip central_port : cfg_value V)
| SysExit (ex : exn).

Definition __init__ (CONF : gmap string V) (id : Z) (w : W) : boot_result * W :=
  match configure_until_central CONF id w with
  | (Ok (cfg, central_ip, central_port), w') =>
      (CallsCentralInitialise cfg central_ip central_port, w')
  | (Raise ex, w') => (SysExit ex, w')
  end.

End Boot.

(** A start with string options, in which everything outside the file
    succeeds. *)
Definition demo_boot_env : BootEnv string unit :=
  MkBootEnv string unit
    (fun v => match v with EmptyString => false | _ => true end)
    (fun w => (Ok tt, w))
    (fun _ => Ok 7)
    (fun _ => Ok (4, 167772161))
    (fun v => if String.eqb v "6000" then Ok 6000
              else if String.eqb v "777" then Ok 777
              else Raise (ValueError "invalid literal for int() with base 10"))
    (fun v => negb (String.eqb v ":memory:"))
    (fun _ => Ok tt)
    (fun _ _ => true)
    (fun _ _ w => (Ok tt, w))
    false.

(** ** The serving loop of a connection ([client_handler], lines 195-265) *)

(** [pickle.loads(blosc.decompress(buf))] for a buffer that holds a
    request of the expected shape, a tuple [(str, args, kwargs)], or that
    cannot be decoded; and [blosc.compress(pickle.dumps(answer))]. *)
Record Codec : Type := MkCodec {
  decode_request : list Byte.byte -> outcome rpc_request;
  encode_answer : Z * answer_body -> outcome (list Byte.byte)
}.

Section Serving.
Context {X : Type} (env : Env X) (codec : Codec).

(** The inner [try] of lines 227-257 with its two [except] clauses. *)
Definition answer_request (buf : list Byte.byte) : M (controller_state X) (Z * answer_body) :=
  match decode_request codec buf with
  | Ok request => client_handler env request
  | Raise ex => request_handlers env None ex
  end.

(** The [while True] of [client_handler]: read a frame, answer it, send
    the framed answer. The loop ends when the peer has closed, and in the
    outer [except Exception] on any exception outside the inner [try].
    The result is what was sent, the socket and the state when the
    handler returns; [None] when the turns of the loop run out. *)
Fixpoint client_handler_loop (fuel : nat) (client_skt : socket) (sent : list Byte.byte)
    (st : controller_state X) : option (list Byte.byte * socket * controller_state X) :=
  match fuel with
  | O => None
  | S fuel' =>
      match read_frame client_skt with
      | (Ok (Some buf), skt) =>
          match answer_request buf st with
          | (Ok answer, st') =>
              match encode_answer codec answer with
              | Ok answer_data =>
                  match pack_frame answer_data with
                  | Ok frame => client_handler_loop fuel' skt (sent ++ frame) st'
                  | Raise _ => Some (sent, skt, st')
                  end
              | Raise _ => Some (sent, skt, st')
              end
          | (Raise _, st') => Some (sent, skt, st')
          end
      | (_, skt) => Some (sent, skt, st)
      end
  end.

(** Every frame takes two bytes at least, so one turn more than there are
    bytes to come is enough. *)
Definition serve_connection (client_skt : socket) (st : controller_state X)
    : option (list Byte.byte * socket * controller_state X) :=
  client_handler_loop (S (length (incoming client_skt))) client_skt [] st.

(** The requests [payloads], answered one after the other from [st], give
    the answers [answers] and leave [st']. *)
Inductive answered : list (list Byte.byte) -> controller_state X ->
    list (Z * answer_body) -> controller_state X -> Prop :=
| answered_nil st : answered [] st [] st
| answered_cons payload payloads st answer st1 answers st2 :
    answer_request payload st = (Ok answer, st1) ->
    answered payloads st1 answers st2 ->
    answered (payload :: payloads) st (answer :: answers) st2.

End Serving.

(** A codec for the requests for the local time: the buffer that holds
    the byte 1 alone decodes to the request, no other buffer decodes; an
    answer is encoded as its status followed by the bytes of the time or
    of the error text. *)
Definition demo_codec : Codec :=
  MkCodec
    (fun buf =>
       match buf with
       | [Byte.x01] => Ok (RpcRequest "req_local_time" PayloadOther)
       | _ => Raise (OtherException "UnpicklingError")
       end)
    (fun answer =>
       match answer.2 with
       | AnswerValue (ValueTime t) => Ok (byte_of_Z answer.1 :: String.list_byte_of_string t)
       | AnswerError msg => Ok (byte_of_Z answer.1 :: String.list_byte_of_string msg)
       | _ => Raise (OtherException "PicklingError")
       end).
(** ** Allocator facts *)

Lemma py_pop_snoc r x : py_pop (r ++ [x]) = Some (x, r).
Proof.
  induction r as [|y r IH]; simpl; [done|]. by rewrite IH.
Qed.

Lemma py_pop_spec l x r : py_pop l = Some (x, r) <-> l = r ++ [x].
Proof.
  split; [|intros ->; apply py_pop_snoc].
  revert x r. induction l as [|y l IH]; intros x r; simpl; [discriminate|].
  destruct (py_pop l) as [[z r']|] eqn:E.
  - intros [= <- <-]. by rewrite (IH _ _ eq_refl).
  - intros [= <- <-]. destruct l as [|a l]; [done|].
    simpl in E. destruct (py_pop l) as [[? ?]|]; discriminate.
Qed.

Lemma fold_left_max_ge (l : list Z) (a : Z) : a <= fold_left Z.max l a.
Proof.
  revert a. induction l as [|y l IH]; intros a; simpl; [lia|].
  specialize (IH (Z.max a y)). lia.
Qed.

Lemma fold_left_max_elem (l : list Z) (a : Z) :
  fold_left Z.max l a = a \/ fold_left Z.max l a ∈ l.
Proof.
  revert a. induction l as [|y l IH]; intros a; simpl; [by left|].
  destruct (IH (Z.max a y)) as [E|E].
  - rewrite E. destruct (Z.max_spec a y) as [[_ ->]|[_ ->]];
      [right; left|by left].
  - right. by right.
Qed.

Lemma fold_left_max_upper (l : list Z) (a x : Z) :
  x ∈ l -> x <= fold_left Z.max l a.
Proof.
  revert a. induction l as [|y l IH]; intros a; [by inversion 1|].
  intros [->|Hx]%elem_of_cons; simpl.
  - pose proof (fold_left_max_ge l (Z.max a y)). lia.
  - by apply IH.
Qed.

Lemma py_max_spec (l : list Z) (m : Z) :
  py_max l = Some m -> m ∈ l /\ forall x, x ∈ l -> x <= m.
Proof.
  destruct l as [|a l]; [discriminate|]. intros [= <-]. split.
  - destruct (fold_left_max_elem l a) as [->|H]; [left|by right].
  - intros x [->|Hx]%elem_of_cons.
    + apply fold_left_max_ge.
    + by apply fold_left_max_upper.
Qed.

Lemma py_max_None (l : list Z) : py_max l = None -> l = [].
Proof. by destruct l. Qed.

Lemma py_remove_elem (m x : Z) (l : list Z) :
  x ∈ py_remove m l -> x ∈ l.
Proof.
  induction l as [|y l IH]; simpl; [done|].
  destruct (Z.eqb_spec m y) as [->|Hne].
  - by right.
  - intros [->|H]%elem_of_cons; [left|right; auto].
Qed.

Lemma py_remove_NoDup (m : Z) (l : list Z) :
  NoDup l -> NoDup (py_remove m l).
Proof.
  induction 1 as [|y l Hy Hl IH]; simpl; [constructor|].
  destruct (Z.eqb_spec m y); [done|].
  constructor; [|done]. intros H. by apply Hy, (py_remove_elem m).
Qed.

Lemma py_remove_NoDup_elem (m x : Z) (l : list Z) :
  NoDup l -> x ∈ py_remove m l <-> x ∈ l /\ x <> m.
Proof.
  induction 1 as [|y l Hy Hl IH]; simpl.
  - split; [by inversion 1|by intros [? _]].
  - destruct (Z.eqb_spec m y) as [->|Hne].
    + split.
      * intros H. split; [by right|]. intros ->. done.
      * intros [[->|H]%elem_of_cons Hn]; done.
    + rewrite !elem_of_cons, IH. split.
      * intros [->|[? ?]]; split; auto.
      * intros [[->|?] ?]; auto.
Qed.

Lemma py_remove_length (m : Z) (l : list Z) :
  m ∈ l -> S (length (py_remove m l)) = length l.
Proof.
  induction l as [|y l IH]; [by inversion 1|]. simpl.
  destruct (Z.eqb_spec m y) as [->|Hne]; [done|].
  intros [->|H]%elem_of_cons; [done|]. simpl. by rewrite IH.
Qed.

(** The compaction loop re-establishes the allocator invariant, and
    [length pool] iterations are enough to reach its exit condition. *)
Lemma compact_loop_inv (lb : Z) (live : gset Z) (fuel : nat) (st : id_pool) :
  pool_inv_free lb st live ->
  (length (recycled st) <= fuel)%nat ->
  pool_inv lb (compact_loop fuel st) live /\ compact_done (compact_loop fuel st).
Proof.
  revert st. induction fuel as [|fuel IH]; intros [c pool] Hinv Hlen; simpl in *.
  - destruct pool; [|simpl in Hlen; lia].
    destruct Hinv as (H1 & H2 & H3 & H4 & H5). unfold pool_inv, compact_done; simpl.
    split; [|done]. split_and!; auto. intros x Hx. by inversion Hx.
  - destruct Hinv as (H1 & H2 & H3 & H4 & H5); simpl in *.
    destruct (py_max pool) as [m|] eqn:Hmax.
    + destruct (py_max_spec _ _ Hmax) as [Hm Hle].
      destruct (Z.eqb_spec c m) as [->|Hne].
      * apply IH.
        -- unfold pool_inv_free; simpl. pose proof (H3 _ Hm).
           split_and!.
           ++ lia.
           ++ by apply py_remove_NoDup.
           ++ intros x [Hx Hxm]%py_remove_NoDup_elem; [|done].
              pose proof (H3 _ Hx). lia.
           ++ intros x Hx. destruct (H4 _ Hx) as [Hr Hn]. split.
              ** assert (x <> m) by (intros ->; done). lia.
              ** intros Hx'. by apply Hn, (py_remove_elem m).
           ++ intros x Hx. destruct (H5 x) as [Hp|Hl]; [lia| |by right].
              left. apply py_remove_NoDup_elem; [done|]. split; [done|lia].
        -- simpl. pose proof (py_remove_length m pool Hm). lia.
      * unfold pool_inv, compact_done; simpl. rewrite Hmax. split; [|done].
        split_and!; auto. intros x Hx. pose proof (H3 _ Hx). pose proof (Hle _ Hx).
        pose proof (H3 _ Hm). lia.
    + apply py_max_None in Hmax as ->. unfold pool_inv, compact_done; simpl.
      split; [|done]. split_and!; auto. intros x Hx. by inversion Hx.
Qed.

Lemma compact_inv (lb : Z) (live : gset Z) (st : id_pool) :
  pool_inv_free lb st live ->
  pool_inv lb (compact st) live /\ compact_done (compact st).
Proof. intros H. by apply compact_loop_inv. Qed.

Lemma pool_inv_init (lb : Z) : pool_inv lb (IdPool lb []) ∅.
Proof.
  unfold pool_inv; simpl. split_and!.
  - lia.
  - constructor.
  - intros x Hx. by inversion Hx.
  - intros x Hx. by apply not_elem_of_empty in Hx.
  - intros x Hx. lia.
Qed.

(** The part shared by [alloc_cookie_id] and [alloc_mpls_label_id] once
    the ceiling test has passed. *)
Lemma alloc_pop_or_bump_inv (lb : Z) (live : gset Z) (st st' : id_pool) (id : Z) :
  pool_inv lb st live ->
  match py_pop (recycled st) with
  | Some (x, rest) => (Ok x, IdPool (id_counter st) rest)
  | None => (Ok (id_counter st + 1), IdPool (id_counter st + 1) (recycled st))
  end = (Ok id, st') ->
  (id ∉ live) /\ pool_inv lb st' ({[ id ]} ∪ live).
Proof.
  destruct st as [c pool]; simpl. intros (H1 & H2 & H3 & H4 & H5); simpl in *.
  destruct (py_pop pool) as [[x rest]|] eqn:Hpop.
  - apply py_pop_spec in Hpop as ->. intros [= <- <-].
    apply NoDup_app in H2 as (Hrest & Hdisj & _).
    assert (Hx : x ∈ rest ++ [x]) by (apply elem_of_app; right; left).
    split.
    + intros Hl. by destruct (H4 _ Hl) as [_ Hn].
    + unfold pool_inv; simpl. split_and!; auto.
      * intros y Hy. apply H3, elem_of_app. by left.
      * intros y [->%elem_of_singleton|Hy]%elem_of_union.
        -- split; [pose proof (H3 _ Hx); lia|].
           intros Hy. apply (Hdisj _ Hy). left.
        -- destruct (H4 _ Hy) as [Hr Hn]. split; [done|].
           intros Hy'. apply Hn, elem_of_app. by left.
      * intros y Hy. destruct (H5 _ Hy) as [[Hp|Hp%list_elem_of_singleton]%elem_of_app|Hl].
        -- by left.
        -- right. apply elem_of_union. left. by apply elem_of_singleton.
        -- right. apply elem_of_union. by right.
  - intros [= <- <-].
    assert (pool = []) as ->.
    { destruct pool as [|a l]; [done|]. simpl in Hpop.
      destruct (py_pop l) as [[? ?]|]; discriminate. }
    split.
    + intros Hl. destruct (H4 _ Hl) as [Hr _]. lia.
    + unfold pool_inv; simpl. split_and!; auto.
      * lia.
      * intros y Hy. by inversion Hy.
      * intros y [->%elem_of_singleton|Hy]%elem_of_union.
        -- split; [lia|]. intros Hy. by inversion Hy.
        -- destruct (H4 _ Hy) as [Hr Hn]. split; [lia|done].
      * intros y Hy. right. apply elem_of_union.
        destruct (decide (y = c + 1)) as [->|Hne]; [left; by apply elem_of_singleton|].
        destruct (H5 y) as [Hp|Hl]; [lia|by inversion Hp|by right].
Qed.

(** The part shared by both [free_*] functions once the argument checks
    have passed: append, then compact. *)
Lemma free_append_compact_inv (lb : Z) (live : gset Z) (st : id_pool) (id : Z) :
  pool_inv lb st live ->
  lb < id <= id_counter st -> id ∉ recycled st ->
  id ∈ live
  /\ pool_inv lb (compact (IdPool (id_counter st) (recycled st ++ [id])))
       (live ∖ {[ id ]}).
Proof.
  destruct st as [c pool]; simpl. intros (H1 & H2 & H3 & H4 & H5) Hr Hn; simpl in *.
  assert (Hlive : id ∈ live) by (destruct (H5 _ Hr); done).
  split; [done|]. apply compact_inv.
  unfold pool_inv_free; simpl. split_and!; auto.
  - apply NoDup_app. split_and!; [done| |apply NoDup_singleton].
    intros x Hx Hx'%list_elem_of_singleton. by subst.
  - intros x [Hx|Hx%list_elem_of_singleton]%elem_of_app; [|by subst].
    pose proof (H3 _ Hx). lia.
  - intros x [Hx Hne]%elem_of_difference. destruct (H4 _ Hx) as [Hrx Hnx].
    split; [done|]. intros [?|Hx'%list_elem_of_singleton]%elem_of_app; [done|].
    apply Hne. by apply elem_of_singleton.
  - intros x Hx. destruct (decide (x = id)) as [->|Hne].
    + left. apply elem_of_app. right. left.
    + destruct (H5 _ Hx) as [Hp|Hl].
      * left. apply elem_of_app. by left.
      * right. apply elem_of_difference. split; [done|].
        by intros ?%elem_of_singleton.
Qed.

Lemma free_cookie_id_Ok (id : Z) (st st' : id_pool) (r : outcome unit) :
  free_cookie_id id st = (r, st') ->
  (0 < id <= id_counter st /\ (id ∉ recycled st) /\ r = Ok tt
   /\ st' = compact (IdPool (id_counter st) (recycled st ++ [id])))
  \/ ((id <= 0 \/ id_counter st < id \/ id ∈ recycled st)
      /\ (exists msg, r = Raise (ValueError msg)) /\ st' = st).
Proof.
  unfold free_cookie_id.
  destruct (Z.leb_spec id 0); [intros [= <- <-]; right; eauto 10|].
  destruct (Z.gtb_spec id (id_counter st)); [intros [= <- <-]; right; eauto 10|].
  case_bool_decide; intros [= <- <-]; [right; eauto 10|].
  left. split_and!; auto; lia.
Qed.

Lemma free_mpls_label_id_Ok (id : Z) (st st' : id_pool) (r : outcome unit) :
  free_mpls_label_id id st = (r, st') ->
  (16 < id <= id_counter st /\ (id ∉ recycled st) /\ r = Ok tt
   /\ st' = compact (IdPool (id_counter st) (recycled st ++ [id])))
  \/ ((id <= 16 \/ id_counter st < id \/ id ∈ recycled st)
      /\ (exists msg, r = Raise (ValueError msg)) /\ st' = st).
Proof.
  unfold free_mpls_label_id.
  destruct (Z.leb_spec id 16); [intros [= <- <-]; right; eauto 10|].
  destruct (Z.gtb_spec id (id_counter st)); simpl;
    [intros [= <- <-]; right; eauto 10|].
  case_bool_decide; intros [= <- <-]; [right; eauto 10|].
  left. split_and!; auto; lia.
Qed.

Lemma cookie_allocator_sound : allocator_sound cookie_allocator 0.
Proof.
  split_and!; [done| |]; simpl.
  - intros st live id st' Hinv. unfold alloc_cookie_id.
    destruct (id_counter st =? _); [discriminate|].
    by apply alloc_pop_or_bump_inv.
  - intros st live id r st' Hinv Hfree.
    destruct (free_cookie_id_Ok _ _ _ _ Hfree)
      as [(Hr & Hn & -> & ->)|(Hbad & [msg ->] & ->)].
    + split; [done|]. intros _. by apply free_append_compact_inv.
    + split; [|discriminate]. intros Hl.
      destruct Hinv as (_ & _ & _ & H4 & _). destruct (H4 _ Hl) as [? ?].
      destruct Hbad as [?|[?|?]]; [lia|lia|done].
Qed.

Lemma mpls_allocator_sound : allocator_sound mpls_allocator 16.
Proof.
  split_and!; [done| |]; simpl.
  - intros st live id st' Hinv. unfold alloc_mpls_label_id.
    destruct (id_counter st =? _); [discriminate|].
    by apply alloc_pop_or_bump_inv.
  - intros st live id r st' Hinv Hfree.
    destruct (free_mpls_label_id_Ok _ _ _ _ Hfree)
      as [(Hr & Hn & -> & ->)|(Hbad & [msg ->] & ->)].
    + split; [done|]. intros _. by apply free_append_compact_inv.
    + split; [|discriminate]. intros Hl.
      destruct Hinv as (_ & _ & _ & H4 & _). destruct (H4 _ Hl) as [? ?].
      destruct Hbad as [?|[?|?]]; [lia|lia|done].
Qed.

Lemma run_ops_inv (a : allocator) (lb : Z) (ops : list alloc_op)
    (st st' : id_pool) (live live' : gset Z) :
  allocator_sound a lb ->
  pool_inv lb st live ->
  run_ops a ops st live = Some (st', live') ->
  pool_inv lb st' live'.
Proof.
  intros (_ & Halloc & Hfree). revert st live.
  induction ops as [|[|id] ops IH]; intros st live Hinv; simpl.
  - by intros [= <- <-].
  - destruct (alloc_id a st) as [[id|e] st1] eqn:E; [|discriminate].
    destruct (Halloc _ _ _ _ Hinv E) as [_ Hinv1]. by apply IH.
  - case_bool_decide as Hl; [|discriminate].
    destruct (free_id a id st) as [[[]|e] st1] eqn:E; [|discriminate].
    destruct (Hfree _ _ _ _ _ Hinv E) as [_ H]. destruct (H eq_refl) as [_ Hinv1].
    by apply IH.
Qed.

(** With no id left in the hands of a caller the invariant pins the
    state down: the counter is back at the lower bound and nothing is
    left to recycle. *)
Lemma pool_inv_no_live (lb : Z) (st : id_pool) :
  pool_inv lb st ∅ -> st = IdPool lb [].
Proof.
  destruct st as [c pool]. intros (H1 & H2 & H3 & H4 & H5); simpl in *.
  assert (c = lb) as ->.
  { destruct (decide (c = lb)) as [|Hne]; [done|].
    destruct (H5 c) as [Hp|Hl]; [lia| |by apply not_elem_of_empty in Hl].
    pose proof (H3 _ Hp). lia. }
  f_equal. destruct pool as [|x pool]; [done|].
  assert (Hx : x ∈ x :: pool) by left. pose proof (H3 _ Hx). lia.
Qed.

Lemma run_ops_all_freed (a : allocator) (lb : Z) (ops : list alloc_op) (st : id_pool) :
  allocator_sound a lb ->
  run_ops a ops (pool_init a) ∅ = Some (st, ∅) ->
  st = pool_init a.
Proof.
  intros Hs Hrun. pose proof Hs as (Hinit & _). rewrite Hinit in *.
  apply pool_inv_no_live. eapply run_ops_inv; [done| |done].
  apply pool_inv_init.
Qed.

(** A free of an id that a caller holds never raises, so [run_ops]
    rejects a history only for an exhausted allocator or for a free of an
    id nobody holds. *)
Lemma run_ops_free_live_succeeds (a : allocator) (lb : Z) (ops : list alloc_op)
    (st : id_pool) (live : gset Z) (id : Z) :
  allocator_sound a lb ->
  run_ops a ops (pool_init a) ∅ = Some (st, live) ->
  id ∈ live ->
  exists st', free_id a id st = (Ok tt, st').
Proof.
  intros Hs Hrun Hl. pose proof Hs as (Hinit & _ & Hfree).
  assert (Hinv : pool_inv lb st live).
  { eapply run_ops_inv; [done| |done]. rewrite Hinit. apply pool_inv_init. }
  destruct (free_id a id st) as [r st'] eqn:E.
  destruct (Hfree _ _ _ _ _ Hinv E) as [H _]. rewrite (H Hl). eauto.
Qed.

(** C6: in every history of alloc/free calls on the cookie allocator
    (resp. the MPLS label allocator) in which each free releases an id
    that is held and no id is held at the end, the final state has the
    counter at its initial value (0, resp. 16) and an empty recycle
    list. *)
Theorem free_all_restores_initial_state :
  (forall (ops : list alloc_op) (st : id_pool),
      run_ops cookie_allocator ops cookie_pool_init ∅ = Some (st, ∅) ->
      id_counter st = 0 /\ recycled st = [])
  /\ (forall (ops : list alloc_op) (st : id_pool),
      run_ops mpls_allocator ops mpls_pool_init ∅ = Some (st, ∅) ->
      id_counter st = 16 /\ recycled st = []).
Proof.
  split; intros ops st Hrun.
  - by rewrite (run_ops_all_freed _ _ _ _ cookie_allocator_sound Hrun).
  - by rewrite (run_ops_all_freed _ _ _ _ mpls_allocator_sound Hrun).
Qed.

Lemma free_all_restores_initial_state_witness :
  (let ops := [OpAlloc; OpAlloc; OpAlloc; OpFree 2; OpAlloc; OpFree 3; OpFree 2; OpFree 1] in
   exists st, run_ops cookie_allocator ops cookie_pool_init ∅ = Some (st, ∅)
              /\ id_counter st = 0 /\ recycled st = [])
  /\ (let ops := [OpAlloc; OpAlloc; OpFree 17; OpAlloc; OpFree 18; OpFree 17] in
      exists st, run_ops mpls_allocator ops mpls_pool_init ∅ = Some (st, ∅)
                 /\ id_counter st = 16 /\ recycled st = []).
Proof.
  split; simpl.
  - eexists. split; [vm_compute; reflexivity|].
    apply (proj1 free_all_restores_initial_state
             [OpAlloc; OpAlloc; OpAlloc; OpFree 2; OpAlloc; OpFree 3; OpFree 2; OpFree 1]).
    vm_compute. reflexivity.
  - eexists. split; [vm_compute; reflexivity|].
    apply (proj2 free_all_restores_initial_state
             [OpAlloc; OpAlloc; OpFree 17; OpAlloc; OpFree 18; OpFree 17]).
    vm_compute. reflexivity.
Defined.

(** C7: in every allocator state, [free_cookie_id] (resp.
    [free_mpls_label_id]) raises [ValueError] -- the spec's
    InvalidArgument -- on an id that is already in the recycle list and on
    an id outside (lower bound, counter], and leaves counter and recycle
    list as they were. *)
Theorem free_rejects_double_free_and_unallocated :
  (forall (st : id_pool) (id : Z),
      id ∈ recycled st \/ id <= 0 \/ id_counter st < id ->
      exists msg, free_cookie_id id st = (Raise (ValueError msg), st))
  /\ (forall (st : id_pool) (id : Z),
      id ∈ recycled st \/ id <= 16 \/ id_counter st < id ->
      exists msg, free_mpls_label_id id st = (Raise (ValueError msg), st)).
Proof.
  split; intros st id Hbad.
  - destruct (free_cookie_id id st) as [r st'] eqn:E.
    destruct (free_cookie_id_Ok _ _ _ _ E)
      as [(Hr & Hn & _)|(_ & [msg ->] & ->)]; [|eauto].
    destruct Hbad as [?|[?|?]]; [done|lia|lia].
  - destruct (free_mpls_label_id id st) as [r st'] eqn:E.
    destruct (free_mpls_label_id_Ok _ _ _ _ E)
      as [(Hr & Hn & _)|(_ & [msg ->] & ->)]; [|eauto].
    destruct Hbad as [?|[?|?]]; [done|lia|lia].
Qed.

Lemma free_rejects_double_free_and_unallocated_witness :
  (exists msg, free_cookie_id 2 (IdPool 3 [2]) = (Raise (ValueError msg), IdPool 3 [2]))
  /\ (exists msg, free_cookie_id 7 (IdPool 3 [2]) = (Raise (ValueError msg), IdPool 3 [2]))
  /\ (exists msg, free_mpls_label_id 18 (IdPool 20 [18])
                  = (Raise (ValueError msg), IdPool 20 [18]))
  /\ (exists msg, free_mpls_label_id 16 (IdPool 20 [18])
                  = (Raise (ValueError msg), IdPool 20 [18])).
Proof.
  split_and!.
  - apply (proj1 free_rejects_double_free_and_unallocated (IdPool 3 [2]) 2).
    left. simpl. left.
  - apply (proj1 free_rejects_double_free_and_unallocated (IdPool 3 [2]) 7).
    right. right. simpl. lia.
  - apply (proj2 free_rejects_double_free_and_unallocated (IdPool 20 [18]) 18).
    left. simpl. left.
  - apply (proj2 free_rejects_double_free_and_unallocated (IdPool 20 [18]) 16).
    right. left. lia.
Defined.

Lemma reachable_inv (a : allocator) (lb : Z) (st : id_pool) :
  allocator_sound a lb -> reachable a st -> exists live, pool_inv lb st live.
Proof.
  intros Hs. pose proof Hs as (Hinit & Halloc & Hfree).
  induction 1 as [|st id st' _ [live Hinv] E|st id st' _ [live Hinv] E].
  - exists ∅. rewrite Hinit. apply pool_inv_init.
  - destruct (Halloc _ _ _ _ Hinv E) as [_ ?]. eauto.
  - destruct (Hfree _ _ _ _ _ Hinv E) as [_ H]. destruct (H eq_refl) as [_ ?]. eauto.
Qed.

Lemma compact_loop_counter_le (fuel : nat) (st : id_pool) :
  id_counter (compact_loop fuel st) <= id_counter st.
Proof.
  revert st. induction fuel as [|fuel IH]; intros st; simpl; [lia|].
  destruct (py_max (recycled st)) as [m|]; [|lia].
  destruct (id_counter st =? m); [|lia].
  etrans; [apply IH|]. simpl. lia.
Qed.

Lemma mpls_reachable_counter_le (st : id_pool) :
  reachable mpls_allocator st -> id_counter st <= 0x100000.
Proof.
  induction 1 as [|st id st' _ IH E|st id st' _ IH E]; simpl in *.
  - lia.
  - unfold alloc_mpls_label_id in E.
    destruct (Z.eqb_spec (id_counter st) 0x100000); [discriminate|].
    destruct (py_pop (recycled st)) as [[? ?]|]; injection E as _ <-; simpl; lia.
  - destruct (free_mpls_label_id_Ok _ _ _ _ E) as [(_ & _ & _ & ->)|(_ & _ & ->)]; [|done].
    etrans; [apply compact_loop_counter_le|]. done.
Qed.

(** What the code does guarantee: a label handed out in a reachable state
    lies in [17, 2^20], the upper end included. *)
Lemma alloc_mpls_label_id_range (st st' : id_pool) (label_id : Z) :
  reachable mpls_allocator st ->
  alloc_mpls_label_id st = (Ok label_id, st') ->
  17 <= label_id <= 0x100000.
Proof.
  intros Hreach E. pose proof (mpls_reachable_counter_le _ Hreach) as Hle.
  destruct (reachable_inv _ _ _ mpls_allocator_sound Hreach)
    as [live (H1 & H2 & H3 & H4 & H5)].
  unfold alloc_mpls_label_id in E.
  destruct (Z.eqb_spec (id_counter st) 0x100000); [discriminate|].
  destruct (py_pop (recycled st)) as [[x rest]|] eqn:Hpop; injection E as <- <-.
  - apply py_pop_spec in Hpop.
    assert (Hx : x ∈ recycled st) by (rewrite Hpop; apply elem_of_app; right; left).
    pose proof (H3 _ Hx). lia.
  - lia.
Qed.

(** Allocating with nothing recycled walks the counter up one by one. *)
Lemma mpls_reachable_fresh (k : Z) :
  0 <= k -> 16 + k <= 0x100000 -> reachable mpls_allocator (IdPool (16 + k) []).
Proof.
  intros Hk. revert k Hk. apply (natlike_ind (fun k => 16 + k <= 0x100000 ->
    reachable mpls_allocator (IdPool (16 + k) []))).
  - intros _. apply (reach_init mpls_allocator).
  - intros k Hk IH Hle.
    replace (16 + Z.succ k) with (16 + k + 1) by lia.
    apply (reach_alloc mpls_allocator (IdPool (16 + k) []) (16 + k + 1)).
    + apply IH. lia.
    + simpl. unfold alloc_mpls_label_id; simpl.
      destruct (Z.eqb_spec (16 + k) 0x100000) as [|_]; [lia|done].
Qed.

(** C4 (code bug): after 2^20 - 17 allocations with no free in between
    the counter stands at 2^20 - 1 with nothing to recycle; the ceiling
    test compares with 0x100000, so the next call hands out the label
    2^20 = 1048576, which is outside [17, 2^20 - 1]. *)
Theorem alloc_mpls_label_id_hands_out_2_pow_20 :
  reachable mpls_allocator (IdPool (2 ^ 20 - 1) [])
  /\ alloc_mpls_label_id (IdPool (2 ^ 20 - 1) []) = (Ok (2 ^ 20), IdPool (2 ^ 20) [])
  /\ ~ (17 <= 2 ^ 20 <= 2 ^ 20 - 1).
Proof.
  split_and!.
  - apply (mpls_reachable_fresh (2 ^ 20 - 1 - 16)); lia.
  - reflexivity.
  - lia.
Qed.

(** ** Q-table and KSPL facts *)

Lemma get_q_value_cell (k : table_key) (h : host_address) (t : q_table) :
  q_cell k h (get_q_value k h t).2 = Some (get_q_value k h t).1.
Proof.
  unfold get_q_value, q_cell; simpl.
  destruct (t !! k) as [row|] eqn:Ek.
  - destruct (row !! h) as [v|] eqn:Eh; simpl.
    + by rewrite Ek; simpl; rewrite Eh.
    + by rewrite lookup_insert_eq; simpl; rewrite lookup_insert_eq.
  - by rewrite lookup_insert_eq; simpl; rewrite lookup_singleton_eq.
Qed.

(** Reading a cell that holds a value returns it and changes nothing. *)
Lemma get_q_value_present (k : table_key) (h : host_address) (t : q_table) (v : Q) :
  q_cell k h t = Some v -> get_q_value k h t = (v, t).
Proof.
  unfold get_q_value, q_cell.
  destruct (t !! k) as [row|] eqn:Ek; simpl; [|discriminate].
  intros Eh. rewrite Eh, Ek. simpl. by rewrite Eh.
Qed.

(** Where the cell is still absent, [set_q_value] does store. *)
Lemma set_q_value_absent (k : table_key) (h : host_address) (v : Q) (t : q_table) :
  q_cell k h t = None ->
  get_q_value k h (set_q_value k h v t) = (v, set_q_value k h v t).
Proof.
  intros Habs. apply get_q_value_present.
  unfold set_q_value, q_cell in *.
  destruct (t !! k) as [row|] eqn:Ek; simpl in *.
  - rewrite Habs. by rewrite lookup_insert_eq; simpl; rewrite lookup_insert_eq.
  - by rewrite lookup_insert_eq; simpl; rewrite lookup_singleton_eq.
Qed.

(** Where the cell is present, [set_q_value] leaves the table as it is. *)
Lemma set_q_value_present (k : table_key) (h : host_address) (v old : Q) (t : q_table) :
  q_cell k h t = Some old -> set_q_value k h v t = t.
Proof.
  unfold set_q_value, q_cell.
  destruct (t !! k) as [row|] eqn:Ek; simpl; [|discriminate].
  by intros ->.
Qed.

(** Once [get_q_value] has looked at a cell, a [set_q_value] on the same
    cell is without effect: this is the order in which the engine calls
    them. *)
Lemma set_q_value_after_get (k : table_key) (h : host_address) (v : Q) (t : q_table) :
  set_q_value k h v (get_q_value k h t).2 = (get_q_value k h t).2.
Proof. eapply set_q_value_present, get_q_value_cell. Qed.

(** C1 (code bug): with [QValues = {s: {h: 0}}] the call
    [set_q_value(s, h, 5)] leaves the table as it is, and the
    [get_q_value(s, h)] that follows returns 0, not 5. *)
Theorem set_q_value_keeps_present_cell :
  let QValues : q_table := {[ SectorKey 7 := {[ AddrObject 167772161 := 0%Q ]} ]} in
  set_q_value (SectorKey 7) (AddrObject 167772161) 5%Q QValues = QValues
  /\ (get_q_value (SectorKey 7) (AddrObject 167772161)
        (set_q_value (SectorKey 7) (AddrObject 167772161) 5%Q QValues)).1 = 0%Q
  /\ 0%Q <> 5%Q.
Proof.
  split_and!.
  - by apply (set_q_value_present _ _ _ 0%Q).
  - reflexivity.
  - discriminate.
Qed.

(** ** The monad *)

Lemma bind_eq {S A B : Type} (m : M S A) (k : A -> M S B) (s s' : S) (r : outcome B) :
  bind m k s = (r, s') ->
  (exists a s1, m s = (Ok a, s1) /\ k a s1 = (r, s'))
  \/ (exists e, m s = (Raise e, s') /\ r = Raise e).
Proof.
  unfold bind. destruct (m s) as [[a|e] s1]; [left|right]; [eauto|].
  exists e. by simplify_eq.
Qed.

Lemma try_except_eq {S A : Type} (m : M S A) (h : exn -> M S A) (s s' : S) (r : outcome A) :
  try_except m h s = (r, s') ->
  (exists a, m s = (Ok a, s') /\ r = Ok a)
  \/ (exists e s1, m s = (Raise e, s1) /\ h e s1 = (r, s')).
Proof.
  unfold try_except. destruct (m s) as [[a|e] s1]; [left|right]; [|eauto].
  exists a. by simplify_eq.
Qed.

(** ** Early replies of [__activate_scenario] *)

Section EarlyReplies.
Context {X : Type} (env : Env X).



(** Whatever else holds of the request, a search that names this
    controller as its source leaves the state as it is: the only steps
    before the loop check are the two argument assertions and the registry
    lookup. *)
Lemma activate_scenario_own_search_state
    (req : scenario_request) (st : controller_state X) :
  gpsid_source_controller (req_global_path_search_id req) = this_controller_id env ->
  (__activate_scenario env req st).2 = st.
Proof.
  intros Hsrc. apply Z.eqb_eq in Hsrc.
  unfold __activate_scenario, activate_scenario_reply, bind, py_assert, query_world, raise,
    ret.
  destruct (assertions_enabled env && negb (0 <=? req_mpls_label req)); [done|].
  destruct (assertions_enabled env && negb (0 <=? req_hash_val req)); [done|].
  destruct (central_query_address_info env (world st) _); [|done].
  by rewrite Hsrc.
Qed.

End EarlyReplies.





(** ** Request dispatch *)

Section Dispatch.
Context {X : Type} (env : Env X).

Lemma requests_unknown (func_name : string) :
  func_name ∉ request_names -> _requests env func_name = None.
Proof.
  intros Hn. unfold _requests, request_names in *.
  repeat match goal with
  | |- context [String.eqb func_name ?s] =>
      destruct (String.eqb_spec func_name s) as [->|_];
        [exfalso; apply Hn; repeat first [left; reflexivity | right]|]
  end.
  done.
Qed.

Lemma requests_known (func_name : string) :
  func_name ∈ request_names -> is_Some (_requests env func_name).
Proof.
  unfold request_names. rewrite !elem_of_cons, elem_of_nil.
  intros [->|[->|[->|[->|[->|[]]]]]]; unfold _requests; simpl; eauto.
Qed.

(** What a request with an unknown method name is answered, in each
    configuration of the interpreter: status 1 and no change of state; the
    body is "Internal Error. Cannot process request." in a default run, the
    "Unknown Request: " text of the failed assertion when Python runs with
    [-d], and "Unknown Request: '<repr of the name>'" when assertions are
    off and line 247 raises [KeyError]. *)
Lemma client_handler_unknown_method (request : rpc_request) (st : controller_state X) :
  rq_func_name request ∉ request_names ->
  client_handler env request st
  = (Ok (1, AnswerError
           (if assertions_enabled env
            then if flags_debug env
                 then "Unknown Request: "
                      +:+ str_of_exn env (AssertionError "function name is not registered ")
                 else "Internal Error. Cannot process request."
            else "Unknown Request: '"
                 +:+ repr_of_name env (Some (rq_func_name request)) +:+ "'")),
     st).
Proof.
  intros Hn. unfold client_handler, py_assert.
  rewrite bool_decide_eq_false_2 by done. simpl. rewrite andb_true_r.
  destruct (assertions_enabled env); simpl.
  - unfold raise, request_handlers. by destruct (flags_debug env).
  - unfold ret, try_except. by rewrite (requests_unknown _ Hn).
Qed.

End Dispatch.

(** C5 (code bug): in a default run (assertions on, no [-d]) the
    well-formed request ("ping", (), {}), whose method name is not in the
    dispatch table, is answered with
    (1, "Internal Error. Cannot process request."): the assertion of line
    235 raises before line 247 can raise the [KeyError] that the "Unknown
    Request" clause waits for. The body does not begin with "Unknown
    Request". *)
Theorem client_handler_unknown_method_default_run :
  ("ping" ∉ request_names)
  /\ client_handler (demo_env 3 true demo_refusal) (RpcRequest "ping" PayloadOther) demo_state
     = (Ok (1, AnswerError "Internal Error. Cannot process request."), demo_state)
  /\ String.prefix "Unknown Request" "Internal Error. Cannot process request." = false.
Proof.
  assert (Hn : "ping" ∉ request_names).
  { unfold request_names. rewrite !elem_of_cons, elem_of_nil.
    intros [?|[?|[?|[?|[?|[]]]]]]; discriminate. }
  split_and!; [done| |reflexivity].
  exact (client_handler_unknown_method (demo_env 3 true demo_refusal)
           (RpcRequest "ping" PayloadOther) demo_state Hn).
Qed.

(** ** Termination *)

Section Termination.
Context {X : Type} (env : Env X).

Lemma kill_mapped_services_holds (ids : list Z) (t : services_table) (h : Z) :
  holds_service (kill_mapped_services ids t) h <-> holds_service t h /\ h ∉ ids.
Proof.
  unfold holds_service, kill_mapped_services. split.
  - intros (ns & ty & pair & layer & entries & H1 & H2 & H3).
    rewrite lookup_fmap in H1. destruct (t !! ns) as [layer0|] eqn:E1; [|done].
    simpl in H1. injection H1 as <-.
    rewrite lookup_fmap in H2. destruct (layer0 !! ty) as [entries0|] eqn:E2; [|done].
    simpl in H2. injection H2 as <-.
    apply map_lookup_filter_Some in H3 as [H3 Hn]. split; [|done].
    by exists ns, ty, pair, layer0, entries0.
  - intros [(ns & ty & pair & layer & entries & H1 & H2 & H3) Hn].
    eexists ns, ty, pair, _, _. split_and!.
    + by rewrite lookup_fmap, H1.
    + by rewrite lookup_fmap, H2.
    + by apply map_lookup_filter_Some.
Qed.

Lemma notify_sectors_spec (g : gpsid) (sectors : list Z)
    (st st' : controller_state X) (r : outcome unit) :
  notify_sectors env g sectors st = (r, st') ->
  exists w evs,
    st' = set_rpc_log (set_world st w) (rpc_log st ++ evs)
    /\ ((r = Ok tt /\ Forall2 answered_by sectors evs)
        \/ (exists ex, r = Raise ex /\ stopped_at env g sectors evs ex)).
Proof.
  revert st. induction sectors as [|s rest IH]; intros st; simpl.
  - intros [= <- <-]. exists (world st), []. destruct st; simpl.
    rewrite app_nil_r. split; [done|]. left. split; [done|constructor].
  - intros H.
    apply bind_eq in H as [(? & s1 & H1 & H)|(ex & H1 & ->)]; cycle 1.
    { unfold lift_world in H1.
      destruct (get_controller_proxy env s (world st)) as [r1 w1] eqn:E1.
      injection H1 as -> <-. exists w1, []. destruct st; simpl.
      rewrite app_nil_r. split; [done|]. right. exists ex. split; [done|].
      exists [], s, rest, []. split_and!; [done|constructor|].
      left. split; [done|]. left. eexists. by rewrite E1. }
    unfold lift_world in H1. destruct (get_controller_proxy env s (world st)) as [r1 w1].
    injection H1 as -> <-.
    apply bind_eq in H as [(? & s2 & H2 & H)|(ex & H2 & ->)]; cycle 1.
    { unfold query_world in H2. injection H2 as H2 <-. exists w1, [].
      destruct st; simpl in *. rewrite app_nil_r. split; [done|]. right.
      exists ex. split; [done|].
      exists [], s, rest, []. split_and!; [done|constructor|].
      left. split; [done|]. right. by exists w1. }
    unfold query_world in H2. injection H2 as _ <-.
    apply bind_eq in H as [(? & s3 & H3 & H)|(ex & H3 & ->)]; simpl in H3;
      destruct (proxy_terminate_scenario env s g (this_controller_id env) w1)
        as [res w2] eqn:E3; injection H3 as -> <-.
    + apply IH in H as (w & evs & -> & Hr). exists w, (RpcTerminate s (Ok x1) :: evs).
      destruct st; simpl. rewrite <- app_assoc. split; [done|].
      destruct Hr as [[-> Hall]|(ex & -> & Hstop)]; [left|right].
      * split; [done|]. constructor; [by eexists|done].
      * exists ex. split; [done|].
        destruct Hstop as (called & s' & skipped & oks & -> & Hoks & Hev).
        exists (s :: called), s', skipped, (RpcTerminate s (Ok x1) :: oks).
        split_and!; [done|constructor; [by eexists|done]|].
        destruct Hev as [[-> Hw]|[-> Hw]]; [by left|by right].
    + exists w2, [RpcTerminate s (Raise ex)]. destruct st; simpl.
      split; [done|]. right. exists ex. split; [done|].
      exists [], s, rest, []. split_and!; [done|constructor|].
      right. split; [done|]. exists w1. by rewrite E3.
Qed.

Lemma sectors_to_notify_perm (adj : list Z) (requesting_sector_id : Z) :
  sectors_to_notify env adj requesting_sector_id
  ≡ₚ filter (fun s => s <> requesting_sector_id) (remove_dups adj).
Proof. apply merge_sort_Permutation. Qed.

Lemma notify_sectors_returns (g : gpsid) (sectors : list Z) (st : controller_state X) :
  peers_answer env g sectors ->
  exists st', notify_sectors env g sectors st = (Ok tt, st').
Proof.
  revert st. induction sectors as [|s rest IH]; intros st Hans; simpl; [by eexists|].
  destruct (Hans s (world st)) as ([w1 H1] & H2 & _); [left|].
  destruct (Hans s w1) as (_ & H2' & (res & w2 & H3)); [left|].
  unfold bind at 1. unfold lift_world at 1. rewrite H1.
  unfold bind at 1. unfold query_world at 1. simpl. rewrite H2'.
  unfold bind at 1. simpl. rewrite H3.
  apply IH. intros s' w Hs'. apply Hans. by right.
Qed.


End Termination.



(** ** Framing: what the steps of the engine leave alone *)

Section Framing.
Context {X : Type} (env : Env X).

Local Abbreviation state := (controller_state X).

Lemma kspl_log_frame_refl (st : state) : kspl_log_frame st st.
Proof. by split. Qed.

Lemma kspl_log_frame_trans (st1 st2 st3 : state) :
  kspl_log_frame st1 st2 -> kspl_log_frame st2 st3 -> kspl_log_frame st1 st3.
Proof. intros [H1 H2] [H3 H4]. split; congruence. Qed.

Lemma frames_ret {A : Type} (a : A) : frames (ret a : M state A).
Proof. intros st r st' [= <- <-]. apply kspl_log_frame_refl. Qed.

Lemma frames_raise {A : Type} (e : exn) : frames (raise e : M state A).
Proof. intros st r st' [= <- <-]. apply kspl_log_frame_refl. Qed.

Lemma frames_bind {A B : Type} (m : M state A) (k : A -> M state B) :
  frames m -> (forall a, frames (k a)) -> frames (bind m k).
Proof.
  intros Hm Hk st r st' [(a & s1 & H1 & H2)|(e & H1 & _)]%bind_eq.
  - eapply kspl_log_frame_trans; [by eapply Hm|by eapply Hk].
  - by eapply Hm.
Qed.

Lemma frames_try_except {A : Type} (m : M state A) (h : exn -> M state A) :
  frames m -> (forall e, frames (h e)) -> frames (try_except m h).
Proof.
  intros Hm Hh st r st' [(a & H1 & _)|(e & s1 & H1 & H2)]%try_except_eq.
  - by eapply Hm.
  - eapply kspl_log_frame_trans; [by eapply Hm|by eapply Hh].
Qed.

Lemma frames_globals_get_q_value (key : table_key) (host : host_address) :
  frames (globals_get_q_value key host : M state Q).
Proof.
  intros st r st'. unfold globals_get_q_value.
  destruct (get_q_value key host (QValues st)). by intros [= <- <-].
Qed.

Lemma frames_globals_set_q_value (key : table_key) (host : host_address) (v : Q) :
  frames (globals_set_q_value key host v : M state unit).
Proof. intros st r st'. by intros [= <- <-]. Qed.

Lemma frames_globals_alloc_mpls_label_id :
  frames (globals_alloc_mpls_label_id : M state Z).
Proof.
  intros st r st'. unfold globals_alloc_mpls_label_id.
  destruct (alloc_mpls_label_id (mpls_labels st)). by intros [= <- <-].
Qed.

Lemma frames_globals_get_hash_val (switch_id port_id : Z) :
  frames (globals_get_hash_val switch_id port_id : M state Z).
Proof. intros st r st'. by intros [= <- <-]. Qed.

Lemma frames_lift_world {A : Type} (f : X -> outcome A * X) : frames (lift_world f).
Proof.
  intros st r st'. unfold lift_world. destruct (f (world st)). by intros [= <- <-].
Qed.

Lemma frames_query_world {A : Type} (f : X -> outcome A) : frames (query_world f).
Proof. intros st r st'. by intros [= <- <-]. Qed.

Lemma frames_lift_footprint {A : Type}
    (f : service_footprint X -> outcome A * service_footprint X) :
  frames (lift_footprint f).
Proof.
  intros st r st'. unfold lift_footprint. destruct (f _). by intros [= <- <-].
Qed.

Lemma frames_set_active_scenario (g : gpsid) (record : list Z * list Z) :
  frames (set_active_scenario g record : M state unit).
Proof.
  intros st r st'. unfold set_active_scenario.
  destruct (active_scenarios st !! g); by intros [= <- <-].
Qed.

Lemma frames_register_implementation_task (g : gpsid) (l3 l4 : string) :
  frames (register_implementation_task g l3 l4 : M state unit).
Proof.
  intros st r st'. unfold register_implementation_task.
  destruct (implementation_tasks st !! l3) as [layer|]; [|by intros [= <- <-]].
  destruct (layer !! l4) as [tasks|]; [|by intros [= <- <-]].
  case_bool_decide; by intros [= <- <-].
Qed.

Lemma release_implementation_task_frame (g : gpsid) (l3 l4 : string) (st : state) :
  kspl_log_frame st (release_implementation_task g l3 l4 st).
Proof.
  unfold release_implementation_task.
  destruct (implementation_tasks st !! l3) as [layer|]; [|done].
  destruct (layer !! l4) as [tasks|]; done.
Qed.

Lemma frames_py_assert (cond : bool) (msg : string) : frames (py_assert env cond msg).
Proof.
  unfold py_assert. destruct (_ && _); [apply frames_raise|apply frames_ret].
Qed.

Lemma frames_remove_selected {A : Type} `{EqDecision A} (x : A) (xs : list A) :
  frames (remove_selected x xs : M state (list A)).
Proof.
  unfold remove_selected. destruct (py_list_remove x xs);
    [apply frames_ret|apply frames_raise].
Qed.

Lemma frames_never_used {A : Type} (key : A -> table_key) (target : host_address)
    (xs : list A) :
  frames (never_used key target xs : M state (list A)).
Proof.
  induction xs as [|x xs IH]; simpl; [apply frames_ret|].
  apply frames_bind; [apply frames_globals_get_q_value|intros v].
  apply frames_bind; [done|intros rest]. apply frames_ret.
Qed.

Lemma frames_max_by_q_value {A : Type} (key : A -> table_key) (target : host_address)
    (best : A) (best_value : Q) (xs : list A) :
  frames (max_by_q_value key target best best_value xs : M state A).
Proof.
  revert best best_value. induction xs as [|x xs IH]; intros best best_value; simpl;
    [apply frames_ret|].
  apply frames_bind; [apply frames_globals_get_q_value|intros v].
  destruct (Qle_bool v best_value); apply IH.
Qed.

Lemma frames_select_by_q_value {A : Type} (key : A -> table_key) (target : host_address)
    (xs : list A) :
  frames (select_by_q_value key target xs : M state A).
Proof.
  unfold select_by_q_value.
  apply frames_bind; [apply frames_never_used|intros unused].
  destruct unused; [|apply frames_ret].
  destruct xs; [apply frames_raise|].
  apply frames_bind; [apply frames_globals_get_q_value|intros v].
  apply frames_max_by_q_value.
Qed.

Lemma frames_both_sectors (p : path) : frames (both_sectors env p).
Proof.
  unfold both_sectors.
  apply frames_bind; [apply frames_query_world|intros a].
  apply frames_bind; [apply frames_query_world|intros b]. apply frames_ret.
Qed.

Lemma frames_on_peer_failure (key : table_key) (q_target : host_address)
    (result : activation_result) :
  frames (on_peer_failure key q_target result : M state unit).
Proof.
  unfold on_peer_failure.
  apply frames_bind; [apply frames_globals_get_q_value|intros v].
  apply frames_bind; [apply frames_globals_set_q_value|intros _].
  destruct (ar_reason result); [apply frames_ret|apply frames_raise].
Qed.

Lemma frames_other_adjacent_sectors (req : scenario_request) :
  frames (other_adjacent_sectors env req).
Proof.
  unfold other_adjacent_sectors.
  apply frames_bind; [apply frames_query_world|intros l].
  destruct (py_list_remove _ l); [apply frames_ret|apply frames_raise].
Qed.

Lemma frames_gather_links (sectors : list Z) : frames (gather_links env sectors).
Proof.
  induction sectors as [|s r IH]; simpl; [apply frames_ret|].
  apply frames_bind; [apply frames_query_world|intros edges].
  apply frames_bind; [done|intros rest]. apply frames_ret.
Qed.

End Framing.

(** ** The KSPL refresh on a successful peer activation *)

Lemma set_known_shortest_path_cell (k : table_key) (h : host_address) (n : Z)
    (t : kspl_table) :
  kspl_cell k h (set_known_shortest_path k h n t) = Some (Some n).
Proof.
  unfold set_known_shortest_path, kspl_cell.
  destruct (t !! k) as [row|]; rewrite lookup_insert_eq; simpl.
  - by rewrite lookup_insert_eq.
  - by rewrite lookup_singleton_eq.
Qed.

Lemma get_known_shortest_path_present (k : table_key) (h : host_address)
    (v : option Z) (t : kspl_table) :
  kspl_cell k h t = Some v -> get_known_shortest_path k h t = (v, t).
Proof.
  unfold get_known_shortest_path, kspl_cell.
  destruct (t !! k) as [row|] eqn:Ek; simpl; [|discriminate].
  intros Eh. rewrite Ek. simpl. rewrite Eh. rewrite Ek. simpl. by rewrite Eh.
Qed.

Section KsplRefresh.
Context {X : Type} (env : Env X) (target_ipv4 : Z).

Local Abbreviation state := (controller_state X).

Lemma frame_closed_no_success : frame_closed (no_success (X := X)).
Proof. intros st st' [_ Hl] H key peer res. rewrite Hl. apply H. Qed.

Lemma frame_closed_kspl_ok : frame_closed (kspl_ok (X := X) target_ipv4).
Proof. intros st st' [Hk Hl] H key peer res p. rewrite Hl, Hk. apply H. Qed.

Lemma frame_closed_pending (key : table_key) (peer : Z) (res : activation_result) :
  frame_closed (pending (X := X) key peer res).
Proof. intros st st' [_ Hl] (before & H1 & H2). exists before. by rewrite Hl. Qed.

Lemma no_success_kspl_ok (st : state) : no_success st -> kspl_ok target_ipv4 st.
Proof. intros H key peer res p Hin Hs. rewrite (H _ _ _ Hin) in Hs. discriminate. Qed.

Lemma pending_no_success (key : table_key) (peer : Z) (res : activation_result)
    (st : state) :
  ar_success res = false -> pending key peer res st -> no_success st.
Proof.
  intros Hf (before & Hl & Hb) key' peer' res'. rewrite Hl.
  intros [Hin|Hin%list_elem_of_singleton]%elem_of_app; [by eapply Hb|].
  by injection Hin as -> -> ->.
Qed.

Lemma safe_frames {A : Type} (P : state -> Prop) (m : M state A) :
  frame_closed P -> (forall st, P st -> kspl_ok target_ipv4 st) ->
  frames m -> safe target_ipv4 P m.
Proof. intros Hc Hok Hm st r st' HP Hrun. eapply Hok, Hc; [by eapply Hm|done]. Qed.

Lemma safe_bind_frames {A B : Type} (P : state -> Prop) (m : M state A)
    (k : A -> M state B) :
  frame_closed P -> (forall st, P st -> kspl_ok target_ipv4 st) ->
  frames m -> (forall a, safe target_ipv4 P (k a)) -> safe target_ipv4 P (bind m k).
Proof.
  intros Hc Hok Hm Hk st r st' HP [(a & s1 & H1 & H2)|(e & H1 & _)]%bind_eq.
  - eapply Hk; [|done]. eapply Hc; [by eapply Hm|done].
  - eapply Hok, Hc; [by eapply Hm|done].
Qed.

Lemma safe_try_except_frames {A : Type} (P : state -> Prop) (m : M state A)
    (h : exn -> M state A) :
  safe target_ipv4 P m -> (forall e, frames (h e)) -> safe target_ipv4 P (try_except m h).
Proof.
  intros Hm Hh st r st' HP [(a & H1 & _)|(e & s1 & H1 & H2)]%try_except_eq.
  - by eapply Hm.
  - eapply frame_closed_kspl_ok; [by eapply Hh|]. by eapply Hm.
Qed.

(** The peer RPC of an attempt adds exactly one record, and only when the
    proxy call was reached. *)
Lemma request_activation_log (b : bool) (key : table_key) (peer : Z) (g : gpsid)
    (label sw port : Z) (st st' : state) (r : outcome activation_result) :
  request_activation env b key peer g label sw port st = (r, st') ->
  kspl st' = kspl st
  /\ ((exists res, r = Ok res /\ rpc_log st' = rpc_log st ++ [RpcActivate key peer res])
      \/ ((exists e, r = Raise e) /\ rpc_log st' = rpc_log st)).
Proof.
  unfold request_activation. intros H.
  apply bind_eq in H as [([] & s1 & H1 & H)|(e & H1 & ->)]; cycle 1.
  { assert (Hf : kspl_log_frame st st').
    { revert H1. destruct b; [apply frames_ret|apply frames_lift_world]. }
    destruct Hf. split; [done|]. right. eauto. }
  assert (Hf1 : kspl_log_frame st s1).
  { revert H1. destruct b; [apply frames_ret|apply frames_lift_world]. }
  apply bind_eq in H as [(res & s2 & H2 & H)|(e & H2 & ->)]; cycle 1.
  { apply try_except_eq in H2 as [(a & _ & [=])|(e' & s' & _ & [=])]. }
  assert (Hf2 : kspl_log_frame s1 s2).
  { revert H2. apply frames_try_except; [|intros e; apply frames_ret].
    apply frames_bind; [destruct b; [apply frames_lift_world|apply frames_ret]|intros _].
    apply frames_bind; [apply frames_query_world|intros _].
    apply frames_bind; [apply frames_globals_get_hash_val|intros h].
    apply frames_lift_world. }
  unfold bind, log_rpc, ret in H. injection H as <- <-.
  destruct Hf1 as [Hk1 Hl1], Hf2 as [Hk2 Hl2]. simpl. split; [congruence|].
  left. exists res. split; [done|]. congruence.
Qed.

Lemma safe_request {B : Type} (b : bool) (key : table_key) (peer : Z) (g : gpsid)
    (label sw port : Z) (k : activation_result -> M state B) :
  (forall res, safe target_ipv4 (pending key peer res) (k res)) ->
  safe target_ipv4 no_success
    (bind (request_activation env b key peer g label sw port) k).
Proof.
  intros Hk st r st' HP [(res & s1 & H1 & H2)|(e & H1 & _)]%bind_eq.
  - eapply Hk; [|done].
    apply request_activation_log in H1 as [_ [(res' & [= <-] & Hl)|[[e [=]] _]]].
    by exists (rpc_log st).
  - apply request_activation_log in H1 as [Hkq [(res' & [=] & _)|[_ Hl]]].
    apply no_success_kspl_ok. by apply (frame_closed_no_success st).
Qed.

(** After [on_peer_success] the KSPL cell of the attempt's key holds the
    peer's path length plus one, whatever it held before and whether the
    steps after the write return or raise. *)
Lemma on_peer_success_kspl (key : table_key) (q_target : host_address)
    (res : activation_result) (p : path) (st st' : state) (r : outcome (Q * Z)) :
  on_peer_success env key q_target target_ipv4 res p st = (r, st') ->
  rpc_log st' = rpc_log st
  /\ forall n, ar_path_length res = Some n ->
       kspl_cell key (AddrObject target_ipv4) (kspl st') = Some (Some (n + 1)).
Proof.
  unfold on_peer_success. intros H.
  apply bind_eq in H as [(k0 & s1 & H1 & H)|(e & H1 & ->)]; cycle 1.
  { unfold globals_get_known_shortest_path in H1.
    destruct (get_known_shortest_path _ _ _). discriminate. }
  assert (Hl1 : rpc_log s1 = rpc_log st).
  { unfold globals_get_known_shortest_path in H1.
    destruct (get_known_shortest_path _ _ _). by injection H1 as _ <-. }
  destruct (ar_path_length res) as [n|]; cycle 1.
  { apply bind_eq in H as [(? & ? & [=] & _)|(e & [= <- <-] & ->)]. by split. }
  apply bind_eq in H as [(? & s1' & [= <- <-] & H)|(e & [=] & _)].
  apply bind_eq in H as [([] & s2 & H2 & H)|(e & H2 & ->)]; cycle 1.
  { destruct (_ && _); discriminate. }
  assert (Hs2 : s2 = set_kspl s1
                       (set_known_shortest_path key (AddrObject target_ipv4) (n + 1)
                          (kspl s1))).
  { destruct (_ && _); by injection H2 as <-. }
  clear H2.
  assert (Hcell : kspl_cell key (AddrObject target_ipv4) (kspl s2) = Some (Some (n + 1))).
  { rewrite Hs2. apply set_known_shortest_path_cell. }
  assert (Hl2 : rpc_log s2 = rpc_log st) by (by rewrite Hs2).
  clear Hs2 Hl1.
  apply bind_eq in H as [(k1 & s3 & H3 & H)|(e & H3 & ->)];
    unfold globals_get_known_shortest_path in H3;
    rewrite (get_known_shortest_path_present _ _ _ _ Hcell) in H3;
    [|discriminate]. injection H3 as <- <-.
  assert (Hs3 : set_kspl s2 (kspl s2) = s2) by (by destruct s2).
  rewrite Hs3 in H. clear Hs3.
  assert (Hf : kspl_log_frame s2 st').
  { revert H. apply frames_bind; [apply frames_py_assert|intros _].
    apply frames_bind.
    - destruct (n + 1 =? 0); [apply frames_raise|apply frames_ret].
    - intros reward. apply frames_bind; [apply frames_globals_get_q_value|intros v].
      apply frames_bind; [apply frames_globals_set_q_value|intros _]. apply frames_ret. }
  destruct Hf as [Hk Hl]. split; [congruence|]. intros ? [= <-]. by rewrite Hk.
Qed.

Lemma safe_success {B : Type} (key : table_key) (q_target : host_address) (peer : Z)
    (res : activation_result) (p : path) (k : Q * Z -> M state B) :
  (forall a, safe target_ipv4 (kspl_ok target_ipv4) (k a)) ->
  safe target_ipv4 (pending key peer res)
    (bind (on_peer_success env key q_target target_ipv4 res p) k).
Proof.
  intros Hk st r st' (before & Hl & Hb) Hrun.
  assert (Hpost : forall r1 s1,
            on_peer_success env key q_target target_ipv4 res p st = (r1, s1) ->
            kspl_ok target_ipv4 s1).
  { intros r1 s1 H1. apply on_peer_success_kspl in H1 as [Hl1 Hcell].
    intros key' peer' res' n. rewrite Hl1, Hl.
    intros [Hin|Hin%list_elem_of_singleton]%elem_of_app Hs Hn.
    - rewrite (Hb _ _ _ Hin) in Hs. discriminate.
    - injection Hin as -> -> ->. by apply Hcell. }
  apply bind_eq in Hrun as [(a & s1 & H1 & H2)|(e & H1 & _)].
  - eapply Hk; [|done]. by eapply Hpost.
  - by eapply Hpost.
Qed.

End KsplRefresh.

(** ** Every branch of the engine keeps the KSPL cells right *)

Ltac solve_frames :=
  repeat first
    [ apply frames_ret
    | apply frames_raise
    | apply frames_globals_get_q_value
    | apply frames_globals_set_q_value
    | apply frames_globals_alloc_mpls_label_id
    | apply frames_globals_get_hash_val
    | apply frames_lift_world
    | apply frames_query_world
    | apply frames_lift_footprint
    | apply frames_set_active_scenario
    | apply frames_register_implementation_task
    | apply frames_py_assert
    | apply frames_remove_selected
    | apply frames_select_by_q_value
    | apply frames_both_sectors
    | apply frames_on_peer_failure
    | apply frames_other_adjacent_sectors
    | apply frames_gather_links
    | apply frames_bind; [|intros ?]
    | apply frames_try_except; [|intros ?]
    | match goal with
      | |- frames (if ?b then _ else _) => destruct b
      | |- frames (match ?x with _ => _ end) => destruct x
      end ].

Section EngineKspl.
Context {X : Type} (env : Env X).

Local Abbreviation state := (controller_state X).
Local Abbreviation target_of req := (gpsid_target_ipv4 (req_global_path_search_id req)).

Lemma safe_frames_ns {A : Type} (t : Z) (m : M state A) :
  frames m -> safe t no_success m.
Proof.
  apply safe_frames; [apply frame_closed_no_success|apply no_success_kspl_ok].
Qed.

Lemma safe_frames_ok {A : Type} (t : Z) (m : M state A) :
  frames m -> safe t (kspl_ok t) m.
Proof. apply safe_frames; [apply frame_closed_kspl_ok|done]. Qed.

Lemma safe_bind_ns {A B : Type} (t : Z) (m : M state A) (k : A -> M state B) :
  frames m -> (forall a, safe t no_success (k a)) -> safe t no_success (bind m k).
Proof.
  apply safe_bind_frames; [apply frame_closed_no_success|apply no_success_kspl_ok].
Qed.

Lemma safe_after_failure {A : Type} (t : Z) (key : table_key) (peer : Z)
    (res : activation_result) (m : M state A) :
  ar_success res = false -> safe t no_success m -> safe t (pending key peer res) m.
Proof.
  intros Hf Hm st r st' HP. apply Hm. by eapply pending_no_success.
Qed.

Lemma safe_then_frames {A B : Type} (t : Z) (P : state -> Prop) (m : M state A)
    (k : A -> M state B) :
  safe t P m -> (forall a, frames (k a)) -> safe t P (bind m k).
Proof.
  intros Hm Hk st r st' HP [(a & s1 & H1 & H2)|(e & H1 & _)]%bind_eq.
  - eapply frame_closed_kspl_ok; [by eapply Hk|]. by eapply Hm.
  - by eapply Hm.
Qed.

Lemma frames_icmp_target_local (req : scenario_request) (info : host_info) :
  frames (icmp_target_local env req info).
Proof. unfold icmp_target_local. solve_frames. Qed.

Lemma frames_ipv4_target_local (req : scenario_request) (info : host_info) :
  frames (ipv4_target_local env req info).
Proof. unfold ipv4_target_local. solve_frames. Qed.

Lemma frames_icmp_adjacent_path_loop (fuel : nat) (req : scenario_request) (owner : Z)
    (links : list edge) :
  frames (icmp_adjacent_path_loop env fuel req owner links).
Proof.
  revert links. induction fuel as [|fuel IH]; intros [|l links]; simpl;
    solve_frames; apply IH.
Qed.

Lemma safe_icmp_target_adjacent (req : scenario_request) (info : host_info) :
  safe (target_of req) no_success (icmp_target_adjacent env req info).
Proof.
  unfold icmp_target_adjacent.
  apply safe_bind_ns; [solve_frames|intros links0].
  apply safe_bind_ns; [apply frames_icmp_adjacent_path_loop|intros found].
  apply safe_bind_ns; [solve_frames|intros _].
  apply safe_bind_ns; [solve_frames|intros label].
  destruct (found.1) as [[sel p]|]; [|apply safe_frames_ns; solve_frames].
  apply safe_request. intros res.
  destruct (ar_success res) eqn:Hs.
  - apply safe_success. intros upd. apply safe_frames_ok. solve_frames.
  - apply safe_after_failure; [done|]. apply safe_frames_ns. solve_frames.
Qed.

Lemma safe_icmp_explore_loop (fuel : nat) (req : scenario_request) (links : list link) :
  safe (target_of req) no_success (icmp_explore_loop env fuel req links).
Proof.
  revert links. induction fuel as [|fuel IH]; intros [|l links]; simpl;
    try solve [apply safe_frames_ns; solve_frames].
  apply safe_bind_ns; [solve_frames|intros sel].
  apply safe_bind_ns; [solve_frames|intros links'].
  apply safe_bind_ns; [solve_frames|intros found].
  destruct found as [p|]; [|apply IH].
  apply safe_bind_ns; [solve_frames|intros _].
  apply safe_bind_ns; [solve_frames|intros label].
  apply safe_request. intros res.
  destruct (ar_success res) eqn:Hs.
  - apply safe_success. intros upd. apply safe_frames_ok. solve_frames.
  - apply safe_after_failure; [done|].
    apply safe_bind_ns; [solve_frames|intros _]. apply IH.
Qed.

Lemma safe_ipv4_target_adjacent (req : scenario_request) (info : host_info) :
  safe (target_of req) no_success (ipv4_target_adjacent env req info).
Proof.
  unfold ipv4_target_adjacent.
  apply safe_bind_ns; [solve_frames|intros p].
  apply safe_bind_ns; [solve_frames|intros _].
  apply safe_bind_ns; [solve_frames|intros label].
  destruct (path_penultimate_hop p) as [[[sw pin] pout]|];
    [|apply safe_frames_ns; solve_frames].
  apply safe_request. intros res.
  destruct (ar_success res) eqn:Hs.
  - apply safe_success. intros upd. apply safe_frames_ok. solve_frames.
  - apply safe_after_failure; [done|]. apply safe_frames_ns. solve_frames.
Qed.

Lemma safe_ipv4_explore_loop (fuel : nat) (req : scenario_request) (sectors : list Z) :
  safe (target_of req) no_success (ipv4_explore_loop env fuel req sectors).
Proof.
  revert sectors. induction fuel as [|fuel IH]; intros [|s sectors]; simpl;
    try solve [apply safe_frames_ns; solve_frames].
  apply safe_bind_ns; [solve_frames|intros sel].
  apply safe_bind_ns; [solve_frames|intros sectors'].
  apply safe_bind_ns; [solve_frames|intros p].
  apply safe_bind_ns; [solve_frames|intros _].
  apply safe_bind_ns; [solve_frames|intros label].
  destruct (path_penultimate_hop p) as [[[sw pin] pout]|];
    [|apply safe_frames_ns; solve_frames].
  apply safe_request. intros res.
  destruct (ar_success res) eqn:Hs.
  - apply safe_success. intros upd. apply safe_frames_ok. solve_frames.
  - apply safe_after_failure; [done|].
    apply safe_bind_ns; [solve_frames|intros _]. apply IH.
Qed.

Lemma safe_icmp_body (req : scenario_request) (info : host_info) :
  safe (target_of req) no_success (icmp_body env req info).
Proof.
  unfold icmp_body. destruct (_ =? _).
  { apply safe_frames_ns, frames_icmp_target_local. }
  apply safe_bind_ns; [solve_frames|intros adj].
  destruct (_ =? _)%nat; [apply safe_frames_ns; solve_frames|].
  case_bool_decide.
  - apply safe_then_frames; [apply safe_icmp_target_adjacent|intros; apply frames_ret].
  - apply safe_bind_ns; [solve_frames|intros links].
    apply safe_then_frames; [apply safe_icmp_explore_loop|intros; apply frames_ret].
Qed.

Lemma safe_ipv4_body (req : scenario_request) (info : host_info) :
  safe (target_of req) no_success (ipv4_body env req info).
Proof.
  unfold ipv4_body. destruct (_ =? _).
  { apply safe_frames_ns, frames_ipv4_target_local. }
  apply safe_bind_ns; [solve_frames|intros adj].
  destruct (_ =? _)%nat; [apply safe_frames_ns; solve_frames|].
  case_bool_decide.
  - apply safe_ipv4_target_adjacent.
  - apply safe_then_frames; [apply safe_ipv4_explore_loop|intros; apply frames_ret].
Qed.

Lemma frames_scenario_handlers (ex : exn) : frames (scenario_handlers ex : M state _).
Proof. unfold scenario_handlers. apply frames_ret. Qed.

Lemma safe_with_implementation_task (t : Z) (g : gpsid) (l3 l4 : string)
    (body : M state engine_reply) :
  safe t no_success body -> safe t no_success (with_implementation_task g l3 l4 body).
Proof.
  intros Hbody st r st' HP. unfold with_implementation_task.
  destruct (register_implementation_task g l3 l4 st) as [[[]|ex] s1] eqn:Hreg.
  - destruct (try_except body scenario_handlers s1) as [r2 s2] eqn:Hrun.
    intros [= <- <-].
    eapply frame_closed_kspl_ok; [apply release_implementation_task_frame|].
    eapply (safe_try_except_frames t); [apply Hbody|apply frames_scenario_handlers| |done].
    eapply frame_closed_no_success; [|done].
    by eapply frames_register_implementation_task.
  - intros Hh. eapply frame_closed_kspl_ok; [by eapply frames_scenario_handlers|].
    apply no_success_kspl_ok. eapply frame_closed_no_success; [|done].
    by eapply frames_register_implementation_task.
Qed.

Lemma safe_activate_scenario (req : scenario_request) :
  safe (target_of req) no_success (__activate_scenario env req).
Proof.
  unfold __activate_scenario, activate_scenario_reply.
  apply safe_then_frames; [|intros; apply frames_ret].
  apply safe_bind_ns; [solve_frames|intros _].
  apply safe_bind_ns; [solve_frames|intros _].
  apply safe_bind_ns; [solve_frames|intros info].
  apply safe_then_frames; [|intros; apply frames_ret].
  destruct (_ =? _); [apply safe_frames_ns; solve_frames|].
  intros st r st' HP.
  destruct (is_scenario_active _ st).
  { intros [= <- <-]. by apply no_success_kspl_ok. }
  destruct (String.eqb _ "ICMPv4").
  { by apply safe_with_implementation_task; [apply safe_icmp_body|]. }
  destruct (String.eqb _ "IPv4").
  { by apply safe_with_implementation_task; [apply safe_ipv4_body|]. }
  intros [= <- <-]. by apply no_success_kspl_ok.
Qed.

(** C8: in every run of [__activate_scenario] that starts with an empty
    record of peer RPCs, whenever a peer activation returned success with
    a path length [p] for the link or sector [key] the engine had chosen,
    the final state holds [kspl[key][target] = p + 1], whatever the cell
    held before (nothing, [None], a smaller or a larger length) and whether
    the run then replies success or fails in a later step. *)
Theorem kspl_overwritten_on_peer_success
    (req : scenario_request) (st st' : controller_state X)
    (r : outcome activation_result)
    (key : table_key) (peer : Z) (res : activation_result) (p : Z) :
  rpc_log st = [] ->
  __activate_scenario env req st = (r, st') ->
  RpcActivate key peer res ∈ rpc_log st' ->
  ar_success res = true ->
  ar_path_length res = Some p ->
  kspl_cell key (AddrObject (gpsid_target_ipv4 (req_global_path_search_id req))) (kspl st')
  = Some (Some (p + 1)).
Proof.
  intros Hlog Hrun Hin Hs Hp.
  eapply (safe_activate_scenario req st r st'); [|done..].
  intros key' peer' res'. rewrite Hlog. by intros ?%elem_of_nil.
Qed.

End EngineKspl.

(** ** The exploration loops *)

Lemma bind_ok {S A B : Type} (m : M S A) (k : A -> M S B) (s s1 : S) (a : A) :
  m s = (Ok a, s1) -> bind m k s = k a s1.
Proof. unfold bind. by intros ->. Qed.

Lemma try_except_ok {S A : Type} (m : M S A) (h : exn -> M S A) (s s1 : S) (a : A) :
  m s = (Ok a, s1) -> try_except m h s = (Ok a, s1).
Proof. unfold try_except. by intros ->. Qed.

Lemma bind_ext {S A B : Type} (m : M S A) (k1 k2 : A -> M S B) (s : S) :
  (forall a s1, m s = (Ok a, s1) -> k1 a s1 = k2 a s1) -> bind m k1 s = bind m k2 s.
Proof. unfold bind. destruct (m s) as [[a|e] s1]; auto. Qed.

Lemma try_except_ext {S A : Type} (m : M S A) (h1 h2 : exn -> M S A) (s : S) :
  (forall e s1, m s = (Raise e, s1) -> h1 e s1 = h2 e s1) ->
  try_except m h1 s = try_except m h2 s.
Proof. unfold try_except. destruct (m s) as [[a|e] s1]; auto. Qed.

Lemma py_list_remove_length {A : Type} `{EqDecision A} (x : A) (l r : list A) :
  py_list_remove x l = Some r -> length l = S (length r).
Proof.
  revert r. induction l as [|y l IH]; intros r; simpl; [discriminate|].
  destruct (decide (x = y)); [by intros [= <-]|].
  destruct (py_list_remove x l) as [r'|]; [|discriminate].
  intros [= <-]. simpl. by rewrite (IH r').
Qed.

Lemma py_list_remove_elem {A : Type} `{EqDecision A} (x : A) (l : list A) :
  x ∈ l -> is_Some (py_list_remove x l).
Proof.
  induction l as [|y l IH]; [by intros ?%elem_of_nil|]. simpl.
  destruct (decide (x = y)); [eauto|].
  intros [->|Hin]%elem_of_cons; [done|].
  destruct (IH Hin) as [r ->]. eauto.
Qed.

Section Loops.
Context {X : Type} (env : Env X).

Local Abbreviation state := (controller_state X).

Lemma remove_selected_length {A : Type} `{EqDecision A} (x : A) (xs r : list A)
    (st st' : state) :
  remove_selected x xs st = (Ok r, st') -> length xs = S (length r) /\ st' = st.
Proof.
  unfold remove_selected. destruct (py_list_remove x xs) as [r'|] eqn:E; [|discriminate].
  intros [= <- <-]. split; [|done]. by apply (py_list_remove_length x).
Qed.

Lemma remove_or_key_error_length {A : Type} `{EqDecision A} (x : A) (xs r : list A)
    (st st' : state) :
  match py_list_remove x xs with
  | Some r' => ret r'
  | None => raise KeyError
  end st = (Ok r, st') ->
  length xs = S (length r).
Proof.
  destruct (py_list_remove x xs) as [r'|] eqn:E; [|discriminate].
  intros [= <- <-]. by apply (py_list_remove_length x).
Qed.

(** The iteration bound of the loops is never what ends them: any bound
    of at least the number of candidates gives the same run. *)
Lemma icmp_explore_loop_fuel (fuel1 fuel2 : nat) (req : scenario_request)
    (links : list link) (st : state) :
  (length links <= fuel1)%nat -> (length links <= fuel2)%nat ->
  icmp_explore_loop env fuel1 req links st = icmp_explore_loop env fuel2 req links st.
Proof.
  revert fuel2 links st.
  induction fuel1 as [|fuel1 IH]; intros fuel2 [|l links] st H1 H2;
    try (simpl in H1; lia); [by destruct fuel2..|].
  destruct fuel2 as [|fuel2]; [simpl in H2; lia|]. simpl.
  apply bind_ext. intros sel s1 _.
  apply bind_ext. intros rest s2 Hrem.
  apply remove_selected_length in Hrem as [Hlen _].
  simpl in Hlen, H1, H2.
  apply bind_ext. intros [p|] s3 _; [|apply IH; lia].
  apply bind_ext. intros _ s4 _.
  apply bind_ext. intros label s5 _.
  apply bind_ext. intros res s6 _.
  destruct (ar_success res); [done|].
  apply bind_ext. intros _ s7 _. apply IH; lia.
Qed.

Lemma icmp_adjacent_path_loop_fuel (fuel1 fuel2 : nat) (req : scenario_request)
    (owner : Z) (links : list edge) (st : state) :
  (length links <= fuel1)%nat -> (length links <= fuel2)%nat ->
  icmp_adjacent_path_loop env fuel1 req owner links st
  = icmp_adjacent_path_loop env fuel2 req owner links st.
Proof.
  revert fuel2 links st.
  induction fuel1 as [|fuel1 IH]; intros fuel2 [|l links] st H1 H2;
    try (simpl in H1; lia); [by destruct fuel2..|].
  destruct fuel2 as [|fuel2]; [simpl in H2; lia|]. simpl.
  apply bind_ext. intros sel s1 _.
  apply try_except_ext. intros ex s2 _.
  destruct ex; try done.
  apply bind_ext. intros rest s3 Hrem.
  apply remove_selected_length in Hrem as [Hlen _].
  simpl in Hlen, H1, H2.
  destruct (length rest =? 0)%nat; [done|]. apply IH; lia.
Qed.

Lemma ipv4_explore_loop_fuel (fuel1 fuel2 : nat) (req : scenario_request)
    (sectors : list Z) (st : state) :
  (length sectors <= fuel1)%nat -> (length sectors <= fuel2)%nat ->
  ipv4_explore_loop env fuel1 req sectors st = ipv4_explore_loop env fuel2 req sectors st.
Proof.
  revert fuel2 sectors st.
  induction fuel1 as [|fuel1 IH]; intros fuel2 [|s sectors] st H1 H2;
    try (simpl in H1; lia); [by destruct fuel2..|].
  destruct fuel2 as [|fuel2]; [simpl in H2; lia|]. simpl.
  apply bind_ext. intros sel s1 _.
  apply bind_ext. intros rest s2 Hrem.
  apply (remove_or_key_error_length sel (s :: sectors)) in Hrem as Hlen.
  simpl in Hlen, H1, H2.
  apply bind_ext. intros p s3 _.
  apply bind_ext. intros _ s4 _.
  apply bind_ext. intros label s5 _.
  destruct (path_penultimate_hop p) as [[[sw pin] pout]|]; [|done].
  apply bind_ext. intros res s6 _.
  destruct (ar_success res); [done|].
  apply bind_ext. intros _ s7 _. apply IH; lia.
Qed.

(** The candidate chosen is one of the candidates. *)
Lemma never_used_elem {A : Type} (key : A -> table_key) (target : host_address)
    (xs l : list A) (st st' : state) :
  never_used key target xs st = (Ok l, st') -> forall x, x ∈ l -> x ∈ xs.
Proof.
  revert l st. induction xs as [|y xs IH]; intros l st; simpl.
  - intros [= <- <-] x Hx. done.
  - intros [(v & s1 & _ & H)|(e & _ & [=])]%bind_eq.
    apply bind_eq in H as [(rest & s2 & H2 & H)|(e & _ & [=])].
    injection H as <- <-. intros x Hx.
    destruct (Qeq_bool v 0).
    + apply elem_of_cons in Hx as [->|Hx]; [left|right; by eapply IH].
    + right. by eapply IH.
Qed.

Lemma max_by_q_value_elem {A : Type} (key : A -> table_key) (target : host_address)
    (best : A) (best_value : Q) (xs : list A) (x : A) (st st' : state) :
  max_by_q_value key target best best_value xs st = (Ok x, st') -> x = best \/ x ∈ xs.
Proof.
  revert best best_value st. induction xs as [|y xs IH]; intros best bv st; simpl.
  - intros [= <- <-]. by left.
  - intros [(v & s1 & _ & H)|(e & _ & [=])]%bind_eq.
    destruct (Qle_bool v bv); apply IH in H as [->|Hin].
    + by left.
    + right. by right.
    + right. left.
    + right. by right.
Qed.

Lemma select_by_q_value_elem {A : Type} (key : A -> table_key) (target : host_address)
    (xs : list A) (x : A) (st st' : state) :
  select_by_q_value key target xs st = (Ok x, st') -> x ∈ xs.
Proof.
  unfold select_by_q_value.
  intros [(unused & s1 & H1 & H)|(e & _ & [=])]%bind_eq.
  destruct unused as [|u unused].
  - destruct xs as [|y xs]; [discriminate|].
    apply bind_eq in H as [(v & s2 & _ & H)|(e & _ & [=])].
    apply max_by_q_value_elem in H as [->|Hin]; [left|by right].
  - injection H as <- <-. eapply never_used_elem; [done|left].
Qed.

(** The link with which the path loop of the target-adjacent branch ends
    is still in [possible_links]. *)
Lemma icmp_adjacent_path_loop_found (fuel : nat) (req : scenario_request) (owner : Z)
    (links links' : list edge) (sel : edge) (p : path) (st st' : state) :
  icmp_adjacent_path_loop env fuel req owner links st = (Ok (Some (sel, p), links'), st') ->
  sel ∈ links'.
Proof.
  revert links st. induction fuel as [|fuel IH]; intros [|l links] st; simpl;
    try discriminate.
  intros [(sel' & s1 & Hsel & H)|(e & _ & [=])]%bind_eq.
  apply select_by_q_value_elem in Hsel.
  apply try_except_eq in H as [(a & H & [= <-])|(ex & s2 & _ & H)].
  - apply bind_eq in H as [(p' & s2 & _ & H)|(e & _ & [=])].
    by injection H as <- <- <- <-.
  - destruct ex; try discriminate.
    apply bind_eq in H as [(rest & s3 & _ & H)|(e & _ & [=])].
    destruct (length rest =? 0)%nat; [discriminate|]. by eapply IH.
Qed.

(** A refusal that the general loop returns is always the exhaustion of
    the alternatives, with no link left. *)
Lemma icmp_explore_loop_refusal (fuel : nat) (req : scenario_request)
    (links rem : list link) (why : refusal) (st st' : state) :
  icmp_explore_loop env fuel req links st = (Ok (Refused why, rem), st') ->
  why = AlternativesExhausted /\ rem = [].
Proof.
  revert links st. induction fuel as [|fuel IH]; intros [|l links] st; simpl;
    try discriminate; try (by intros [= <- <- <-]).
  intros [(sel & s1 & _ & H)|(e & _ & [=])]%bind_eq.
  apply bind_eq in H as [(rest & s2 & _ & H)|(e & _ & [=])].
  apply bind_eq in H as [(found & s3 & _ & H)|(e & _ & [=])].
  destruct found as [p|]; [|by eapply IH].
  apply bind_eq in H as [(? & s4 & _ & H)|(e & _ & [=])].
  apply bind_eq in H as [(label & s5 & _ & H)|(e & _ & [=])].
  apply bind_eq in H as [(res & s6 & _ & H)|(e & _ & [=])].
  destruct (ar_success res).
  - apply bind_eq in H as [(upd & s7 & _ & H)|(e & _ & [=])].
    apply bind_eq in H as [(s2s & s8 & _ & H)|(e & _ & [=])].
    apply bind_eq in H as [(svc & s9 & _ & H)|(e & _ & [=])].
    apply bind_eq in H as [(? & s10 & _ & H)|(e & _ & [=])].
    discriminate.
  - apply bind_eq in H as [(? & s7 & _ & H)|(e & _ & [=])]. by eapply IH.
Qed.

End Loops.

(** ** Peer failure in the exploration loops *)

Section PeerFailure.
Context {X : Type} (env : Env X).

Local Abbreviation state := (controller_state X).

(** The whole state after [on_peer_failure]: nothing but the Q-table has
    changed, and the table is the one that the read has left. *)
Lemma on_peer_failure_state (key : table_key) (q_target : host_address)
    (res : activation_result) (reason : string) (st : state) :
  ar_reason res = Some reason ->
  on_peer_failure key q_target res st
  = (Ok tt, set_QValues st (get_q_value key q_target (QValues st)).2).
Proof.
  intros Hr. unfold on_peer_failure, bind, globals_get_q_value, globals_set_q_value.
  pose proof (set_q_value_after_get key q_target
    (calculate_new_qvalue (get_q_value key q_target (QValues st)).1 (forward_q_value res) (-1))
    (QValues st)) as Hset.
  destruct (get_q_value key q_target (QValues st)) as [v t]. simpl in *.
  rewrite Hr. unfold ret. f_equal. unfold set_QValues. simpl. by rewrite Hset.
Qed.

(** The table that a [get_q_value] leaves, cell by cell. *)
Lemma get_q_value_table (key k : table_key) (q_target h : host_address) (t : q_table) :
  q_cell k h (get_q_value key q_target t).2
  = if decide (k = key /\ h = q_target)
    then Some (default 0%Q (q_cell key q_target t))
    else q_cell k h t.
Proof.
  unfold get_q_value, q_cell; simpl.
  destruct (t !! key) as [row|] eqn:Ek.
  - destruct (row !! q_target) as [v|] eqn:Eh.
    + case_decide as Hd; [|done]. destruct Hd as [-> ->]. rewrite Ek. simpl. by rewrite Eh.
    + destruct (decide (k = key)) as [->|Hk].
      * rewrite lookup_insert_eq, Ek. simpl.
        destruct (decide (h = q_target)) as [->|Hh].
        -- rewrite lookup_insert_eq, Eh. by rewrite decide_True.
        -- rewrite lookup_insert_ne by done. rewrite decide_False; [done|]. by intros [_ ?].
      * rewrite lookup_insert_ne by done. rewrite decide_False; [done|]. by intros [? _].
  - destruct (decide (k = key)) as [->|Hk].
    + rewrite lookup_insert_eq, Ek. simpl.
      destruct (decide (h = q_target)) as [->|Hh].
      * rewrite lookup_singleton_eq. by rewrite decide_True.
      * rewrite lookup_singleton_ne by done. rewrite decide_False; [done|]. by intros [_ ?].
    + rewrite lookup_insert_ne by done. rewrite decide_False; [done|]. by intros [? _].
Qed.


End PeerFailure.



(** The link (10, 1) was known to reach the target in one hop; the peer
    behind it accepts with a path of length 2, and the cell is
    overwritten with 3. *)
Lemma kspl_overwritten_on_peer_success_witness :
  let run := __activate_scenario (demo_env 3 true demo_acceptance) demo_request
               demo_state_kspl in
  kspl_cell (EdgeKey 10 1) (AddrObject 167772169) (kspl demo_state_kspl) = Some (Some 1)
  /\ kspl_cell (EdgeKey 10 1) (AddrObject 167772169) (kspl run.2) = Some (Some 3).
Proof.
  intros run. split; [reflexivity|].
  apply (kspl_overwritten_on_peer_success (demo_env 3 true demo_acceptance) demo_request
           demo_state_kspl run.2 run.1 (EdgeKey 10 1) 3 demo_acceptance 2).
  - reflexivity.
  - apply surjective_pairing.
  - vm_compute. left.
  - reflexivity.
  - reflexivity.
Defined.

(** * Further properties of the allocators *)

Lemma run_ops_pool_inv (a : allocator) (lb : Z) (ops : list alloc_op)
    (st : id_pool) (live : gset Z) :
  allocator_sound a lb ->
  run_ops a ops (pool_init a) ∅ = Some (st, live) ->
  pool_inv lb st live.
Proof.
  intros Hs Hrun. pose proof Hs as (Hinit & _).
  eapply run_ops_inv; [done| |done]. rewrite Hinit. apply pool_inv_init.
Qed.

(** X1: after any history of calls, an id that [alloc_cookie_id] (resp.
    [alloc_mpls_label_id]) hands out is not one that a caller still
    holds. *)
Theorem alloc_hands_out_unheld_id :
  (forall ops st live id st',
      run_ops cookie_allocator ops cookie_pool_init ∅ = Some (st, live) ->
      alloc_cookie_id st = (Ok id, st') -> id ∉ live)
  /\ (forall ops st live id st',
      run_ops mpls_allocator ops mpls_pool_init ∅ = Some (st, live) ->
      alloc_mpls_label_id st = (Ok id, st') -> id ∉ live).
Proof.
  split; intros ops st live id st' Hrun Halloc.
  - pose proof (run_ops_pool_inv _ _ _ _ _ cookie_allocator_sound Hrun) as Hinv.
    destruct cookie_allocator_sound as (_ & Ha & _).
    by destruct (Ha _ _ _ _ Hinv Halloc).
  - pose proof (run_ops_pool_inv _ _ _ _ _ mpls_allocator_sound Hrun) as Hinv.
    destruct mpls_allocator_sound as (_ & Ha & _).
    by destruct (Ha _ _ _ _ Hinv Halloc).
Qed.

Lemma alloc_hands_out_unheld_id_witness :
  let ops := [OpAlloc; OpAlloc; OpAlloc; OpFree 18] in
  exists st live,
    run_ops mpls_allocator ops mpls_pool_init ∅ = Some (st, live)
    /\ alloc_mpls_label_id st = (Ok 18, IdPool 19 [])
    /\ 18 ∉ live.
Proof.
  intros ops. eexists _, _. split; [vm_compute; reflexivity|].
  split; [reflexivity|].
  eapply (proj2 alloc_hands_out_unheld_id ops).
  - vm_compute. reflexivity.
  - reflexivity.
Defined.

(** X2: after any history, every id above the lower bound and up to the
    counter is either held by a caller or in the recycle list, never
    both; the recycle list has no duplicates and lies strictly below the
    counter. *)
Theorem ids_held_or_recycled :
  (forall ops st live,
      run_ops cookie_allocator ops cookie_pool_init ∅ = Some (st, live) ->
      NoDup (recycled st)
      /\ forall x, (x ∈ recycled st -> 0 < x < id_counter st /\ x ∉ live)
                   /\ (x ∈ live -> 0 < x <= id_counter st)
                   /\ (0 < x <= id_counter st -> x ∈ recycled st \/ x ∈ live))
  /\ (forall ops st live,
      run_ops mpls_allocator ops mpls_pool_init ∅ = Some (st, live) ->
      NoDup (recycled st)
      /\ forall x, (x ∈ recycled st -> 16 < x < id_counter st /\ x ∉ live)
                   /\ (x ∈ live -> 16 < x <= id_counter st)
                   /\ (16 < x <= id_counter st -> x ∈ recycled st \/ x ∈ live)).
Proof.
  split; intros ops st live Hrun.
  - destruct (run_ops_pool_inv _ _ _ _ _ cookie_allocator_sound Hrun)
      as (H1 & H2 & H3 & H4 & H5).
    split; [done|]. intros x. split_and!; [|intros Hl; by destruct (H4 _ Hl)|apply H5].
    intros Hx. split; [by apply H3|]. intros Hl. by destruct (H4 _ Hl).
  - destruct (run_ops_pool_inv _ _ _ _ _ mpls_allocator_sound Hrun)
      as (H1 & H2 & H3 & H4 & H5).
    split; [done|]. intros x. split_and!; [|intros Hl; by destruct (H4 _ Hl)|apply H5].
    intros Hx. split; [by apply H3|]. intros Hl. by destruct (H4 _ Hl).
Qed.

Lemma ids_held_or_recycled_witness :
  let ops := [OpAlloc; OpAlloc; OpAlloc; OpFree 2] in
  exists st live,
    run_ops cookie_allocator ops cookie_pool_init ∅ = Some (st, live)
    /\ NoDup (recycled st)
    /\ (2 ∈ recycled st -> 0 < 2 < id_counter st /\ 2 ∉ live).
Proof.
  intros ops. eexists _, _. split; [vm_compute; reflexivity|].
  destruct (proj1 ids_held_or_recycled ops (IdPool 3 [2]) ({[1]} ∪ {[3]})) as [Hnd Hx].
  { vm_compute. reflexivity. }
  split; [exact Hnd|]. apply (Hx 2).
Defined.

(** X3: after any history the counter is the largest id held by a
    caller, and it stands at the lower bound exactly when no id is held:
    the compaction loop never leaves a recycled id at the top. *)
Theorem counter_is_largest_held_id :
  (forall ops st live,
      run_ops cookie_allocator ops cookie_pool_init ∅ = Some (st, live) ->
      (forall x, x ∈ live -> x <= id_counter st)
      /\ (id_counter st = 0 /\ live = ∅ \/ id_counter st ∈ live))
  /\ (forall ops st live,
      run_ops mpls_allocator ops mpls_pool_init ∅ = Some (st, live) ->
      (forall x, x ∈ live -> x <= id_counter st)
      /\ (id_counter st = 16 /\ live = ∅ \/ id_counter st ∈ live)).
Proof.
  assert (Hgen : forall lb st live, pool_inv lb st live ->
            (forall x, x ∈ live -> x <= id_counter st)
            /\ (id_counter st = lb /\ live = ∅ \/ id_counter st ∈ live)).
  { intros lb st live (H1 & H2 & H3 & H4 & H5). split.
    - intros x Hx. destruct (H4 _ Hx). lia.
    - destruct (decide (id_counter st = lb)) as [Heq|Hne].
      + left. split; [done|]. apply leibniz_equiv, elem_of_equiv_empty. intros x Hx.
        destruct (H4 _ Hx). lia.
      + right. destruct (H5 (id_counter st)) as [Hp|Hl]; [lia| |done].
        pose proof (H3 _ Hp). lia. }
  split; intros ops st live Hrun.
  - apply (Hgen 0). exact (run_ops_pool_inv _ _ _ _ _ cookie_allocator_sound Hrun).
  - apply (Hgen 16). exact (run_ops_pool_inv _ _ _ _ _ mpls_allocator_sound Hrun).
Qed.

Lemma counter_is_largest_held_id_witness :
  let ops := [OpAlloc; OpAlloc; OpAlloc; OpFree 18; OpFree 19] in
  exists st live,
    run_ops mpls_allocator ops mpls_pool_init ∅ = Some (st, live)
    /\ id_counter st = 17
    /\ (id_counter st = 16 /\ live = ∅ \/ id_counter st ∈ live).
Proof.
  intros ops. eexists _, _. split; [vm_compute; reflexivity|].
  split; [reflexivity|].
  apply (proj2 counter_is_largest_held_id ops). vm_compute. reflexivity.
Defined.

Lemma compact_below_counter (lb : Z) (st : id_pool) (live : gset Z) (id : Z) :
  pool_inv lb st live -> id ∈ live -> id <> id_counter st ->
  compact (IdPool (id_counter st) (recycled st ++ [id]))
  = IdPool (id_counter st) (recycled st ++ [id]).
Proof.
  destruct st as [c pool]; simpl. intros (H1 & H2 & H3 & H4 & H5) Hl Hne; simpl in *.
  unfold compact; simpl. rewrite length_app, Nat.add_comm. simpl.
  destruct (py_max (pool ++ [id])) as [m|] eqn:Hmax; [|done].
  destruct (py_max_spec _ _ Hmax) as [Hm _].
  destruct (Z.eqb_spec c m) as [->|]; [|done]. exfalso.
  apply elem_of_app in Hm as [Hm|Hm%list_elem_of_singleton].
  - pose proof (H3 _ Hm). lia.
  - by subst.
Qed.

(** X4: an id that is freed while a larger id is still held is the next
    one handed out, and the allocator is then back in the state it had
    before the free. *)
Theorem free_then_alloc_reuses_id :
  (forall ops st live id,
      run_ops cookie_allocator ops cookie_pool_init ∅ = Some (st, live) ->
      id ∈ live -> id <> id_counter st -> id_counter st <> cookie_ceiling ->
      exists st1, free_cookie_id id st = (Ok tt, st1)
                  /\ alloc_cookie_id st1 = (Ok id, st))
  /\ (forall ops st live id,
      run_ops mpls_allocator ops mpls_pool_init ∅ = Some (st, live) ->
      id ∈ live -> id <> id_counter st -> id_counter st <> mpls_ceiling ->
      exists st1, free_mpls_label_id id st = (Ok tt, st1)
                  /\ alloc_mpls_label_id st1 = (Ok id, st)).
Proof.
  split; intros ops st live id Hrun Hl Hne Hceil.
  - pose proof (run_ops_pool_inv _ _ _ _ _ cookie_allocator_sound Hrun) as Hinv.
    pose proof Hinv as (_ & _ & _ & H4 & _). destruct (H4 _ Hl) as [Hr Hn].
    eexists. split.
    + unfold free_cookie_id.
      destruct (Z.leb_spec id 0); [lia|]. destruct (Z.gtb_spec id (id_counter st)); [lia|].
      rewrite bool_decide_eq_false_2 by done.
      by rewrite (compact_below_counter _ _ _ _ Hinv Hl Hne).
    + unfold alloc_cookie_id; simpl.
      destruct (Z.eqb_spec (id_counter st) 0xFFFFFFFFFFFFFFFF); [done|].
      rewrite py_pop_snoc. by destruct st.
  - pose proof (run_ops_pool_inv _ _ _ _ _ mpls_allocator_sound Hrun) as Hinv.
    pose proof Hinv as (_ & _ & _ & H4 & _). destruct (H4 _ Hl) as [Hr Hn].
    eexists. split.
    + unfold free_mpls_label_id.
      destruct (Z.leb_spec id 16); [lia|]. destruct (Z.gtb_spec id (id_counter st)); [lia|].
      rewrite bool_decide_eq_false_2 by done. simpl.
      by rewrite (compact_below_counter _ _ _ _ Hinv Hl Hne).
    + unfold alloc_mpls_label_id; simpl.
      destruct (Z.eqb_spec (id_counter st) 0x100000); [done|].
      rewrite py_pop_snoc. by destruct st.
Qed.

Lemma free_then_alloc_reuses_id_witness :
  let ops := [OpAlloc; OpAlloc; OpAlloc] in
  exists st1, free_cookie_id 2 (IdPool 3 []) = (Ok tt, st1)
              /\ alloc_cookie_id st1 = (Ok 2, IdPool 3 []).
Proof.
  intros ops.
  apply (proj1 free_then_alloc_reuses_id ops (IdPool 3 []) ({[3]} ∪ ({[2]} ∪ ({[1]} ∪ ∅))) 2).
  - vm_compute. reflexivity.
  - vm_compute. reflexivity.
  - simpl. lia.
  - simpl. unfold cookie_ceiling. lia.
Defined.

Lemma cookie_reachable_counter_le (st : id_pool) :
  reachable cookie_allocator st -> id_counter st <= cookie_ceiling.
Proof.
  unfold cookie_ceiling.
  induction 1 as [|st id st' _ IH E|st id st' _ IH E]; simpl in *.
  - lia.
  - unfold alloc_cookie_id in E.
    destruct (Z.eqb_spec (id_counter st) 0xFFFFFFFFFFFFFFFF); [discriminate|].
    destruct (py_pop (recycled st)) as [[? ?]|]; injection E as _ <-; simpl; lia.
  - destruct (free_cookie_id_Ok _ _ _ _ E) as [(_ & _ & _ & ->)|(_ & _ & ->)]; [|done].
    etrans; [apply compact_loop_counter_le|]. done.
Qed.

(** X5: from every state the cookie allocator can reach, an id it hands
    out lies in [1, 2^64 - 1]. *)
Theorem alloc_cookie_id_range (st st' : id_pool) (cookie_id : Z) :
  reachable cookie_allocator st ->
  alloc_cookie_id st = (Ok cookie_id, st') ->
  1 <= cookie_id <= 2 ^ 64 - 1.
Proof.
  intros Hreach E. pose proof (cookie_reachable_counter_le _ Hreach) as Hle.
  unfold cookie_ceiling in Hle.
  destruct (reachable_inv _ _ _ cookie_allocator_sound Hreach)
    as [live (H1 & H2 & H3 & H4 & H5)].
  unfold alloc_cookie_id in E.
  destruct (Z.eqb_spec (id_counter st) 0xFFFFFFFFFFFFFFFF); [discriminate|].
  destruct (py_pop (recycled st)) as [[x rest]|] eqn:Hpop; injection E as <- <-.
  - apply py_pop_spec in Hpop.
    assert (Hx : x ∈ recycled st) by (rewrite Hpop; apply elem_of_app; right; left).
    pose proof (H3 _ Hx). lia.
  - lia.
Qed.

Lemma alloc_cookie_id_range_witness : 1 <= 1 <= 2 ^ 64 - 1.
Proof.
  apply (alloc_cookie_id_range cookie_pool_init (IdPool 1 []) 1).
  - apply (reach_init cookie_allocator).
  - reflexivity.
Defined.

Lemma cookie_reachable_fresh (k : Z) :
  0 <= k -> k <= cookie_ceiling -> reachable cookie_allocator (IdPool k []).
Proof.
  unfold cookie_ceiling. intros Hk. revert k Hk.
  apply (natlike_ind (fun k => k <= 0xFFFFFFFFFFFFFFFF ->
    reachable cookie_allocator (IdPool k []))).
  - intros _. apply (reach_init cookie_allocator).
  - intros k Hk IH Hle.
    replace (Z.succ k) with (k + 1) by lia.
    apply (reach_alloc cookie_allocator (IdPool k []) (k + 1)).
    + apply IH. lia.
    + simpl. unfold alloc_cookie_id; simpl.
      destruct (Z.eqb_spec k 0xFFFFFFFFFFFFFFFF) as [|_]; [lia|done].
Qed.

Lemma compact_singleton (c k : Z) : c <> k -> compact (IdPool c [k]) = IdPool c [k].
Proof.
  intros Hne. unfold compact. cbn -[Z.eqb Z.sub].
  destruct (Z.eqb_spec c k); [lia|done].
Qed.

(** X6: once the counter stands at the ceiling, [alloc_mpls_label_id]
    (resp. [alloc_cookie_id]) raises even while freed ids wait in the
    recycle list: for every id [k] below the ceiling the state with the
    counter at the ceiling and [k] recycled can be reached, and the call
    raises there without touching the state. *)
Theorem alloc_at_ceiling_ignores_recycled (k : Z) :
  (16 < k < mpls_ceiling ->
   reachable mpls_allocator (IdPool mpls_ceiling [k])
   /\ exists msg, alloc_mpls_label_id (IdPool mpls_ceiling [k])
                  = (Raise (ValueError msg), IdPool mpls_ceiling [k]))
  /\ (0 < k < cookie_ceiling ->
      reachable cookie_allocator (IdPool cookie_ceiling [k])
      /\ exists msg, alloc_cookie_id (IdPool cookie_ceiling [k])
                     = (Raise (ValueError msg), IdPool cookie_ceiling [k])).
Proof.
  unfold mpls_ceiling, cookie_ceiling. split; intros Hk.
  - split; [|by eexists].
    apply (reach_free mpls_allocator (IdPool 0x100000 []) k).
    + apply (mpls_reachable_fresh (0x100000 - 16)); lia.
    + simpl. unfold free_mpls_label_id; simpl.
      destruct (Z.leb_spec k 16); [lia|]. destruct (Z.gtb_spec k 0x100000); [lia|].
      rewrite compact_singleton by lia. done.
  - split; [|by eexists].
    apply (reach_free cookie_allocator (IdPool 0xFFFFFFFFFFFFFFFF []) k).
    + apply cookie_reachable_fresh; unfold cookie_ceiling; lia.
    + simpl. unfold free_cookie_id; simpl.
      destruct (Z.leb_spec k 0); [lia|].
      destruct (Z.gtb_spec k 0xFFFFFFFFFFFFFFFF); [lia|].
      rewrite compact_singleton by lia. done.
Qed.

Lemma alloc_at_ceiling_ignores_recycled_witness :
  reachable mpls_allocator (IdPool mpls_ceiling [17])
  /\ exists msg, alloc_mpls_label_id (IdPool mpls_ceiling [17])
                 = (Raise (ValueError msg), IdPool mpls_ceiling [17]).
Proof.
  apply (proj1 (alloc_at_ceiling_ignores_recycled 17)).
  unfold mpls_ceiling. lia.
Defined.

(** * Further properties of the Q-value and KSPL tables *)

Lemma q_cell_insert_row (k k' : table_key) (h' : host_address)
    (row : gmap host_address Q) (t : q_table) :
  q_cell k' h' (<[k := row]> t) = if decide (k = k') then row !! h' else q_cell k' h' t.
Proof.
  unfold q_cell. rewrite lookup_insert. by destruct (decide (k = k')).
Qed.

Lemma kspl_cell_insert_row (k k' : table_key) (h' : host_address)
    (row : gmap host_address (option Z)) (t : kspl_table) :
  kspl_cell k' h' (<[k := row]> t)
  = if decide (k = k') then row !! h' else kspl_cell k' h' t.
Proof.
  unfold kspl_cell. rewrite lookup_insert. by destruct (decide (k = k')).
Qed.

Lemma get_q_value_fst (k : table_key) (h : host_address) (t : q_table) :
  (get_q_value k h t).1 = q_read k h t.
Proof.
  unfold get_q_value, q_read, q_cell; simpl.
  destruct (t !! k) as [row|] eqn:Ek; simpl.
  - destruct (row !! h) as [v|] eqn:Eh; simpl.
    + by rewrite Ek; simpl; rewrite Eh.
    + by rewrite lookup_insert_eq; simpl; rewrite lookup_insert_eq.
  - by rewrite lookup_insert_eq; simpl; rewrite lookup_singleton_eq.
Qed.

Lemma get_q_value_q_read (k k' : table_key) (h h' : host_address) (t : q_table) :
  q_read k' h' (get_q_value k h t).2 = q_read k' h' t.
Proof.
  unfold q_read. unfold get_q_value; simpl.
  destruct (t !! k) as [row|] eqn:Ek.
  - destruct (row !! h) as [v|] eqn:Eh; [done|].
    rewrite q_cell_insert_row. destruct (decide (k = k')) as [<-|]; [|done].
    unfold q_cell. rewrite Ek. simpl. rewrite lookup_insert.
    destruct (decide (h = h')) as [<-|]; [|done]. by rewrite Eh.
  - rewrite q_cell_insert_row. destruct (decide (k = k')) as [<-|]; [|done].
    unfold q_cell. rewrite Ek. simpl. rewrite lookup_singleton.
    by destruct (decide (h = h')).
Qed.

(** X7: [get_q_value] returns the stored value, or 0 for a cell that was
    never written, and although it may add the cell to the table it does
    not change what any later [get_q_value], of this or another cell,
    returns. *)
Theorem get_q_value_reads_only (k k' : table_key) (h h' : host_address) (t : q_table) :
  (get_q_value k h t).1 = default 0%Q (q_cell k h t)
  /\ (get_q_value k' h' (get_q_value k h t).2).1 = (get_q_value k' h' t).1.
Proof.
  split; [apply get_q_value_fst|].
  rewrite !get_q_value_fst. apply get_q_value_q_read.
Qed.

(** X8: [set_q_value] stores into a cell that does not exist yet and is
    without effect otherwise: no cell that holds a value is changed, and
    no cell other than the one named is created. *)
Theorem set_q_value_inserts_if_absent (k k' : table_key) (h h' : host_address)
    (v : Q) (t : q_table) :
  q_cell k' h' (set_q_value k h v t)
  = match q_cell k' h' t with
    | Some old => Some old
    | None => if decide (k = k' /\ h = h') then Some v else None
    end.
Proof.
  unfold set_q_value.
  destruct (t !! k) as [row|] eqn:Ek.
  - destruct (row !! h) as [old|] eqn:Eh.
    + destruct (q_cell k' h' t) eqn:E; [done|].
      case_decide as Hd; [|done]. destruct Hd as [<- <-].
      unfold q_cell in E. rewrite Ek in E. simpl in E. congruence.
    + rewrite q_cell_insert_row. destruct (decide (k = k')) as [<-|Hne].
      * unfold q_cell. rewrite Ek. simpl. rewrite lookup_insert.
        destruct (decide (h = h')) as [<-|Hneh].
        -- rewrite Eh. by rewrite decide_True.
        -- destruct (row !! h'); [done|]. rewrite decide_False; [done|]. by intros [_ ?].
      * destruct (q_cell k' h' t); [done|]. rewrite decide_False; [done|]. by intros [? _].
  - rewrite q_cell_insert_row. destruct (decide (k = k')) as [<-|Hne].
    + unfold q_cell. rewrite Ek. simpl. rewrite lookup_singleton.
      destruct (decide (h = h')) as [<-|Hneh].
      * by rewrite decide_True.
      * rewrite decide_False; [done|]. by intros [_ ?].
    + destruct (q_cell k' h' t); [done|]. rewrite decide_False; [done|]. by intros [? _].
Qed.

(** X9: [set_known_shortest_path] overwrites: the cell named holds the
    new length whatever it held before, every other cell is as it was, and
    the [get_known_shortest_path] that follows returns the new length
    without changing the table. *)
Theorem set_known_shortest_path_overwrites (k k' : table_key) (h h' : host_address)
    (n : Z) (t : kspl_table) :
  kspl_cell k' h' (set_known_shortest_path k h n t)
  = (if decide (k = k' /\ h = h') then Some (Some n) else kspl_cell k' h' t)
  /\ get_known_shortest_path k h (set_known_shortest_path k h n t)
     = (Some n, set_known_shortest_path k h n t).
Proof.
  split; [|apply get_known_shortest_path_present, set_known_shortest_path_cell].
  unfold set_known_shortest_path.
  destruct (t !! k) as [row|] eqn:Ek; rewrite kspl_cell_insert_row.
  - destruct (decide (k = k')) as [<-|Hne].
    + rewrite lookup_insert. destruct (decide (h = h')) as [<-|Hneh].
      * by rewrite decide_True.
      * rewrite decide_False by (by intros [_ ?]). unfold kspl_cell. by rewrite Ek.
    + by rewrite decide_False by (by intros [? _]).
  - destruct (decide (k = k')) as [<-|Hne].
    + rewrite lookup_singleton. destruct (decide (h = h')) as [<-|Hneh].
      * by rewrite decide_True.
      * rewrite decide_False by (by intros [_ ?]). unfold kspl_cell. by rewrite Ek.
    + by rewrite decide_False by (by intros [? _]).
Qed.

(** X10: [get_known_shortest_path] returns [None] for a cell that was
    never written and the stored length otherwise; it may add the cell, but
    what any later read of this or another cell returns is not changed. *)
Theorem get_known_shortest_path_reads_only (k k' : table_key) (h h' : host_address)
    (t : kspl_table) :
  (get_known_shortest_path k h t).1 = default None (kspl_cell k h t)
  /\ kspl_read k' h' (get_known_shortest_path k h t).2 = kspl_read k' h' t.
Proof.
  assert (Hval : (get_known_shortest_path k h t).1 = kspl_read k h t).
  { unfold get_known_shortest_path, kspl_read, kspl_cell; simpl.
    destruct (t !! k) as [row|] eqn:Ek; simpl.
    - rewrite Ek. simpl. destruct (row !! h) as [v|] eqn:Eh; simpl.
      + by rewrite Ek; simpl; rewrite Eh.
      + by rewrite lookup_insert_eq; simpl; rewrite lookup_insert_eq.
    - rewrite lookup_insert_eq. simpl. rewrite lookup_singleton_eq.
      rewrite lookup_insert_eq. simpl. by rewrite lookup_singleton_eq. }
  split; [done|].
  - unfold kspl_read. unfold get_known_shortest_path; simpl.
    destruct (t !! k) as [row|] eqn:Ek; simpl.
    + rewrite Ek. simpl. destruct (row !! h) as [v|] eqn:Eh; [done|].
      rewrite kspl_cell_insert_row. destruct (decide (k = k')) as [<-|]; [|done].
      unfold kspl_cell. rewrite Ek. simpl. rewrite lookup_insert.
      destruct (decide (h = h')) as [<-|]; [|done]. by rewrite Eh.
    + rewrite lookup_insert_eq. simpl. rewrite lookup_singleton_eq.
      rewrite kspl_cell_insert_row. destruct (decide (k = k')) as [<-|]; [|done].
      unfold kspl_cell. rewrite Ek. simpl. rewrite lookup_singleton.
      by destruct (decide (h = h')).
Qed.

(** * The token of an activation *)

Section TaskGuard.
Context {X : Type}.

Local Abbreviation state := (controller_state X).

(** X12: a token that [register_implementation_task] has registered makes a
    second registration of the same search in the same class raise
    [ImplementationTaskExists], and its release puts the controller state
    back exactly as it was before the registration. *)
Theorem register_release_round_trip (g : gpsid) (l3 l4 : string) (st st1 : state) :
  register_implementation_task g l3 l4 st = (Ok tt, st1) ->
  register_implementation_task g l3 l4 st1 = (Raise ImplementationTaskExists, st1)
  /\ release_implementation_task g l3 l4 st1 = st.
Proof.
  unfold register_implementation_task, release_implementation_task.
  destruct (implementation_tasks st !! l3) as [layer|] eqn:E3; [|discriminate].
  destruct (layer !! l4) as [tasks|] eqn:E4; [|discriminate].
  case_bool_decide as Hin; [discriminate|]. intros [= <-]. simpl.
  rewrite !lookup_insert_eq. split.
  - rewrite bool_decide_eq_true_2; [done|]. apply elem_of_union. left.
    by apply elem_of_singleton.
  - destruct st as [q ks t b a m c l w lg]; simpl in *. unfold set_implementation_tasks.
    simpl. f_equal. rewrite insert_insert_eq, insert_insert_eq.
    assert (({[g]} ∪ tasks) ∖ {[g]} = tasks) as ->.
    { apply leibniz_equiv. intros x. rewrite elem_of_difference, elem_of_union,
        elem_of_singleton. split; [intros [[->|?] ?]; done|].
      intros Hx. split; [by right|]. by intros ->. }
    by rewrite (insert_id layer), (insert_id t).
Qed.

End TaskGuard.

Lemma register_release_round_trip_witness :
  exists st1,
    register_implementation_task (req_global_path_search_id demo_request) "IPv4" "ICMP"
      demo_state = (Ok tt, st1)
    /\ release_implementation_task (req_global_path_search_id demo_request) "IPv4" "ICMP" st1
       = demo_state.
Proof.
  destruct (register_implementation_task (req_global_path_search_id demo_request)
              "IPv4" "ICMP" demo_state) as [r st1] eqn:E.
  assert (Hr : r = Ok tt) by (vm_compute in E; by injection E as <- _).
  subst r. exists st1. split; [done|].
  by destruct (register_release_round_trip _ _ _ _ _ E).
Defined.

(** * What a run of the engine leaves alone *)

Lemma allocs_only_trans (p1 p2 p3 : id_pool) :
  allocs_only p1 p2 -> allocs_only p2 p3 -> allocs_only p1 p3.
Proof.
  induction 1 as [|p id p1' p' E _ IH]; [done|].
  intros H. eapply allocs_step; [done|]. by apply IH.
Qed.

(** Allocations alone never lower the counter and only take from the end
    of the recycle list. *)
Lemma allocs_only_monotone (p p' : id_pool) :
  allocs_only p p' ->
  id_counter p <= id_counter p' /\ exists taken, recycled p = recycled p' ++ taken.
Proof.
  induction 1 as [p|p id p1 p' E _ [IH1 [taken IH2]]].
  - split; [lia|]. exists []. by rewrite app_nil_r.
  - unfold alloc_mpls_label_id in E.
    destruct (id_counter p =? 0x100000); [discriminate|].
    destruct (py_pop (recycled p)) as [[x rest]|] eqn:Hpop; injection E as _ <-;
      simpl in *.
    + apply py_pop_spec in Hpop. split; [done|]. exists (taken ++ [x]).
      by rewrite Hpop, IH2, app_assoc.
    + split; [lia|]. by exists taken.
Qed.

Section Quiet.
Context {X : Type} (env : Env X).

Local Abbreviation state := (controller_state X).

Lemma engine_quiet_refl (st : state) : engine_quiet st st.
Proof. split_and!; [done..|apply allocs_none]. Qed.

Lemma engine_quiet_trans (st1 st2 st3 : state) :
  engine_quiet st1 st2 -> engine_quiet st2 st3 -> engine_quiet st1 st3.
Proof.
  intros (H1 & H2 & H3 & H4) (H1' & H2' & H3' & H4'). split_and!.
  - congruence.
  - congruence.
  - intros k h. by rewrite H3', H3.
  - by eapply allocs_only_trans.
Qed.

Lemma quiet_ret {A : Type} (a : A) : quiet (ret a : M state A).
Proof. intros st r st' [= <- <-]. apply engine_quiet_refl. Qed.

Lemma quiet_raise {A : Type} (e : exn) : quiet (raise e : M state A).
Proof. intros st r st' [= <- <-]. apply engine_quiet_refl. Qed.

Lemma quiet_bind {A B : Type} (m : M state A) (k : A -> M state B) :
  quiet m -> (forall a, quiet (k a)) -> quiet (bind m k).
Proof.
  intros Hm Hk st r st' [(a & s1 & H1 & H2)|(e & H1 & _)]%bind_eq.
  - eapply engine_quiet_trans; [by eapply Hm|by eapply Hk].
  - by eapply Hm.
Qed.

Lemma quiet_try_except {A : Type} (m : M state A) (h : exn -> M state A) :
  quiet m -> (forall e, quiet (h e)) -> quiet (try_except m h).
Proof.
  intros Hm Hh st r st' [(a & H1 & _)|(e & s1 & H1 & H2)]%try_except_eq.
  - by eapply Hm.
  - eapply engine_quiet_trans; [by eapply Hm|by eapply Hh].
Qed.

Lemma quiet_globals_get_q_value (key : table_key) (host : host_address) :
  quiet (globals_get_q_value key host : M state Q).
Proof.
  intros st r st'. unfold globals_get_q_value.
  destruct (get_q_value key host (QValues st)) as [v t] eqn:E. intros [= <- <-].
  split_and!; [done..| |apply allocs_none].
  intros k h. simpl. replace t with (get_q_value key host (QValues st)).2 by (by rewrite E).
  apply get_q_value_q_read.
Qed.

(** The Q-value update as the engine writes it: a read of the cell, then
    the write of the new value into the same cell. *)
Lemma quiet_q_update {B : Type} (key : table_key) (host : host_address)
    (F : Q -> Q) (K : Q -> M state B) :
  (forall old, quiet (K old)) ->
  quiet (bind (globals_get_q_value key host)
           (fun old => bind (globals_set_q_value key host (F old)) (fun _ => K old))).
Proof.
  intros HK st r st'. unfold bind at 1. unfold globals_get_q_value.
  pose proof (get_q_value_q_read key) as Hread.
  pose proof (set_q_value_after_get key host) as Hset.
  destruct (get_q_value key host (QValues st)) as [v t] eqn:E.
  unfold bind, globals_set_q_value. simpl.
  specialize (Hset (F v) (QValues st)). rewrite E in Hset. simpl in Hset. rewrite Hset.
  intros HKrun. eapply engine_quiet_trans; [|by eapply HK].
  split_and!; [done..| |apply allocs_none].
  intros k h. simpl. specialize (Hread k host h (QValues st)). by rewrite E in Hread.
Qed.

Lemma quiet_globals_get_known_shortest_path (key : table_key) (host : host_address) :
  quiet (globals_get_known_shortest_path key host : M state (option Z)).
Proof.
  intros st r st'. unfold globals_get_known_shortest_path.
  destruct (get_known_shortest_path key host (kspl st)). intros [= <- <-].
  split_and!; [done..|apply allocs_none].
Qed.

Lemma quiet_globals_set_known_shortest_path (key : table_key) (host : host_address)
    (n : Z) :
  quiet (globals_set_known_shortest_path key host n : M state unit).
Proof. intros st r st' [= <- <-]. split_and!; [done..|apply allocs_none]. Qed.

Lemma quiet_globals_alloc_mpls_label_id :
  quiet (globals_alloc_mpls_label_id : M state Z).
Proof.
  intros st r st'. unfold globals_alloc_mpls_label_id.
  destruct (alloc_mpls_label_id (mpls_labels st)) as [[id|e] p] eqn:E; intros [= <- <-].
  - split_and!; [done..|]. simpl. eapply allocs_step; [done|apply allocs_none].
  - split_and!; [done..|]. simpl. unfold alloc_mpls_label_id in E.
    destruct (id_counter (mpls_labels st) =? 0x100000).
    + injection E as _ <-. apply allocs_none.
    + destruct (py_pop (recycled (mpls_labels st))) as [[? ?]|]; discriminate.
Qed.

Lemma quiet_globals_get_hash_val (switch_id port_id : Z) :
  quiet (globals_get_hash_val switch_id port_id : M state Z).
Proof. intros st r st' [= <- <-]. split_and!; [done..|apply allocs_none]. Qed.

Lemma quiet_lift_world {A : Type} (f : X -> outcome A * X) : quiet (lift_world f).
Proof.
  intros st r st'. unfold lift_world. destruct (f (world st)). intros [= <- <-].
  split_and!; [done..|apply allocs_none].
Qed.

Lemma quiet_query_world {A : Type} (f : X -> outcome A) : quiet (query_world f).
Proof. intros st r st' [= <- <-]. split_and!; [done..|apply allocs_none]. Qed.

Lemma quiet_lift_footprint {A : Type}
    (f : service_footprint X -> outcome A * service_footprint X) :
  quiet (lift_footprint f).
Proof.
  intros st r st'. unfold lift_footprint. destruct (f _). intros [= <- <-].
  split_and!; [done..|apply allocs_none].
Qed.

Lemma quiet_set_active_scenario (g : gpsid) (record : list Z * list Z) :
  quiet (set_active_scenario g record : M state unit).
Proof.
  intros st r st'. unfold set_active_scenario.
  destruct (active_scenarios st !! g); intros [= <- <-];
    (split_and!; [done..|apply allocs_none]).
Qed.

Lemma quiet_log_rpc (ev : rpc_event) : quiet (log_rpc ev : M state unit).
Proof. intros st r st' [= <- <-]. split_and!; [done..|apply allocs_none]. Qed.

Lemma quiet_py_assert (cond : bool) (msg : string) : quiet (py_assert env cond msg).
Proof. unfold py_assert. destruct (_ && _); [apply quiet_raise|apply quiet_ret]. Qed.

Lemma quiet_remove_selected {A : Type} `{EqDecision A} (x : A) (xs : list A) :
  quiet (remove_selected x xs : M state (list A)).
Proof.
  unfold remove_selected. destruct (py_list_remove x xs); [apply quiet_ret|apply quiet_raise].
Qed.

Lemma quiet_never_used {A : Type} (key : A -> table_key) (target : host_address)
    (xs : list A) :
  quiet (never_used key target xs : M state (list A)).
Proof.
  induction xs as [|x xs IH]; simpl; [apply quiet_ret|].
  apply quiet_bind; [apply quiet_globals_get_q_value|intros v].
  apply quiet_bind; [done|intros rest]. apply quiet_ret.
Qed.

Lemma quiet_max_by_q_value {A : Type} (key : A -> table_key) (target : host_address)
    (best : A) (best_value : Q) (xs : list A) :
  quiet (max_by_q_value key target best best_value xs : M state A).
Proof.
  revert best best_value. induction xs as [|x xs IH]; intros best best_value; simpl;
    [apply quiet_ret|].
  apply quiet_bind; [apply quiet_globals_get_q_value|intros v].
  destruct (Qle_bool v best_value); apply IH.
Qed.

Lemma quiet_select_by_q_value {A : Type} (key : A -> table_key) (target : host_address)
    (xs : list A) :
  quiet (select_by_q_value key target xs : M state A).
Proof.
  unfold select_by_q_value.
  apply quiet_bind; [apply quiet_never_used|intros unused].
  destruct unused; [|apply quiet_ret].
  destruct xs; [apply quiet_raise|].
  apply quiet_bind; [apply quiet_globals_get_q_value|intros v].
  apply quiet_max_by_q_value.
Qed.

End Quiet.

Ltac quiet_step :=
  first
    [ apply quiet_ret
    | apply quiet_raise
    | apply quiet_globals_get_q_value
    | apply quiet_globals_get_known_shortest_path
    | apply quiet_globals_set_known_shortest_path
    | apply quiet_globals_alloc_mpls_label_id
    | apply quiet_globals_get_hash_val
    | apply quiet_lift_world
    | apply quiet_query_world
    | apply quiet_lift_footprint
    | apply quiet_set_active_scenario
    | apply quiet_log_rpc
    | apply quiet_py_assert
    | apply quiet_remove_selected
    | apply quiet_select_by_q_value
    | apply quiet_bind; [|intros ?]
    | apply quiet_try_except; [|intros ?]
    | match goal with
      | |- quiet (if ?b then _ else _) => destruct b
      | |- quiet (match ?x with _ => _ end) => destruct x
      end ].

Ltac solve_quiet := repeat quiet_step.

Section QuietEngine.
Context {X : Type} (env : Env X).

Local Abbreviation state := (controller_state X).

Lemma quiet_request_activation (b : bool) (key : table_key) (peer : Z) (g : gpsid)
    (label sw port : Z) :
  quiet (request_activation env b key peer g label sw port).
Proof. unfold request_activation. solve_quiet. Qed.

Lemma quiet_on_peer_failure (key : table_key) (q_target : host_address)
    (res : activation_result) :
  quiet (on_peer_failure key q_target res : M state unit).
Proof.
  unfold on_peer_failure.
  apply (quiet_q_update key q_target
           (fun old => calculate_new_qvalue old (forward_q_value res) (-1))
           (fun _ => match ar_reason res with Some _ => ret tt | None => raise KeyError end)).
  intros _. solve_quiet.
Qed.

Lemma quiet_on_peer_success (key : table_key) (q_target : host_address) (target : Z)
    (res : activation_result) (p : path) :
  quiet (on_peer_success env key q_target target res p).
Proof.
  unfold on_peer_success.
  apply quiet_bind; [solve_quiet|intros k0].
  apply quiet_bind; [solve_quiet|intros n].
  apply quiet_bind; [solve_quiet|intros _].
  apply quiet_bind; [solve_quiet|intros k1].
  apply quiet_bind; [solve_quiet|intros _].
  apply quiet_bind; [solve_quiet|intros reward].
  apply (quiet_q_update key q_target
           (fun old => calculate_new_qvalue old (forward_q_value res) reward)
           (fun old => ret (calculate_new_qvalue old (forward_q_value res) reward, n))).
  intros old. apply quiet_ret.
Qed.

Lemma quiet_both_sectors (p : path) : quiet (both_sectors env p).
Proof. unfold both_sectors. solve_quiet. Qed.

Lemma quiet_other_adjacent_sectors (req : scenario_request) :
  quiet (other_adjacent_sectors env req).
Proof. unfold other_adjacent_sectors. solve_quiet. Qed.

Lemma quiet_gather_links (sectors : list Z) : quiet (gather_links env sectors).
Proof.
  induction sectors as [|s r IH]; simpl; [apply quiet_ret|].
  apply quiet_bind; [solve_quiet|intros edges].
  apply quiet_bind; [done|intros rest]. apply quiet_ret.
Qed.

Ltac solve_quiet' :=
  repeat first
    [ apply quiet_request_activation
    | apply quiet_on_peer_failure
    | apply quiet_on_peer_success
    | apply quiet_both_sectors
    | apply quiet_other_adjacent_sectors
    | apply quiet_gather_links
    | quiet_step ].

Lemma quiet_icmp_target_local (req : scenario_request) (info : host_info) :
  quiet (icmp_target_local env req info).
Proof. unfold icmp_target_local. solve_quiet'. Qed.

Lemma quiet_ipv4_target_local (req : scenario_request) (info : host_info) :
  quiet (ipv4_target_local env req info).
Proof. unfold ipv4_target_local. solve_quiet'. Qed.

Lemma quiet_icmp_adjacent_path_loop (fuel : nat) (req : scenario_request) (owner : Z)
    (links : list edge) :
  quiet (icmp_adjacent_path_loop env fuel req owner links).
Proof.
  revert links. induction fuel as [|fuel IH]; intros [|l links]; simpl;
    solve_quiet'; apply IH.
Qed.

Lemma quiet_icmp_target_adjacent (req : scenario_request) (info : host_info) :
  quiet (icmp_target_adjacent env req info).
Proof.
  unfold icmp_target_adjacent.
  apply quiet_bind; [solve_quiet|intros links0].
  apply quiet_bind; [apply quiet_icmp_adjacent_path_loop|intros found].
  solve_quiet'.
Qed.

Lemma quiet_icmp_explore_loop (fuel : nat) (req : scenario_request) (links : list link) :
  quiet (icmp_explore_loop env fuel req links).
Proof.
  revert links. induction fuel as [|fuel IH]; intros [|l links]; simpl;
    try solve [solve_quiet].
  apply quiet_bind; [solve_quiet|intros sel].
  apply quiet_bind; [solve_quiet|intros links'].
  apply quiet_bind; [solve_quiet|intros found].
  destruct found as [p|]; [|apply IH].
  apply quiet_bind; [solve_quiet|intros _].
  apply quiet_bind; [solve_quiet|intros label].
  apply quiet_bind; [apply quiet_request_activation|intros res].
  destruct (ar_success res); [solve_quiet'|].
  apply quiet_bind; [apply quiet_on_peer_failure|intros _]. apply IH.
Qed.

Lemma quiet_ipv4_target_adjacent (req : scenario_request) (info : host_info) :
  quiet (ipv4_target_adjacent env req info).
Proof. unfold ipv4_target_adjacent. solve_quiet'. Qed.

Lemma quiet_ipv4_explore_loop (fuel : nat) (req : scenario_request) (sectors : list Z) :
  quiet (ipv4_explore_loop env fuel req sectors).
Proof.
  revert sectors. induction fuel as [|fuel IH]; intros [|s sectors]; simpl;
    try solve [solve_quiet].
  apply quiet_bind; [solve_quiet|intros sel].
  apply quiet_bind; [solve_quiet|intros sectors'].
  apply quiet_bind; [solve_quiet|intros p].
  apply quiet_bind; [solve_quiet|intros _].
  apply quiet_bind; [solve_quiet|intros label].
  destruct (path_penultimate_hop p) as [[[sw pin] pout]|]; [|solve_quiet].
  apply quiet_bind; [apply quiet_request_activation|intros res].
  destruct (ar_success res); [solve_quiet'|].
  apply quiet_bind; [apply quiet_on_peer_failure|intros _]. apply IH.
Qed.

Lemma quiet_icmp_body (req : scenario_request) (info : host_info) :
  quiet (icmp_body env req info).
Proof.
  unfold icmp_body. destruct (_ =? _); [apply quiet_icmp_target_local|].
  apply quiet_bind; [apply quiet_other_adjacent_sectors|intros adj].
  destruct (_ =? _)%nat; [solve_quiet|].
  case_bool_decide.
  - apply quiet_bind; [apply quiet_icmp_target_adjacent|intros; apply quiet_ret].
  - apply quiet_bind; [apply quiet_gather_links|intros links].
    apply quiet_bind; [apply quiet_icmp_explore_loop|intros; apply quiet_ret].
Qed.

Lemma quiet_ipv4_body (req : scenario_request) (info : host_info) :
  quiet (ipv4_body env req info).
Proof.
  unfold ipv4_body. destruct (_ =? _); [apply quiet_ipv4_target_local|].
  apply quiet_bind; [apply quiet_other_adjacent_sectors|intros adj].
  destruct (_ =? _)%nat; [solve_quiet|].
  case_bool_decide.
  - apply quiet_ipv4_target_adjacent.
  - apply quiet_bind; [apply quiet_ipv4_explore_loop|intros; apply quiet_ret].
Qed.

End QuietEngine.

Section QuietRun.
Context {X : Type} (env : Env X).

Local Abbreviation state := (controller_state X).

Lemma register_implementation_task_fields (g : gpsid) (l3 l4 : string) (st st1 : state)
    (r : outcome unit) :
  register_implementation_task g l3 l4 st = (r, st1) ->
  QValues st1 = QValues st /\ mpls_labels st1 = mpls_labels st
  /\ beacons_hash_table st1 = beacons_hash_table st
  /\ (forall e, r = Raise e -> st1 = st).
Proof.
  unfold register_implementation_task.
  destruct (implementation_tasks st !! l3) as [layer|]; [|by intros [= <- <-]].
  destruct (layer !! l4) as [tasks|]; [|by intros [= <- <-]].
  case_bool_decide; intros [= <- <-]; [done|]. by split_and!.
Qed.

Lemma release_implementation_task_fields (g : gpsid) (l3 l4 : string) (st : state) :
  QValues (release_implementation_task g l3 l4 st) = QValues st
  /\ mpls_labels (release_implementation_task g l3 l4 st) = mpls_labels st
  /\ beacons_hash_table (release_implementation_task g l3 l4 st) = beacons_hash_table st.
Proof.
  unfold release_implementation_task.
  destruct (implementation_tasks st !! l3) as [layer|]; [|done].
  by destruct (layer !! l4) as [tasks|].
Qed.

(** The release of a token undoes its registration whatever happened to
    the rest of the state in between. *)
Lemma release_after_register (g : gpsid) (l3 l4 : string) (st st1 st2 : state) :
  register_implementation_task g l3 l4 st = (Ok tt, st1) ->
  implementation_tasks st2 = implementation_tasks st1 ->
  implementation_tasks (release_implementation_task g l3 l4 st2) = implementation_tasks st.
Proof.
  unfold register_implementation_task, release_implementation_task.
  destruct (implementation_tasks st !! l3) as [layer|] eqn:E3; [|discriminate].
  destruct (layer !! l4) as [tasks|] eqn:E4; [|discriminate].
  case_bool_decide as Hin; [discriminate|]. intros [= <-]. simpl. intros ->.
  rewrite !lookup_insert_eq. simpl. rewrite !insert_insert_eq.
  assert (({[g]} ∪ tasks) ∖ {[g]} = tasks) as ->.
  { apply leibniz_equiv. intros x. rewrite elem_of_difference, elem_of_union,
      elem_of_singleton. split; [intros [[->|?] ?]; done|].
    intros Hx. split; [by right|]. by intros ->. }
  by rewrite (insert_id layer), (insert_id (implementation_tasks st)).
Qed.

Lemma quiet_scenario_handlers (ex : exn) : quiet (scenario_handlers ex : M state _).
Proof. apply quiet_ret. Qed.

Lemma quiet_with_implementation_task (g : gpsid) (l3 l4 : string)
    (body : M state engine_reply) :
  quiet body -> quiet (with_implementation_task g l3 l4 body).
Proof.
  intros Hbody st r st'. unfold with_implementation_task.
  destruct (register_implementation_task g l3 l4 st) as [[[]|ex] st1] eqn:Hreg.
  - destruct (try_except body scenario_handlers st1) as [r2 st2] eqn:Hrun.
    intros [= <- <-].
    assert (Hq : engine_quiet st1 st2).
    { eapply (quiet_try_except body scenario_handlers); [done| |done].
      intros e. apply quiet_scenario_handlers. }
    destruct Hq as (Ht & Hb & Hqv & Hl).
    destruct (register_implementation_task_fields _ _ _ _ _ _ Hreg) as (Rq & Rl & Rb & _).
    destruct (release_implementation_task_fields g l3 l4 st2) as (Lq & Ll & Lb).
    split_and!.
    + by eapply release_after_register.
    + congruence.
    + intros k h. rewrite Lq, Hqv. by rewrite Rq.
    + rewrite Ll. by rewrite <- Rl.
  - destruct (register_implementation_task_fields _ _ _ _ _ _ Hreg) as (_ & _ & _ & Hst).
    rewrite (Hst ex eq_refl). apply quiet_scenario_handlers.
Qed.

Lemma quiet_activate_scenario_reply (req : scenario_request) :
  quiet (activate_scenario_reply env req).
Proof.
  unfold activate_scenario_reply.
  apply quiet_bind; [solve_quiet|intros _].
  apply quiet_bind; [solve_quiet|intros _].
  apply quiet_bind; [solve_quiet|intros info].
  apply quiet_bind; [|intros; apply quiet_ret].
  destruct (_ =? _); [apply quiet_ret|].
  intros st r st'.
  destruct (is_scenario_active _ st); [intros [= <- <-]; apply engine_quiet_refl|].
  destruct (String.eqb _ "ICMPv4").
  { apply quiet_with_implementation_task, quiet_icmp_body. }
  destruct (String.eqb _ "IPv4").
  { apply quiet_with_implementation_task, quiet_ipv4_body. }
  intros [= <- <-]; apply engine_quiet_refl.
Qed.

Lemma quiet_activate_scenario (req : scenario_request) :
  quiet (__activate_scenario env req).
Proof.
  unfold __activate_scenario.
  apply quiet_bind; [apply quiet_activate_scenario_reply|intros; apply quiet_ret].
Qed.

(** X13: whatever [__activate_scenario] replies or raises, the registry of
    implementation tasks is afterwards exactly what it was before the call:
    the task token of the search is released on every way out, and no
    other token is touched. *)
Theorem activate_scenario_releases_task_token (req : scenario_request) (st : state) :
  implementation_tasks (__activate_scenario env req st).2 = implementation_tasks st.
Proof.
  destruct (__activate_scenario env req st) as [r st'] eqn:E.
  by destruct (quiet_activate_scenario req st r st' E) as (H & _).
Qed.

(** X14: whatever [__activate_scenario] does, [get_q_value] answers for
    every sector or edge and every address what it answered before the
    call: each update of the run writes into a cell that the read before
    it has created, where [set_q_value] writes nothing. *)
Theorem activate_scenario_q_values_read_as_before (req : scenario_request) (st : state)
    (key : table_key) (host : host_address) :
  (get_q_value key host (QValues (__activate_scenario env req st).2)).1
  = (get_q_value key host (QValues st)).1.
Proof.
  destruct (__activate_scenario env req st) as [r st'] eqn:E.
  destruct (quiet_activate_scenario req st r st' E) as (_ & _ & H & _).
  rewrite !get_q_value_fst. apply H.
Qed.

(** X15: a run of [__activate_scenario] gives no MPLS label back: the label
    counter does not go down, and the list of recycled labels only loses
    entries from its end, also when the peer refuses and on every error. *)
Theorem activate_scenario_keeps_its_labels (req : scenario_request) (st : state) :
  let st' := (__activate_scenario env req st).2 in
  id_counter (mpls_labels st) <= id_counter (mpls_labels st')
  /\ exists taken, recycled (mpls_labels st) = recycled (mpls_labels st') ++ taken.
Proof.
  destruct (__activate_scenario env req st) as [r st'] eqn:E.
  destruct (quiet_activate_scenario req st r st' E) as (_ & _ & _ & H).
  simpl. by apply allocs_only_monotone.
Qed.

End QuietRun.

(** * Observations that the steps of the engine keep *)

Lemma py_list_remove_sub {A : Type} `{EqDecision A} (x : A) (l r : list A) :
  py_list_remove x l = Some r -> forall y, y ∈ r -> y ∈ l.
Proof.
  revert r. induction l as [|z l IH]; intros r; simpl; [discriminate|].
  destruct (decide (x = z)); [intros [= <-] y Hy; by right|].
  destruct (py_list_remove x l) as [r'|]; [|discriminate].
  intros [= <-] y [->|Hy]%elem_of_cons; [left|right; by apply (IH r')].
Qed.

Lemma py_list_remove_gone {A : Type} `{EqDecision A} (x : A) (l r : list A) :
  NoDup l -> py_list_remove x l = Some r -> (x ∉ r) /\ NoDup r.
Proof.
  revert r. induction l as [|z l IH]; intros r Hnd; simpl; [discriminate|].
  apply NoDup_cons in Hnd as [Hz Hnd].
  destruct (decide (x = z)) as [->|Hne]; [by intros [= <-]|].
  destruct (py_list_remove x l) as [r'|] eqn:E; [|discriminate].
  intros [= <-]. destruct (IH r' Hnd eq_refl) as [Hx Hr]. split.
  - intros [->|?]%elem_of_cons; done.
  - apply NoDup_cons. split; [|done]. intros Hin. apply Hz.
    by apply (py_list_remove_sub x l r').
Qed.

Section Keeps.
Context {X : Type} (env : Env X) {F : Type} (f : controller_state X -> F).
Hypothesis Hf : engine_blind f.

Local Abbreviation state := (controller_state X).

Lemma keeps_ret {A : Type} (a : A) : keeps f (ret a : M state A).
Proof. by intros st r st' [= <- <-]. Qed.

Lemma keeps_raise {A : Type} (e : exn) : keeps f (raise e : M state A).
Proof. by intros st r st' [= <- <-]. Qed.

Lemma keeps_bind {A B : Type} (m : M state A) (k : A -> M state B) :
  keeps f m -> (forall a, keeps f (k a)) -> keeps f (bind m k).
Proof.
  intros Hm Hk st r st' [(a & s1 & H1 & H2)|(e & H1 & _)]%bind_eq.
  - rewrite (Hk _ _ _ _ H2). by eapply Hm.
  - by eapply Hm.
Qed.

Lemma keeps_try_except {A : Type} (m : M state A) (h : exn -> M state A) :
  keeps f m -> (forall e, keeps f (h e)) -> keeps f (try_except m h).
Proof.
  intros Hm Hh st r st' [(a & H1 & _)|(e & s1 & H1 & H2)]%try_except_eq.
  - by eapply Hm.
  - rewrite (Hh _ _ _ _ H2). by eapply Hm.
Qed.

Lemma keeps_globals_get_q_value (key : table_key) (host : host_address) :
  keeps f (globals_get_q_value key host : M state Q).
Proof.
  intros st r st'. unfold globals_get_q_value.
  destruct (get_q_value key host (QValues st)). intros [= <- <-]. apply Hf.
Qed.

Lemma keeps_globals_set_q_value (key : table_key) (host : host_address) (v : Q) :
  keeps f (globals_set_q_value key host v : M state unit).
Proof. intros st r st' [= <- <-]. apply Hf. Qed.

Lemma keeps_globals_get_known_shortest_path (key : table_key) (host : host_address) :
  keeps f (globals_get_known_shortest_path key host : M state (option Z)).
Proof.
  intros st r st'. unfold globals_get_known_shortest_path.
  destruct (get_known_shortest_path key host (kspl st)). intros [= <- <-]. apply Hf.
Qed.

Lemma keeps_globals_set_known_shortest_path (key : table_key) (host : host_address)
    (n : Z) :
  keeps f (globals_set_known_shortest_path key host n : M state unit).
Proof. intros st r st' [= <- <-]. apply Hf. Qed.

Lemma keeps_globals_alloc_mpls_label_id : keeps f (globals_alloc_mpls_label_id : M state Z).
Proof.
  intros st r st'. unfold globals_alloc_mpls_label_id.
  destruct (alloc_mpls_label_id (mpls_labels st)). intros [= <- <-]. apply Hf.
Qed.

Lemma keeps_globals_get_hash_val (switch_id port_id : Z) :
  keeps f (globals_get_hash_val switch_id port_id : M state Z).
Proof. by intros st r st' [= <- <-]. Qed.

Lemma keeps_lift_world {A : Type} (g : X -> outcome A * X) : keeps f (lift_world g).
Proof.
  intros st r st'. unfold lift_world. destruct (g (world st)). intros [= <- <-]. apply Hf.
Qed.

Lemma keeps_query_world {A : Type} (g : X -> outcome A) : keeps f (query_world g).
Proof. by intros st r st' [= <- <-]. Qed.

Lemma keeps_lift_footprint {A : Type}
    (g : service_footprint X -> outcome A * service_footprint X) :
  keeps f (lift_footprint g).
Proof.
  intros st r st'. unfold lift_footprint. destruct (g _). intros [= <- <-].
  by rewrite (blind_mapped_services f Hf), (blind_cookie_ids f Hf), (blind_world f Hf).
Qed.

Lemma keeps_py_assert (cond : bool) (msg : string) : keeps f (py_assert env cond msg).
Proof. unfold py_assert. destruct (_ && _); [apply keeps_raise|apply keeps_ret]. Qed.

Lemma keeps_remove_selected {A : Type} `{EqDecision A} (x : A) (xs : list A) :
  keeps f (remove_selected x xs : M state (list A)).
Proof.
  unfold remove_selected. destruct (py_list_remove x xs); [apply keeps_ret|apply keeps_raise].
Qed.

Lemma keeps_never_used {A : Type} (key : A -> table_key) (target : host_address)
    (xs : list A) :
  keeps f (never_used key target xs : M state (list A)).
Proof.
  induction xs as [|x xs IH]; simpl; [apply keeps_ret|].
  apply keeps_bind; [apply keeps_globals_get_q_value|intros v].
  apply keeps_bind; [done|intros rest]. apply keeps_ret.
Qed.

Lemma keeps_max_by_q_value {A : Type} (key : A -> table_key) (target : host_address)
    (best : A) (best_value : Q) (xs : list A) :
  keeps f (max_by_q_value key target best best_value xs : M state A).
Proof.
  revert best best_value. induction xs as [|x xs IH]; intros best best_value; simpl;
    [apply keeps_ret|].
  apply keeps_bind; [apply keeps_globals_get_q_value|intros v].
  destruct (Qle_bool v best_value); apply IH.
Qed.

Lemma keeps_select_by_q_value {A : Type} (key : A -> table_key) (target : host_address)
    (xs : list A) :
  keeps f (select_by_q_value key target xs : M state A).
Proof.
  unfold select_by_q_value.
  apply keeps_bind; [apply keeps_never_used|intros unused].
  destruct unused; [|apply keeps_ret].
  destruct xs; [apply keeps_raise|].
  apply keeps_bind; [apply keeps_globals_get_q_value|intros v].
  apply keeps_max_by_q_value.
Qed.

Ltac keeps_step :=
  first
    [ apply keeps_ret
    | apply keeps_raise
    | apply keeps_globals_get_q_value
    | apply keeps_globals_set_q_value
    | apply keeps_globals_get_known_shortest_path
    | apply keeps_globals_set_known_shortest_path
    | apply keeps_globals_alloc_mpls_label_id
    | apply keeps_globals_get_hash_val
    | apply keeps_lift_world
    | apply keeps_query_world
    | apply keeps_lift_footprint
    | apply keeps_py_assert
    | apply keeps_remove_selected
    | apply keeps_select_by_q_value
    | apply keeps_bind; [|intros ?]
    | apply keeps_try_except; [|intros ?]
    | match goal with
      | |- keeps _ (if ?b then _ else _) => destruct b
      | |- keeps _ (match ?x with _ => _ end) => destruct x
      end ].

Lemma keeps_on_peer_success (key : table_key) (q_target : host_address) (target : Z)
    (res : activation_result) (p : path) :
  keeps f (on_peer_success env key q_target target res p).
Proof. unfold on_peer_success. repeat keeps_step. Qed.

Lemma keeps_on_peer_failure (key : table_key) (q_target : host_address)
    (res : activation_result) :
  keeps f (on_peer_failure key q_target res : M state unit).
Proof. unfold on_peer_failure. repeat keeps_step. Qed.

Lemma keeps_both_sectors (p : path) : keeps f (both_sectors env p).
Proof. unfold both_sectors. repeat keeps_step. Qed.

Lemma keeps_other_adjacent_sectors (req : scenario_request) :
  keeps f (other_adjacent_sectors env req).
Proof. unfold other_adjacent_sectors. repeat keeps_step. Qed.

Lemma keeps_gather_links (sectors : list Z) : keeps f (gather_links env sectors).
Proof.
  induction sectors as [|s r IH]; simpl; [apply keeps_ret|].
  apply keeps_bind; [repeat keeps_step|intros edges].
  apply keeps_bind; [done|intros rest]. apply keeps_ret.
Qed.

Lemma keeps_icmp_adjacent_path_loop (fuel : nat) (req : scenario_request) (owner : Z)
    (links : list edge) :
  keeps f (icmp_adjacent_path_loop env fuel req owner links).
Proof.
  revert links. induction fuel as [|fuel IH]; intros [|l links]; simpl;
    repeat keeps_step; apply IH.
Qed.

Lemma keeps_log_rpc (ev : rpc_event) :
  (forall st l, f (set_rpc_log st l) = f st) -> keeps f (log_rpc ev : M state unit).
Proof. intros Hlog st r st' [= <- <-]. apply Hlog. Qed.

Lemma keeps_request_activation (b : bool) (key : table_key) (peer : Z) (g : gpsid)
    (label sw port : Z) :
  (forall st l, f (set_rpc_log st l) = f st) ->
  keeps f (request_activation env b key peer g label sw port).
Proof.
  intros Hlog. unfold request_activation.
  apply keeps_bind; [repeat keeps_step|intros _].
  apply keeps_bind; [repeat keeps_step|intros res].
  apply keeps_bind; [by apply keeps_log_rpc|intros _]. apply keeps_ret.
Qed.

Lemma keeps_set_active_scenario (g : gpsid) (record : list Z * list Z) :
  (forall st t, f (set_active_scenarios st t) = f st) ->
  keeps f (set_active_scenario g record : M state unit).
Proof.
  intros Hact st r st'. unfold set_active_scenario.
  destruct (active_scenarios st !! g); intros [= <- <-]; [done|apply Hact].
Qed.

End Keeps.

Lemma active_scenarios_blind {X : Type} : engine_blind (@active_scenarios X).
Proof. by split. Qed.

Lemma rpc_log_blind {X : Type} : engine_blind (@rpc_log X).
Proof. by split. Qed.

Ltac keeps_side :=
  match goal with
  | |- engine_blind _ => first [assumption | by split]
  | |- forall _ _, _ = _ => done
  end.

Ltac keeps_go :=
  first
    [ apply keeps_ret
    | apply keeps_raise
    | apply keeps_request_activation
    | apply keeps_on_peer_success
    | apply keeps_on_peer_failure
    | apply keeps_both_sectors
    | apply keeps_other_adjacent_sectors
    | apply keeps_gather_links
    | apply keeps_icmp_adjacent_path_loop
    | apply keeps_set_active_scenario
    | apply keeps_log_rpc
    | apply keeps_globals_get_q_value
    | apply keeps_globals_set_q_value
    | apply keeps_globals_get_known_shortest_path
    | apply keeps_globals_set_known_shortest_path
    | apply keeps_globals_alloc_mpls_label_id
    | apply keeps_globals_get_hash_val
    | apply keeps_lift_world
    | apply keeps_query_world
    | apply keeps_lift_footprint
    | apply keeps_py_assert
    | apply keeps_remove_selected
    | apply keeps_select_by_q_value
    | apply keeps_bind; [|intros ?]
    | apply keeps_try_except; [|intros ?]
    | match goal with
      | |- keeps _ (if ?b then _ else _) => destruct b
      | |- keeps _ (match ?x with _ => _ end) => destruct x
      end ];
  try keeps_side.

Ltac solve_keeps := solve [repeat keeps_go].

(** * A success is recorded, a refusal is not *)

Section Recorded.
Context {X : Type} (env : Env X).
Implicit Types (g : gpsid) (requester : Z).

Local Abbreviation state := (controller_state X).

Lemma records_raise g requester {A : Type} (reply_of : A -> engine_reply) (e : exn) :
  records g requester reply_of (raise e : M state A).
Proof. by intros st r st' [= <- <-]. Qed.

Lemma records_refused g requester {A : Type} (reply_of : A -> engine_reply) (a : A) (why : refusal) :
  reply_of a = Refused why -> records g requester reply_of (ret a : M state A).
Proof. intros Hr st r st' [= <- <-]. unfold recorded_as. by rewrite Hr. Qed.

Lemma records_bind g requester {A B : Type} (reply_of : B -> engine_reply) (m : M state A)
    (k : A -> M state B) :
  keeps active_scenarios m -> (forall a, records g requester reply_of (k a)) ->
  records g requester reply_of (bind m k).
Proof.
  intros Hm Hk st r st' [(a & s1 & H1 & H2)|(e & H1 & ->)]%bind_eq.
  - specialize (Hk _ _ _ _ H2). pose proof (Hm _ _ _ H1) as E.
    destruct r as [b|]; [|congruence]. unfold recorded_as in *.
    destruct (reply_of b); by rewrite <- E.
  - by eapply Hm.
Qed.

Lemma records_finish g requester {A : Type} (reply_of : A -> engine_reply) (a : A) (service : Z)
    (peers : list Z) (q_value : Q) (path_length : Z) :
  reply_of a = Activated q_value path_length -> (length peers <= 1)%nat ->
  records g requester reply_of
    (bind (set_active_scenario g ([service], requester :: peers))
       (fun _ => ret a) : M state A).
Proof.
  intros Hr Hlen st r st'. unfold bind, set_active_scenario.
  destruct (active_scenarios st !! g) eqn:E; intros [= <- <-]; [done|].
  unfold recorded_as. rewrite Hr. split; [done|]. by exists service, peers.
Qed.

Lemma records_reply g requester {A : Type} (reply_of : A -> engine_reply) (m : M state A) :
  records g requester reply_of m ->
  records g requester (fun r => r) (bind m (fun a => ret (reply_of a))).
Proof.
  intros Hm st r st' [(a & s1 & H1 & [= <- <-])|(e & H1 & ->)]%bind_eq.
  - apply (Hm _ _ _ H1).
  - apply (Hm _ _ _ H1).
Qed.

Lemma records_wrap g requester {A B : Type} (reply_of : A -> engine_reply)
    (reply_of' : B -> engine_reply) (h : A -> B) (m : M state A) :
  (forall a, reply_of' (h a) = reply_of a) ->
  records g requester reply_of m ->
  records g requester reply_of' (bind m (fun a => ret (h a))).
Proof.
  intros Hh Hm st r st' [(a & s1 & H1 & [= <- <-])|(e & H1 & ->)]%bind_eq.
  - rewrite Hh. apply (Hm _ _ _ H1).
  - apply (Hm _ _ _ H1).
Qed.

Ltac records_step :=
  first
    [ apply records_raise
    | eapply records_refused; reflexivity
    | eapply records_finish; [reflexivity|simpl; lia]
    | apply records_bind; [solve_keeps|intros ?]
    | match goal with
      | |- records _ _ _ (if ?b then _ else _) => destruct b
      | |- records _ _ _ (match ?x with _ => _ end) => destruct x
      end ].


Lemma records_icmp_target_local (req : scenario_request) (info : host_info) :
  records (req_global_path_search_id req) (req_sector_requesting_service req) (fun r => r) (icmp_target_local env req info).
Proof. unfold icmp_target_local. repeat records_step. Qed.

Lemma records_ipv4_target_local (req : scenario_request) (info : host_info) :
  records (req_global_path_search_id req) (req_sector_requesting_service req) (fun r => r) (ipv4_target_local env req info).
Proof. unfold ipv4_target_local. repeat records_step. Qed.

Lemma records_icmp_target_adjacent (req : scenario_request) (info : host_info) :
  records (req_global_path_search_id req) (req_sector_requesting_service req) fst (icmp_target_adjacent env req info).
Proof. unfold icmp_target_adjacent. repeat records_step. Qed.

Lemma records_ipv4_target_adjacent (req : scenario_request) (info : host_info) :
  records (req_global_path_search_id req) (req_sector_requesting_service req) (fun r => r) (ipv4_target_adjacent env req info).
Proof. unfold ipv4_target_adjacent. repeat records_step. Qed.

Lemma records_icmp_explore_loop (fuel : nat) (req : scenario_request) (links : list link) :
  records (req_global_path_search_id req) (req_sector_requesting_service req) fst (icmp_explore_loop env fuel req links).
Proof.
  revert links. induction fuel as [|fuel IH]; intros [|l links]; simpl;
    repeat records_step; apply IH.
Qed.

Lemma records_ipv4_explore_loop (fuel : nat) (req : scenario_request) (sectors : list Z) :
  records (req_global_path_search_id req) (req_sector_requesting_service req) fst (ipv4_explore_loop env fuel req sectors).
Proof.
  revert sectors. induction fuel as [|fuel IH]; intros [|s sectors]; simpl;
    repeat records_step; apply IH.
Qed.

Lemma records_icmp_body (req : scenario_request) (info : host_info) :
  records (req_global_path_search_id req) (req_sector_requesting_service req) (fun r => r) (icmp_body env req info).
Proof.
  unfold icmp_body.
  destruct (_ =? _); [by apply records_icmp_target_local|].
  apply records_bind; [solve_keeps|intros adj].
  destruct (_ =? _)%nat; [by eapply records_refused|].
  case_bool_decide.
  - apply (records_reply _ _ fst). by apply records_icmp_target_adjacent.
  - apply records_bind; [solve_keeps|intros links].
    apply (records_reply _ _ fst). by apply records_icmp_explore_loop.
Qed.

Lemma records_ipv4_body (req : scenario_request) (info : host_info) :
  records (req_global_path_search_id req) (req_sector_requesting_service req) (fun r => r) (ipv4_body env req info).
Proof.
  unfold ipv4_body.
  destruct (_ =? _); [by apply records_ipv4_target_local|].
  apply records_bind; [solve_keeps|intros adj].
  destruct (_ =? _)%nat; [by eapply records_refused|].
  case_bool_decide.
  - by apply records_ipv4_target_adjacent.
  - apply (records_reply _ _ fst). by apply records_ipv4_explore_loop.
Qed.

Lemma register_implementation_task_scenarios g (l3 l4 : string) (st st1 : state)
    (r : outcome unit) :
  register_implementation_task g l3 l4 st = (r, st1) ->
  active_scenarios st1 = active_scenarios st.
Proof.
  unfold register_implementation_task.
  destruct (implementation_tasks st !! l3) as [layer|]; [|by intros [= <- <-]].
  destruct (layer !! l4) as [tasks|]; [|by intros [= <- <-]].
  by case_bool_decide; intros [= <- <-].
Qed.

Lemma release_implementation_task_scenarios g (l3 l4 : string) (st : state) :
  active_scenarios (release_implementation_task g l3 l4 st) = active_scenarios st.
Proof.
  unfold release_implementation_task.
  destruct (implementation_tasks st !! l3) as [layer|]; [|done].
  by destruct (layer !! l4) as [tasks|].
Qed.

Lemma records_with_implementation_task g requester (l3 l4 : string) (body : M state engine_reply) :
  records g requester (fun r => r) body ->
  records g requester (fun r => r) (with_implementation_task g l3 l4 body).
Proof.
  intros Hbody st r st'. unfold with_implementation_task.
  destruct (register_implementation_task g l3 l4 st) as [[[]|ex] st1] eqn:Hreg;
    pose proof (register_implementation_task_scenarios _ _ _ _ _ _ Hreg) as E1.
  - unfold try_except. destruct (body st1) as [[reply|e] st2] eqn:Hrun;
      specialize (Hbody _ _ _ Hrun); simpl in Hbody.
    + intros [= <- <-]. unfold recorded_as in *.
      rewrite release_implementation_task_scenarios. by rewrite <- E1.
    + intros [= <- <-]. simpl.
      rewrite release_implementation_task_scenarios. congruence.
  - by intros [= <- <-].
Qed.

Lemma records_activate_scenario_reply (req : scenario_request) :
  records (req_global_path_search_id req) (req_sector_requesting_service req) snd
    (activate_scenario_reply env req).
Proof.
  unfold activate_scenario_reply.
  apply records_bind; [solve_keeps|intros _].
  apply records_bind; [solve_keeps|intros _].
  apply records_bind; [solve_keeps|intros info].
  apply (records_wrap _ _ (fun r => r) snd (fun r => (info, r))); [done|].
  destruct (_ =? _); [by eapply records_refused|].
  intros st r st'.
  destruct (is_scenario_active _ st); [by intros [= <- <-]|].
  destruct (String.eqb _ "ICMPv4").
  { apply records_with_implementation_task, records_icmp_body. }
  destruct (String.eqb _ "IPv4").
  { apply records_with_implementation_task, records_ipv4_body. }
  by intros [= <- <-].
Qed.

(** X16: [__activate_scenario] answers with success exactly when it has
    recorded the search as an active scenario: after a success the table
    of active scenarios is the one before the call with one more entry,
    under the search identifier, holding one local service and a sector
    list that starts with the requesting sector and has at most one more
    sector; after a refusal or an exception the table is unchanged. *)
Theorem activate_scenario_success_iff_recorded (req : scenario_request) (st : state) :
  let g := req_global_path_search_id req in
  let run := __activate_scenario env req st in
  match run.1 with
  | Ok res =>
      if ar_success res
      then active_scenarios st !! g = None
           /\ exists service peers,
                active_scenarios run.2
                = <[g := ([service], req_sector_requesting_service req :: peers)]>
                    (active_scenarios st)
                /\ (length peers <= 1)%nat
      else active_scenarios run.2 = active_scenarios st
  | Raise _ => active_scenarios run.2 = active_scenarios st
  end.
Proof.
  intros g run. subst run. unfold __activate_scenario, bind.
  destruct (activate_scenario_reply env req st) as [[[info reply]|e] st'] eqn:E;
    pose proof (records_activate_scenario_reply req _ _ _ E) as H; simpl in *; [|done].
  by destruct reply.
Qed.

End Recorded.

(** * The requests that a run sends *)

Section Sends.
Context {X : Type} (env : Env X).
Implicit Types (P : Z -> Prop) (n : nat).

Local Abbreviation state := (controller_state X).

Lemma sends_keeps {A : Type} P n (m : M state A) : keeps rpc_log m -> sends P n m.
Proof.
  intros Hm st r st' Hrun. exists []. rewrite app_nil_r. split_and!.
  - by eapply Hm.
  - simpl. lia.
  - by intros ev ?%elem_of_nil.
Qed.

Lemma sends_weaken {A : Type} P P' n n' (m : M state A) :
  (forall s, P s -> P' s) -> (n <= n')%nat -> sends P n m -> sends P' n' m.
Proof.
  intros HP Hn Hm st r st' Hrun. destruct (Hm _ _ _ Hrun) as (new & E & Hlen & Hall).
  exists new. split_and!; [done|lia|]. intros ev Hev. by apply HP, Hall.
Qed.

Lemma sends_bind {A B : Type} P n1 n2 (R : A -> Prop) (m : M state A)
    (k : A -> M state B) :
  yields m R -> sends P n1 m -> (forall a, R a -> sends P n2 (k a)) ->
  sends P (n1 + n2) (bind m k).
Proof.
  intros HR Hm Hk st r st' [(a & s1 & H1 & H2)|(e & H1 & _)]%bind_eq.
  - destruct (Hm _ _ _ H1) as (new1 & E1 & Hlen1 & Hall1).
    destruct (Hk a (HR _ _ _ H1) _ _ _ H2) as (new2 & E2 & Hlen2 & Hall2).
    exists (new1 ++ new2). split_and!.
    + by rewrite E2, E1, app_assoc.
    + rewrite length_app. lia.
    + intros ev [?|?]%elem_of_app; auto.
  - destruct (Hm _ _ _ H1) as (new1 & E1 & Hlen1 & Hall1).
    exists new1. split_and!; [done|lia|done].
Qed.

Lemma yields_any {S A : Type} (m : M S A) : yields m (fun _ => True).
Proof. by intros st a st' _. Qed.

(** A step that sends nothing, and what it returns. *)
Lemma sends_after {A B : Type} P n (R : A -> Prop) (m : M state A) (k : A -> M state B) :
  keeps rpc_log m -> yields m R -> (forall a, R a -> sends P n (k a)) ->
  sends P n (bind m k).
Proof.
  intros Hm HR Hk. apply (sends_bind P 0 n R); [done| |done]. by apply sends_keeps.
Qed.

Lemma sends_then {A B : Type} P n (m : M state A) (k : A -> M state B) :
  keeps rpc_log m -> (forall a, sends P n (k a)) -> sends P n (bind m k).
Proof. intros Hm Hk. apply (sends_after P n (fun _ => True)); [done|apply yields_any|auto]. Qed.

Lemma sends_try_except {A : Type} P n (m : M state A) (h : exn -> M state A) :
  sends P n m -> (forall e, keeps rpc_log (h e)) -> sends P n (try_except m h).
Proof.
  intros Hm Hh st r st' [(a & H1 & _)|(e & s1 & H1 & H2)]%try_except_eq.
  - by eapply Hm.
  - destruct (Hm _ _ _ H1) as (new & E & Hlen & Hall). exists new.
    by rewrite (Hh _ _ _ _ H2).
Qed.

Lemma sends_log_rpc P (ev : rpc_event) :
  P (rpc_peer ev) -> sends P 1 (log_rpc ev : M state unit).
Proof.
  intros HP st r st' [= <- <-]. exists [ev]. split_and!; [done|simpl; lia|].
  by intros ev' ->%list_elem_of_singleton.
Qed.

Lemma sends_request_activation P (b : bool) (key : table_key) (peer : Z) (g : gpsid)
    (label sw port : Z) :
  P peer -> sends P 1 (request_activation env b key peer g label sw port).
Proof.
  intros HP. unfold request_activation.
  apply sends_then; [solve_keeps|intros _].
  apply sends_then; [solve_keeps|intros res].
  apply (sends_bind P 1 0 (fun _ => True)); [apply yields_any| |].
  - by apply sends_log_rpc.
  - intros _ _. apply sends_keeps. solve_keeps.
Qed.

Lemma yields_select_by_q_value {A : Type} (key : A -> table_key) (target : host_address)
    (xs : list A) :
  yields (select_by_q_value key target xs : M state A) (fun x => x ∈ xs).
Proof. intros st x st'. apply select_by_q_value_elem. Qed.

Lemma yields_remove_selected {A : Type} `{EqDecision A} (x : A) (xs : list A) :
  yields (remove_selected x xs : M state (list A))
    (fun r => length xs = S (length r) /\ forall y, y ∈ r -> y ∈ xs).
Proof.
  intros st r st'. unfold remove_selected.
  destruct (py_list_remove x xs) as [r'|] eqn:E; [|discriminate].
  intros [= <- <-]. split; [by apply (py_list_remove_length x)|].
  by apply (py_list_remove_sub x).
Qed.

Lemma sends_icmp_explore_loop (fuel : nat) (req : scenario_request) (links : list link) :
  sends (fun s => exists l : link, l ∈ links /\ l.2 = s) (length links)
    (icmp_explore_loop env fuel req links).
Proof.
  revert links. induction fuel as [|fuel IH]; intros [|l1 links1];
    try (apply sends_keeps; solve_keeps).
  simpl. set (links := l1 :: links1) in *.
  eapply sends_after; [solve_keeps|apply yields_select_by_q_value|intros sel Hsel].
  eapply sends_after; [solve_keeps|apply yields_remove_selected|intros rest [Hlen Hsub]].
  simpl in Hlen. injection Hlen as Hlen. rewrite Hlen.
  assert (Hrest : sends (fun s => exists l : link, l ∈ links /\ l.2 = s) (length rest)
                    (icmp_explore_loop env fuel req rest)).
  { eapply sends_weaken; [| |apply IH]; [|lia].
    intros s (l & Hl & <-). exists l. split; [by apply Hsub|done]. }
  apply sends_then; [solve_keeps|intros found].
  destruct found as [p|]; [|eapply sends_weaken; [| |exact Hrest]; [done|lia]].
  apply sends_then; [solve_keeps|intros _].
  apply sends_then; [solve_keeps|intros label].
  apply (sends_bind _ 1 (length rest) (fun _ => True)); [apply yields_any| |].
  { apply sends_request_activation. by exists sel. }
  intros res _. destruct (ar_success res).
  - apply sends_keeps. solve_keeps.
  - apply sends_then; [solve_keeps|intros _].
    exact Hrest.
Qed.

Lemma sends_ipv4_explore_loop (fuel : nat) (req : scenario_request) (sectors : list Z) :
  sends (fun s => s ∈ sectors) (length sectors) (ipv4_explore_loop env fuel req sectors).
Proof.
  revert sectors. induction fuel as [|fuel IH]; intros [|s1 sectors1];
    try (apply sends_keeps; solve_keeps).
  cbn [ipv4_explore_loop]. set (sectors := s1 :: sectors1) in *.
  eapply sends_after; [solve_keeps|apply yields_select_by_q_value|intros sel Hsel].
  eapply (sends_after _ _ (fun r => length sectors = S (length r)
                                   /\ forall y, y ∈ r -> y ∈ sectors)).
  { solve_keeps. }
  { intros st r st'. destruct (py_list_remove sel sectors) as [r'|] eqn:E;
      [|by intros [=]].
    intros [= <- <-]. split; [by apply (py_list_remove_length sel)|].
    by apply (py_list_remove_sub sel). }
  intros rest [Hlen Hsub]. rewrite Hlen.
  assert (Hrest : sends (fun s => s ∈ sectors) (length rest)
                    (ipv4_explore_loop env fuel req rest)).
  { eapply sends_weaken; [| |apply IH]; [|lia]. intros s Hs. by apply Hsub. }
  apply sends_then; [solve_keeps|intros p].
  apply sends_then; [solve_keeps|intros _].
  apply sends_then; [solve_keeps|intros label].
  destruct (path_penultimate_hop p) as [[[sw pin] pout]|]; [|apply sends_keeps; solve_keeps].
  apply (sends_bind _ 1 (length rest) (fun _ => True)); [apply yields_any| |].
  { by apply sends_request_activation. }
  intros res _. destruct (ar_success res).
  - apply sends_keeps. solve_keeps.
  - apply sends_then; [solve_keeps|intros _]. exact Hrest.
Qed.

Lemma sends_icmp_target_adjacent (req : scenario_request) (info : host_info) :
  sends (fun s => s = host_controller_id info) 1 (icmp_target_adjacent env req info).
Proof.
  unfold icmp_target_adjacent.
  apply sends_then; [solve_keeps|intros links0].
  apply sends_then; [solve_keeps|intros found].
  apply sends_then; [solve_keeps|intros _].
  apply sends_then; [solve_keeps|intros label].
  destruct found.1 as [[sel p]|]; [|apply sends_keeps; solve_keeps].
  apply (sends_bind _ 1 0 (fun _ => True)); [apply yields_any| |].
  { by apply sends_request_activation. }
  intros res _. apply sends_keeps. solve_keeps.
Qed.

Lemma sends_ipv4_target_adjacent (req : scenario_request) (info : host_info) :
  sends (fun s => s = host_controller_id info) 1 (ipv4_target_adjacent env req info).
Proof.
  unfold ipv4_target_adjacent.
  apply sends_then; [solve_keeps|intros p].
  apply sends_then; [solve_keeps|intros _].
  apply sends_then; [solve_keeps|intros label].
  destruct (path_penultimate_hop p) as [[[sw pin] pout]|]; [|apply sends_keeps; solve_keeps].
  apply (sends_bind _ 1 0 (fun _ => True)); [apply yields_any| |].
  { by apply sends_request_activation. }
  intros res _. apply sends_keeps. solve_keeps.
Qed.

Lemma py_list_remove_perm {A : Type} `{EqDecision A} (x : A) (l r : list A) :
  py_list_remove x l = Some r -> l ≡ₚ x :: r.
Proof.
  revert r. induction l as [|y l IH]; intros r; simpl; [discriminate|].
  destruct (decide (x = y)) as [->|Hne]; [by intros [= <-]|].
  destruct (py_list_remove x l) as [r'|]; [|discriminate].
  intros [= <-]. rewrite (IH r' eq_refl). apply Permutation_swap.
Qed.

Section Tries.
Context {L : Type} (key_of : L -> table_key) (peer_of : L -> Z).

Lemma tries_keeps {A : Type} (candidates : list L) (m : M state A) :
  keeps rpc_log m -> tries key_of peer_of candidates m.
Proof.
  intros Hm st r st' Hrun. exists [], []. rewrite app_nil_r. split_and!.
  - by eapply Hm.
  - apply submseteq_nil_l.
  - constructor.
Qed.

Lemma tries_after {A B : Type} (candidates : list L) (R : A -> Prop) (m : M state A)
    (k : A -> M state B) :
  keeps rpc_log m -> yields m R ->
  (forall a, R a -> tries key_of peer_of candidates (k a)) ->
  tries key_of peer_of candidates (bind m k).
Proof.
  intros Hm HR Hk st r st' [(a & s1 & H1 & H2)|(e & H1 & _)]%bind_eq.
  - destruct (Hk a (HR _ _ _ H1) _ _ _ H2) as (tried & new & E & Hsub & Hall).
    exists tried, new. by rewrite E, (Hm _ _ _ H1).
  - by eapply (tries_keeps candidates m Hm).
Qed.

Lemma tries_then {A B : Type} (candidates : list L) (m : M state A) (k : A -> M state B) :
  keeps rpc_log m -> (forall a, tries key_of peer_of candidates (k a)) ->
  tries key_of peer_of candidates (bind m k).
Proof.
  intros Hm Hk. apply (tries_after candidates (fun _ => True)); [done|apply yields_any|auto].
Qed.

Lemma tries_perm {A : Type} (candidates candidates' : list L) (m : M state A) :
  candidates ≡ₚ candidates' ->
  tries key_of peer_of candidates' m -> tries key_of peer_of candidates m.
Proof.
  intros Hp Hm st r st' Hrun. destruct (Hm _ _ _ Hrun) as (tried & new & E & Hsub & Hall).
  exists tried, new. by rewrite Hp.
Qed.

Lemma tries_skip {A : Type} (l : L) (rest : list L) (m : M state A) :
  tries key_of peer_of rest m -> tries key_of peer_of (l :: rest) m.
Proof.
  intros Hm st r st' Hrun. destruct (Hm _ _ _ Hrun) as (tried & new & E & Hsub & Hall).
  exists tried, new. split_and!; [done|by apply submseteq_cons|done].
Qed.

(** The request for a candidate, and then what the rest of the turn and
    the later turns do with the other candidates. *)
Lemma tries_request {B : Type} (l : L) (rest : list L) (b : bool) (g : gpsid)
    (label sw port : Z) (k : activation_result -> M state B) :
  (forall res, tries key_of peer_of rest (k res)) ->
  tries key_of peer_of (l :: rest)
    (bind (request_activation env b (key_of l) (peer_of l) g label sw port) k).
Proof.
  intros Hk st r st' [(res & s1 & H1 & H2)|(e & H1 & _)]%bind_eq.
  - apply request_activation_log in H1 as [_ [(res' & [= <-] & E1)|[[e [=]] _]]].
    destruct (Hk res _ _ _ H2) as (tried & new & E & Hsub & Hall).
    exists (l :: tried), (RpcActivate (key_of l) (peer_of l) res :: new). split_and!.
    + by rewrite E, E1, <- app_assoc.
    + by apply submseteq_skip.
    + constructor; [by exists res|done].
  - apply request_activation_log in H1 as [_ [(res' & [=] & _)|[_ E1]]].
    exists [], []. rewrite app_nil_r. split_and!; [done|apply submseteq_nil_l|constructor].
Qed.

End Tries.

Lemma tries_icmp_explore_loop (fuel : nat) (req : scenario_request) (links : list link) :
  tries link_key snd links (icmp_explore_loop env fuel req links).
Proof.
  revert links. induction fuel as [|fuel IH]; intros [|l1 links1];
    try (apply tries_keeps; solve_keeps).
  simpl. set (links := l1 :: links1) in *.
  apply tries_then; [solve_keeps|intros sel].
  eapply (tries_after _ _ _ (fun rest => links ≡ₚ sel :: rest)); [solve_keeps| |].
  { intros st rest st'. unfold remove_selected.
    destruct (py_list_remove sel links) as [r'|] eqn:E; [|by intros [=]].
    intros [= <- <-]. by apply py_list_remove_perm. }
  intros rest Hperm. apply (tries_perm _ _ _ (sel :: rest)); [done|].
  apply tries_then; [solve_keeps|intros found].
  destruct found as [p|]; [|apply tries_skip, IH].
  apply tries_then; [solve_keeps|intros _].
  apply tries_then; [solve_keeps|intros label].
  apply (tries_request link_key snd sel rest). intros res.
  destruct (ar_success res).
  - apply tries_keeps. solve_keeps.
  - apply tries_then; [solve_keeps|intros _]. apply IH.
Qed.

Lemma tries_ipv4_explore_loop (fuel : nat) (req : scenario_request) (sectors : list Z) :
  tries SectorKey (fun s => s) sectors (ipv4_explore_loop env fuel req sectors).
Proof.
  revert sectors. induction fuel as [|fuel IH]; intros [|s1 sectors1];
    try (apply tries_keeps; solve_keeps).
  cbn [ipv4_explore_loop]. set (sectors := s1 :: sectors1) in *.
  apply tries_then; [solve_keeps|intros sel].
  eapply (tries_after _ _ _ (fun rest => sectors ≡ₚ sel :: rest)); [solve_keeps| |].
  { intros st rest st'.
    destruct (py_list_remove sel sectors) as [r'|] eqn:E; [|by intros [=]].
    intros [= <- <-]. by apply py_list_remove_perm. }
  intros rest Hperm. apply (tries_perm _ _ _ (sel :: rest)); [done|].
  apply tries_then; [solve_keeps|intros p].
  apply tries_then; [solve_keeps|intros _].
  apply tries_then; [solve_keeps|intros label].
  destruct (path_penultimate_hop p) as [[[sw pin] pout]|]; [|apply tries_keeps; solve_keeps].
  apply (tries_request SectorKey (fun s => s) sel rest). intros res.
  destruct (ar_success res).
  - apply tries_keeps. solve_keeps.
  - apply tries_then; [solve_keeps|intros _]. apply IH.
Qed.

(** X17: the exploration loops of both branches send at most one
    activation request per candidate they were given: the requests that a
    run of the loop adds to the record are, one by one, requests to the
    sectors of candidates of the list, under the key of the candidate, for
    another entry of the list each time; requests recorded before the loop
    stay recorded. *)
Theorem exploration_sends_one_request_per_candidate (req : scenario_request) :
  (forall links : list link,
     tries link_key snd links (icmp_explore_loop env (length links) req links))
  /\ (forall sectors : list Z,
        tries SectorKey (fun s => s) sectors
          (ipv4_explore_loop env (length sectors) req sectors)).
Proof.
  split; intros; [apply tries_icmp_explore_loop|apply tries_ipv4_explore_loop].
Qed.

End Sends.

Section Asks.
Context {X : Type} (env : Env X).
Implicit Types (P : Z -> Prop).

Local Abbreviation state := (controller_state X).

Lemma asks_of_sends {A : Type} P (n : nat) (m : M state A) : sends P n m -> asks P m.
Proof.
  intros Hm st r st' Hrun. destruct (Hm _ _ _ Hrun) as (new & E & _ & Hall). eauto.
Qed.

Lemma asks_keeps {A : Type} P (m : M state A) : keeps rpc_log m -> asks P m.
Proof. intros Hm. apply (asks_of_sends P 0). by apply sends_keeps. Qed.

Lemma asks_weaken {A : Type} P P' (m : M state A) :
  (forall s, P s -> P' s) -> asks P m -> asks P' m.
Proof.
  intros HP Hm st r st' Hrun. destruct (Hm _ _ _ Hrun) as (new & E & Hall).
  exists new. split; [done|]. intros ev Hev. by apply HP, Hall.
Qed.

Lemma asks_bind {A B : Type} P (R : A -> Prop) (m : M state A) (k : A -> M state B) :
  yields m R -> asks P m -> (forall a, R a -> asks P (k a)) -> asks P (bind m k).
Proof.
  intros HR Hm Hk st r st' [(a & s1 & H1 & H2)|(e & H1 & _)]%bind_eq.
  - destruct (Hm _ _ _ H1) as (new1 & E1 & Hall1).
    destruct (Hk a (HR _ _ _ H1) _ _ _ H2) as (new2 & E2 & Hall2).
    exists (new1 ++ new2). split.
    + by rewrite E2, E1, app_assoc.
    + intros ev [?|?]%elem_of_app; auto.
  - by eapply Hm.
Qed.

Lemma asks_after {A B : Type} P (R : A -> Prop) (m : M state A) (k : A -> M state B) :
  keeps rpc_log m -> yields m R -> (forall a, R a -> asks P (k a)) -> asks P (bind m k).
Proof. intros Hm HR Hk. apply (asks_bind P R); [done|by apply asks_keeps|done]. Qed.

Lemma asks_then {A B : Type} P (m : M state A) (k : A -> M state B) :
  keeps rpc_log m -> (forall a, asks P (k a)) -> asks P (bind m k).
Proof. intros Hm Hk. apply (asks_after P (fun _ => True)); [done|apply yields_any|auto]. Qed.

Lemma yields_gather_links (sectors : list Z) :
  yields (gather_links env sectors) (fun links => forall l : link, l ∈ links -> l.2 ∈ sectors).
Proof.
  induction sectors as [|s sectors IH]; intros st links st'; simpl.
  - intros [= <- <-] l Hl. by apply elem_of_nil in Hl.
  - intros [(edges & s1 & _ & H)|(e & _ & [=])]%bind_eq.
    apply bind_eq in H as [(rest & s2 & H2 & [= <- <-])|(e & _ & [=])].
    intros l [Hl|Hl]%elem_of_app.
    + apply list_elem_of_fmap in Hl as (e & -> & _). by left.
    + right. by apply (IH _ _ _ H2).
Qed.

(** The sectors to explore are a set: [query_sectors_ids] names no sector
    twice. *)
Hypothesis sectors_form_a_set : forall w l, query_sectors_ids env w = Ok l -> NoDup l.

Lemma yields_other_adjacent_sectors (req : scenario_request) :
  yields (other_adjacent_sectors env req)
    (fun adj => req_sector_requesting_service req ∉ adj).
Proof.
  intros st adj st'. unfold other_adjacent_sectors.
  intros [(all & s1 & H1 & H)|(e & _ & [=])]%bind_eq.
  injection H1 as H1 <-.
  destruct (py_list_remove _ all) as [r|] eqn:E; [|discriminate].
  injection H as <- <-.
  by destruct (py_list_remove_gone _ _ _ (sectors_form_a_set _ _ H1) E).
Qed.

Lemma asks_icmp_body (req : scenario_request) (info : host_info) :
  asks (fun s => s <> req_sector_requesting_service req) (icmp_body env req info).
Proof.
  unfold icmp_body. destruct (_ =? _).
  { apply asks_keeps. unfold icmp_target_local. solve_keeps. }
  eapply asks_after; [solve_keeps|apply yields_other_adjacent_sectors|intros adj Hadj].
  destruct (_ =? _)%nat; [apply asks_keeps; solve_keeps|].
  case_bool_decide as Hin.
  - apply (asks_bind _ (fun _ => True)); [apply yields_any| |].
    + eapply asks_weaken; [|eapply asks_of_sends, sends_icmp_target_adjacent].
      intros s ->. by intros Heq; rewrite Heq in Hin.
    + intros r _. apply asks_keeps. solve_keeps.
  - eapply asks_after; [solve_keeps|apply yields_gather_links|intros links Hlinks].
    apply (asks_bind _ (fun _ => True)); [apply yields_any| |].
    + eapply asks_weaken; [|eapply asks_of_sends, sends_icmp_explore_loop].
      intros s (l & Hl & <-) Heq. apply Hadj. rewrite <- Heq. by apply Hlinks.
    + intros r _. apply asks_keeps. solve_keeps.
Qed.

Lemma asks_ipv4_body (req : scenario_request) (info : host_info) :
  asks (fun s => s <> req_sector_requesting_service req) (ipv4_body env req info).
Proof.
  unfold ipv4_body. destruct (_ =? _).
  { apply asks_keeps. unfold ipv4_target_local. solve_keeps. }
  eapply asks_after; [solve_keeps|apply yields_other_adjacent_sectors|intros adj Hadj].
  destruct (_ =? _)%nat; [apply asks_keeps; solve_keeps|].
  case_bool_decide as Hin.
  - eapply asks_weaken; [|eapply asks_of_sends, sends_ipv4_target_adjacent].
    intros s ->. by intros Heq; rewrite Heq in Hin.
  - apply (asks_bind _ (fun _ => True)); [apply yields_any| |].
    + eapply asks_weaken; [|eapply asks_of_sends, sends_ipv4_explore_loop].
      intros s Hs Heq. apply Hadj. by rewrite <- Heq.
    + intros r _. apply asks_keeps. solve_keeps.
Qed.

Lemma register_implementation_task_log (g : gpsid) (l3 l4 : string) (st st1 : state)
    (r : outcome unit) :
  register_implementation_task g l3 l4 st = (r, st1) -> rpc_log st1 = rpc_log st.
Proof.
  unfold register_implementation_task.
  destruct (implementation_tasks st !! l3) as [layer|]; [|by intros [= <- <-]].
  destruct (layer !! l4) as [tasks|]; [|by intros [= <- <-]].
  by case_bool_decide; intros [= <- <-].
Qed.

Lemma release_implementation_task_log (g : gpsid) (l3 l4 : string) (st : state) :
  rpc_log (release_implementation_task g l3 l4 st) = rpc_log st.
Proof.
  unfold release_implementation_task.
  destruct (implementation_tasks st !! l3) as [layer|]; [|done].
  by destruct (layer !! l4) as [tasks|].
Qed.

Lemma asks_with_implementation_task P (g : gpsid) (l3 l4 : string)
    (body : M state engine_reply) :
  asks P body -> asks P (with_implementation_task g l3 l4 body).
Proof.
  intros Hbody st r st'. unfold with_implementation_task.
  destruct (register_implementation_task g l3 l4 st) as [[[]|ex] st1] eqn:Hreg;
    pose proof (register_implementation_task_log _ _ _ _ _ _ Hreg) as E1.
  - unfold try_except. destruct (body st1) as [[reply|e] st2] eqn:Hrun;
      destruct (Hbody _ _ _ Hrun) as (new & E & Hall); intros [= <- <-];
      exists new; rewrite release_implementation_task_log; by rewrite <- E1.
  - intros [= <- <-]. exists []. rewrite app_nil_r. split; [done|].
    by intros ev ?%elem_of_nil.
Qed.

(** X18: where [query_sectors_ids] names no sector twice, none of the
    activation requests that a run of [__activate_scenario] sends goes to
    the sector that requested the service, whatever else the run does, and
    the requests sent before the run stay on record. *)
Theorem activate_scenario_never_asks_requester (req : scenario_request)
    (st st' : state) (r : outcome activation_result) :
  __activate_scenario env req st = (r, st') ->
  exists new,
    rpc_log st' = rpc_log st ++ new
    /\ forall ev, ev ∈ new -> rpc_peer ev <> req_sector_requesting_service req.
Proof.
  revert st r st'. change (asks (fun s => s <> req_sector_requesting_service req)
                             (__activate_scenario env req)).
  unfold __activate_scenario.
  apply (asks_bind _ (fun _ => True)); [apply yields_any| |].
  2: { intros reply _. apply asks_keeps. solve_keeps. }
  unfold activate_scenario_reply.
  apply asks_then; [solve_keeps|intros _].
  apply asks_then; [solve_keeps|intros _].
  apply asks_then; [solve_keeps|intros info].
  apply (asks_bind _ (fun _ => True)); [apply yields_any| |].
  2: { intros reply _. apply asks_keeps. solve_keeps. }
  destruct (_ =? _); [apply asks_keeps; solve_keeps|].
  intros st r st'.
  destruct (is_scenario_active _ st).
  { intros [= <- <-]. exists []. rewrite app_nil_r. split; [done|].
    by intros ev ?%elem_of_nil. }
  destruct (String.eqb _ "ICMPv4").
  { apply (asks_with_implementation_task _ _ _ _ _ (asks_icmp_body req info)). }
  destruct (String.eqb _ "IPv4").
  { apply (asks_with_implementation_task _ _ _ _ _ (asks_ipv4_body req info)). }
  intros [= <- <-]. exists []. rewrite app_nil_r. split; [done|].
  by intros ev ?%elem_of_nil.
Qed.

End Asks.

(** The target lies beyond the adjacent sectors 3 and 4 and every peer
    refuses: all three links are tried, none of them towards sector 2,
    which asked. *)
Lemma activate_scenario_never_asks_requester_witness :
  let env := demo_env 9 true demo_refusal in
  let run := __activate_scenario env demo_request demo_state in
  query_sectors_ids env tt = Ok [2; 3; 4]
  /\ exists new,
       rpc_log run.2 = rpc_log demo_state ++ new
       /\ forall ev, ev ∈ new -> rpc_peer ev <> 2.
Proof.
  intros env run. split; [reflexivity|].
  assert (Hset : forall w l, query_sectors_ids env w = Ok l -> NoDup l).
  { intros w l [= <-]. apply (bool_decide_unpack _). vm_compute. reflexivity. }
  exact (activate_scenario_never_asks_requester env Hset demo_request demo_state
           run.2 run.1 (surjective_pairing _)).
Defined.

(** * Termination after activation *)

Section Undo.
Context {X : Type} (env : Env X).

Local Abbreviation state := (controller_state X).

Lemma notify_sectors_sends (g : gpsid) (sectors : list Z) :
  keeps active_scenarios (notify_sectors env g sectors)
  /\ sends (fun s => s ∈ sectors) (length sectors) (notify_sectors env g sectors).
Proof.
  induction sectors as [|s rest [IHk IHs]]; simpl.
  { split; [apply keeps_ret|apply sends_keeps, keeps_ret]. }
  set (call := fun st : state =>
                 let (res, w) :=
                   proxy_terminate_scenario env s g (this_controller_id env) (world st) in
                 (res, set_rpc_log (set_world st w) (rpc_log st ++ [RpcTerminate s res]))).
  assert (Hk : keeps active_scenarios call).
  { intros st r st'. unfold call. destruct (proxy_terminate_scenario _ _ _ _ _).
    by intros [= <- <-]. }
  assert (Hs : sends (fun s' => s' ∈ s :: rest) 1 call).
  { intros st r st'. unfold call.
    destruct (proxy_terminate_scenario _ _ _ _ _) as [res w]. intros [= <- <-].
    exists [RpcTerminate s res]. split_and!; [done|simpl; lia|].
    intros ev ->%list_elem_of_singleton. by left. }
  split.
  - apply keeps_bind; [solve_keeps|intros _].
    apply keeps_bind; [solve_keeps|intros _].
    apply keeps_bind; [done|intros _]. done.
  - apply sends_then; [solve_keeps|intros _].
    apply sends_then; [solve_keeps|intros _].
    apply (sends_bind _ 1 (length rest) (fun _ => True)); [apply yields_any|done|].
    intros _ _. eapply sends_weaken; [| |exact IHs]; [|lia]. intros s' Hs'. by right.
Qed.

Lemma terminate_scenario_active (g : gpsid) (s : Z) (st st' : state) (ids adj : list Z)
    (r : outcome termination_result) :
  active_scenarios st !! g = Some (ids, adj) ->
  __terminate_scenario env g s st = (r, st') ->
  active_scenarios st' = delete g (active_scenarios st)
  /\ (r = Ok (TerminationResult true (Some g) None)
      \/ exists ex, r = Raise (OtherException (termination_error env g ex)))
  /\ exists new,
       rpc_log st' = rpc_log st ++ new
       /\ (length new <= length (sectors_to_notify env adj s))%nat
       /\ forall ev, ev ∈ new -> rpc_peer ev ∈ sectors_to_notify env adj s.
Proof.
  intros Hact Hrun. unfold __terminate_scenario in Hrun.
  assert (Ha : is_scenario_active g st = true).
  { unfold is_scenario_active. apply bool_decide_eq_true_2. by rewrite Hact. }
  rewrite Ha in Hrun. simpl in Hrun. unfold try_except in Hrun.
  unfold bind at 1 in Hrun. unfold get_active_scenario in Hrun. rewrite Hact in Hrun.
  unfold bind at 1 in Hrun. simpl in Hrun.
  set (st1 := set_mapped_services (set_active_scenarios st (delete g (active_scenarios st)))
                (kill_mapped_services ids (mapped_services st))) in *.
  unfold bind at 1 in Hrun.
  destruct (notify_sectors env g (sectors_to_notify env adj s) st1) as [rn st2] eqn:Hn.
  destruct (notify_sectors_sends g (sectors_to_notify env adj s)) as [Hk Hs].
  pose proof (Hk _ _ _ Hn) as Ek. destruct (Hs _ _ _ Hn) as (new & El & Hlen & Hall).
  destruct rn as [[]|ex]; simpl in Hrun; injection Hrun as <- <-.
  - split_and!; [done|by left|by exists new].
  - split_and!; [done|right; by exists ex|by exists new].
Qed.

Lemma length_remove_dups_le (l : list Z) : (length (remove_dups l) <= length l)%nat.
Proof.
  induction l as [|x l IH]; [done|]. cbn [remove_dups].
  destruct (decide_rel elem_of x l); simpl; lia.
Qed.

Lemma sectors_to_notify_set (adj : list Z) (requester : Z) :
  sectors_to_notify env adj requester
  ≡ₚ filter (fun s => s <> requester) (remove_dups adj).
Proof. apply merge_sort_Permutation. Qed.

Lemma sectors_to_notify_downstream (requester : Z) (peers : list Z) :
  (length (sectors_to_notify env (requester :: peers) requester) <= length peers)%nat.
Proof.
  rewrite sectors_to_notify_set. cbn [remove_dups].
  pose proof (length_remove_dups_le peers) as Hrd.
  destruct (decide_rel elem_of requester peers).
  - etrans; [apply length_filter|]. lia.
  - rewrite filter_cons_False by (intros H; by apply H).
    etrans; [apply length_filter|]. lia.
Qed.

(** X19: when [__activate_scenario] has answered with success, a
    [__terminate_scenario] of the same search on behalf of the same
    requesting sector finds the search registered, puts the table of active
    scenarios back to what it was before the activation, and sends at most
    one termination request, never to the requesting sector; this holds
    whether the termination returns or raises. *)
Theorem terminate_undoes_activation_record (req : scenario_request) (st st1 st2 : state)
    (res : activation_result) (r : outcome termination_result) :
  let g := req_global_path_search_id req in
  let requester := req_sector_requesting_service req in
  __activate_scenario env req st = (Ok res, st1) ->
  ar_success res = true ->
  __terminate_scenario env g requester st1 = (r, st2) ->
  active_scenarios st2 = active_scenarios st
  /\ (r = Ok (TerminationResult true (Some g) None)
      \/ exists ex, r = Raise (OtherException (termination_error env g ex)))
  /\ exists new,
       rpc_log st2 = rpc_log st1 ++ new
       /\ (length new <= 1)%nat
       /\ forall ev, ev ∈ new -> rpc_peer ev <> requester.
Proof.
  intros g requester Hact Hok Hterm.
  pose proof (records_activate_scenario_reply env req st) as Hrec.
  unfold __activate_scenario, bind in Hact.
  destruct (activate_scenario_reply env req st) as [[[info reply]|e] st1'] eqn:E;
    [|discriminate].
  injection Hact as <- <-. specialize (Hrec _ _ eq_refl). simpl in Hrec.
  destruct reply as [qv pl|why]; [|discriminate].
  destruct Hrec as (Hnone & service & peers & Hins & Hlen).
  pose proof (terminate_scenario_active g requester st1' st2 [service] (requester :: peers) r)
    as Hterm'.
  destruct Hterm' as (Hdel & Hr & new & El & Hn & Hall); [|done|].
  { fold g requester in Hins. rewrite Hins. apply lookup_insert_eq. }
  split_and!; [|done|].
  - rewrite Hdel. fold g requester in Hins. rewrite Hins. by apply delete_insert_id.
  - exists new. split_and!; [done| |].
    + etrans; [exact Hn|]. etrans; [apply sectors_to_notify_downstream|done].
    + intros ev Hev. specialize (Hall ev Hev). rewrite sectors_to_notify_set in Hall.
      by apply list_elem_of_filter in Hall as [? _].
Qed.

End Undo.

(** With the target in the adjacent sector 3 and a peer that accepts, the
    activation for sector 2 succeeds; the termination then notifies sector
    3 alone and the table of active scenarios is empty as before. *)
Lemma terminate_undoes_activation_record_witness :
  let env := demo_env 3 false demo_acceptance in
  let run1 := __activate_scenario env demo_request demo_state in
  let run2 := __terminate_scenario env (req_global_path_search_id demo_request) 2 run1.2 in
  (exists res, run1 = (Ok res, run1.2) /\ ar_success res = true)
  /\ active_scenarios run2.2 = active_scenarios demo_state.
Proof.
  intros env run1 run2.
  assert (H1 : exists res, run1 = (Ok res, run1.2) /\ ar_success res = true).
  { vm_compute. eexists. split; reflexivity. }
  split; [exact H1|]. destruct H1 as (res & H1 & Hok).
  by destruct (terminate_undoes_activation_record env demo_request demo_state run1.2 run2.2
                 res run2.1 H1 Hok (surjective_pairing _)) as [? _].
Defined.

(** * The choice among candidates *)

Section Selection.
Context {X : Type}.

Local Abbreviation state := (controller_state X).

Lemma globals_get_q_value_run (key : table_key) (host : host_address) (st : state) :
  exists st',
    globals_get_q_value key host st = (Ok (q_read key host (QValues st)), st')
    /\ same_reads st st'.
Proof.
  unfold globals_get_q_value.
  pose proof (get_q_value_fst key host (QValues st)) as H1.
  pose proof (fun k' h' => get_q_value_q_read key k' host h' (QValues st)) as H2.
  destruct (get_q_value key host (QValues st)) as [v t]. simpl in *. subst v.
  eexists. split; [done|]. intros k h. apply H2.
Qed.

Lemma never_used_run {A : Type} (key : A -> table_key) (target : host_address)
    (xs : list A) (st : state) :
  exists st',
    never_used key target xs st
    = (Ok (filter (fun y => Qeq_bool (q_read (key y) target (QValues st)) 0 = true) xs), st')
    /\ same_reads st st'.
Proof.
  revert st. induction xs as [|x xs IH]; intros st; simpl.
  { exists st. by split. }
  destruct (globals_get_q_value_run (key x) target st) as (s1 & H1 & R1).
  rewrite (bind_ok _ _ _ _ _ H1).
  destruct (IH s1) as (s2 & H2 & R2). rewrite (bind_ok _ _ _ _ _ H2).
  exists s2. split.
  - unfold ret. f_equal. f_equal.
    assert (Hf : filter (fun y => Qeq_bool (q_read (key y) target (QValues s1)) 0 = true) xs
                 = filter (fun y => Qeq_bool (q_read (key y) target (QValues st)) 0 = true) xs).
    { apply list_filter_iff. intros y. by rewrite R1. }
    rewrite Hf. rewrite filter_cons. by destruct (Qeq_bool _ 0); case_decide.
  - intros k h. by rewrite R2, R1.
Qed.

Lemma max_by_q_value_run {A : Type} (key : A -> table_key) (target : host_address)
    (best : A) (xs : list A) (st0 st : state) :
  same_reads st0 st ->
  exists x st',
    max_by_q_value key target best (q_read (key best) target (QValues st0)) xs st
    = (Ok x, st')
    /\ same_reads st0 st'
    /\ (x = best \/ x ∈ xs)
    /\ (q_read (key best) target (QValues st0) <= q_read (key x) target (QValues st0))%Q
    /\ forall y, y ∈ xs ->
         (q_read (key y) target (QValues st0) <= q_read (key x) target (QValues st0))%Q.
Proof.
  revert best st. induction xs as [|z xs IH]; intros best st Hst; simpl.
  { exists best, st. split_and!; [done..|by left|apply Qle_refl|].
    by intros y ?%elem_of_nil. }
  destruct (globals_get_q_value_run (key z) target st) as (s1 & H1 & R1).
  rewrite (bind_ok _ _ _ _ _ H1). rewrite Hst.
  assert (Hs1 : same_reads st0 s1) by (intros k h; by rewrite R1, Hst).
  destruct (Qle_bool _ _) eqn:Hle.
  - destruct (IH best s1 Hs1) as (x & s2 & H2 & R2 & Hx & Hb & Hall).
    exists x, s2. split_and!; [done..| |done|].
    + destruct Hx as [->|?]; [by left|right; by right].
    + intros y [->|Hy]%elem_of_cons; [|by apply Hall].
      apply Qle_bool_iff in Hle. by eapply Qle_trans.
  - destruct (IH z s1 Hs1) as (x & s2 & H2 & R2 & Hx & Hb & Hall).
    exists x, s2. split_and!; [done..| | |].
    + right. destruct Hx as [->|?]; [by left|by right].
    + assert (Hlt : (q_read (key best) target (QValues st0)
                     < q_read (key z) target (QValues st0))%Q).
      { apply Qnot_le_lt. intros Hc. apply Qle_bool_iff in Hc. congruence. }
      eapply Qle_trans; [apply Qlt_le_weak, Hlt|done].
    + intros y [->|Hy]%elem_of_cons; [done|by apply Hall].
Qed.

(** X20: on a list with at least one candidate [select_by_q_value] always
    returns: the first candidate whose Q-value reads 0 if there is one,
    and otherwise a candidate whose Q-value no other candidate exceeds. *)
Theorem select_by_q_value_policy {A : Type} (key : A -> table_key) (target : host_address)
    (xs : list A) (st : state) :
  xs <> [] ->
  let q := fun y => (get_q_value (key y) target (QValues st)).1 in
  exists x st',
    select_by_q_value key target xs st = (Ok x, st')
    /\ x ∈ xs
    /\ match filter (fun y => Qeq_bool (q y) 0 = true) xs with
       | first :: _ => x = first
       | [] => forall y, y ∈ xs -> (q y <= q x)%Q
       end.
Proof.
  intros Hne q. unfold select_by_q_value.
  destruct (never_used_run key target xs st) as (s1 & H1 & R1).
  rewrite (bind_ok _ _ _ _ _ H1).
  assert (Hq : forall y, q y = q_read (key y) target (QValues st)).
  { intros y. apply get_q_value_fst. }
  assert (Hf : filter (fun y => Qeq_bool (q y) 0 = true) xs
               = filter (fun y => Qeq_bool (q_read (key y) target (QValues st)) 0 = true) xs).
  { apply list_filter_iff. intros y. by rewrite Hq. }
  rewrite Hf.
  destruct (filter _ xs) as [|first unused] eqn:Hfilter.
  - destruct xs as [|x0 xs]; [done|].
    destruct (globals_get_q_value_run (key x0) target s1) as (s2 & H2 & R2).
    rewrite (bind_ok _ _ _ _ _ H2). rewrite R1.
    assert (Hs2 : same_reads st s2) by (intros k h; by rewrite R2, R1).
    destruct (max_by_q_value_run key target x0 xs st s2 Hs2)
      as (x & s3 & H3 & _ & Hx & Hb & Hall).
    exists x, s3. split_and!; [done| |].
    + destruct Hx as [->|?]; [by left|by right].
    + intros y. rewrite !Hq. intros [->|Hy]%elem_of_cons; [done|by apply Hall].
  - exists first, s1. split_and!; [done| |done].
    assert (Hin : first ∈ filter (fun y => Qeq_bool (q_read (key y) target (QValues st)) 0
                                          = true) xs) by (rewrite Hfilter; by left).
    by apply list_elem_of_filter in Hin as [_ ?].
Qed.

End Selection.

(** Of the two links to sector 3 the first is chosen while both read 0. *)
Lemma select_by_q_value_policy_witness :
  exists x st',
    select_by_q_value edge_key (AddrObject 167772169) [(10, 1, 100); (11, 1, 101)] demo_state
    = (Ok x, st')
    /\ x = (10, 1, 100).
Proof.
  destruct (select_by_q_value_policy edge_key (AddrObject 167772169)
              [(10, 1, 100); (11, 1, 101)] demo_state) as (x & st' & Hrun & _ & Hsel);
    [discriminate|].
  exists x, st'. split; [done|]. exact Hsel.
Defined.

(** * Frames on the wire *)

Lemma Z_of_byte_of_Z (z : Z) : 0 <= z < 256 -> Z_of_byte (byte_of_Z z) = z.
Proof.
  intros Hz. unfold Z_of_byte, byte_of_Z. rewrite Z.mod_small by done.
  destruct (Byte.of_N (Z.to_N z)) as [b|] eqn:E.
  - simpl. rewrite (Byte.to_of_N _ E). lia.
  - apply Byte.of_N_None_iff in E. lia.
Qed.

Lemma unpack_pack_H (n : Z) (header : list Byte.byte) :
  pack_H n = Ok header -> unpack_H header = Ok n /\ length header = 2%nat.
Proof.
  unfold pack_H. destruct (_ && _) eqn:E; [|discriminate]. intros [= <-].
  apply andb_true_iff in E as [H0 H1]. apply Z.leb_le in H0, H1.
  split; [|done]. unfold unpack_H.
  rewrite !Z_of_byte_of_Z.
  - f_equal. pose proof (Z.div_mod n 256). lia.
  - apply Z.mod_pos_bound. lia.
  - split; [apply Z.div_pos; lia|]. apply Z.div_lt_upper_bound; lia.
Qed.

Lemma recv_exact_loop_complete (fuel n received : nat) (buf wanted more : list Byte.byte)
    (c : nat -> nat) (calls : nat) :
  length buf = n -> (received + length wanted)%nat = n -> (length wanted <= fuel)%nat ->
  exists calls',
    recv_exact_loop fuel n received buf (Socket (wanted ++ more) c calls)
    = (Ok (Some (take received buf ++ wanted)), Socket more c calls').
Proof.
  revert received buf wanted calls.
  induction fuel as [|fuel IH]; intros received buf wanted calls Hbuf Hn Hfuel.
  - destruct wanted; [|simpl in Hfuel; lia]. simpl in *.
    rewrite (proj2 (Nat.ltb_ge received n)) by lia.
    exists calls. rewrite app_nil_r, take_ge by lia. done.
  - cbn [recv_exact_loop].
    destruct (received <? n)%nat eqn:Hlt.
    + apply Nat.ltb_lt in Hlt. unfold recv. cbn [incoming chunking recv_calls].
      set (k := Nat.min (n - received) (S (c calls))).
      assert (Hk : (1 <= k <= length wanted)%nat) by lia.
      rewrite take_app_le, drop_app_le by lia.
      destruct (take k wanted) as [|b data] eqn:Etake.
      { apply (f_equal length) in Etake. rewrite length_take in Etake. simpl in Etake. lia. }
      rewrite <- Etake.
      assert (Hlen : length (take k wanted) = k) by (rewrite length_take; lia).
      unfold slice_assign. rewrite Hlen.
      rewrite (proj2 (Nat.leb_le (received + k) (length buf))) by lia.
      destruct (IH (received + k)%nat
                  (take received buf ++ take k wanted ++ drop (received + k) buf)
                  (drop k wanted) (S calls)) as [calls' Hrun].
      * rewrite !length_app, length_take, Hlen, length_drop. lia.
      * rewrite length_drop. lia.
      * rewrite length_drop. lia.
      * exists calls'. rewrite Hrun. f_equal. f_equal. f_equal.
        rewrite app_assoc. rewrite take_app_length'.
        -- by rewrite <- app_assoc, take_drop.
        -- rewrite length_app, length_take, Hlen. lia.
    + apply Nat.ltb_ge in Hlt. destruct wanted; [|simpl in Hn; lia].
      exists calls. rewrite app_nil_r, take_ge by lia. done.
Qed.

Lemma recv_exact_complete (wanted more : list Byte.byte) (c : nat -> nat) (calls : nat) :
  exists calls',
    recv_exact (length wanted) (Socket (wanted ++ more) c calls)
    = (Ok (Some wanted), Socket more c calls').
Proof.
  unfold recv_exact.
  destruct (recv_exact_loop_complete (length wanted) (length wanted) 0
              (replicate (length wanted) Byte.x00) wanted more c calls) as [calls' H];
    [by rewrite length_replicate|done|done|].
  exists calls'. by rewrite H.
Qed.

Lemma read_frame_complete (data frame rest : list Byte.byte) (c : nat -> nat)
    (calls : nat) :
  pack_frame data = Ok frame ->
  exists calls',
    read_frame (Socket (frame ++ rest) c calls) = (Ok (Some data), Socket rest c calls').
Proof.
  unfold pack_frame.
  destruct (pack_H (Z.of_nat (length data))) as [header|e] eqn:E; [|discriminate].
  intros [= <-]. destruct (unpack_pack_H _ _ E) as [Hun Hh].
  destruct (recv_exact_complete header (data ++ rest) c calls) as [calls1 H1].
  destruct (recv_exact_complete data rest c calls1) as [calls2 H2].
  exists calls2. unfold read_frame. rewrite <- app_assoc. rewrite Hh in H1.
  rewrite H1, Hun. by rewrite Nat2Z.id.
Qed.

Lemma pack_frame_length (data frame : list Byte.byte) :
  pack_frame data = Ok frame ->
  Z.of_nat (length data) <= 65535 /\ length frame = (2 + length data)%nat.
Proof.
  unfold pack_frame, pack_H. destruct (_ && _) eqn:E; [|discriminate].
  intros [= <-]. apply andb_true_iff in E as [_ E]. apply Z.leb_le in E. by split.
Qed.

Lemma pack_frame_fits (data : list Byte.byte) :
  Z.of_nat (length data) <= 65535 -> exists frame, pack_frame data = Ok frame.
Proof.
  intros Hlen. unfold pack_frame, pack_H.
  rewrite (proj2 (Z.leb_le 0 _)), (proj2 (Z.leb_le _ 65535)) by lia. simpl. eauto.
Qed.

(** X21: a payload of at most 65535 bytes that [struct.pack] has framed is
    read back unchanged by the two receive loops, however the network cuts
    the stream into pieces, and the reader stops exactly at the end of the
    frame; a longer payload is refused by [struct.pack]. *)
Theorem frame_round_trip (data rest : list Byte.byte) (c : nat -> nat) (calls : nat) :
  (65535 < Z.of_nat (length data) -> exists e, pack_frame data = Raise e)
  /\ (Z.of_nat (length data) <= 65535 ->
      exists frame calls',
        pack_frame data = Ok frame
        /\ read_frame (Socket (frame ++ rest) c calls)
           = (Ok (Some data), Socket rest c calls')).
Proof.
  split; intros Hlen.
  - unfold pack_frame, pack_H.
    rewrite (proj2 (Z.leb_gt (Z.of_nat (length data)) 65535)) by lia.
    rewrite andb_false_r. eauto.
  - destruct (pack_frame_fits data Hlen) as [frame Hf].
    destruct (read_frame_complete data frame rest c calls Hf) as [calls' Hr].
    by exists frame, calls'.
Qed.

(** A payload of three bytes that arrives one byte at a time. *)
Lemma frame_round_trip_witness :
  let data := [Byte.x61; Byte.x62; Byte.x63] in
  exists frame calls',
    pack_frame data = Ok frame
    /\ read_frame (Socket (frame ++ [Byte.xff]) (fun _ => O) O)
       = (Ok (Some data), Socket [Byte.xff] (fun _ => O) calls').
Proof.
  intros data.
  destruct (frame_round_trip data [Byte.xff] (fun _ => O) O) as [_ H].
  apply H. simpl. lia.
Defined.

Lemma recv_exact_loop_closed (fuel n received : nat) (buf stream : list Byte.byte)
    (c : nat -> nat) (calls : nat) :
  length buf = n -> (length stream < n - received)%nat -> (length stream < fuel)%nat ->
  exists calls',
    recv_exact_loop fuel n received buf (Socket stream c calls)
    = (Ok None, Socket [] c calls').
Proof.
  revert received buf stream calls.
  induction fuel as [|fuel IH]; intros received buf stream calls Hbuf Hshort Hfuel; [lia|].
  cbn [recv_exact_loop]. rewrite (proj2 (Nat.ltb_lt received n)) by lia.
  unfold recv. cbn [incoming chunking recv_calls].
  set (k := Nat.min (n - received) (S (c calls))).
  assert (Hk : (1 <= k)%nat) by lia.
  destruct (take k stream) as [|b data] eqn:Etake.
  - destruct stream as [|b stream]; [|destruct k; [lia|discriminate]].
    exists (S calls). by rewrite drop_nil.
  - rewrite <- Etake.
    assert (Hlen : (length (take k stream) <= length stream)%nat)
      by (rewrite length_take; lia).
    assert (Hpos : (1 <= length (take k stream))%nat) by (rewrite Etake; simpl; lia).
    unfold slice_assign.
    rewrite (proj2 (Nat.leb_le (received + length (take k stream)) (length buf))) by lia.
    assert (Hdrop : (length (drop k stream) + length (take k stream) = length stream)%nat).
    { rewrite <- (take_drop k stream) at 3. rewrite length_app. lia. }
    apply IH.
    + rewrite !length_app, length_take, length_drop. lia.
    + lia.
    + lia.
Qed.

(** X22: when the peer closes the connection inside a frame, whether in
    its length prefix or in its payload, the two receive loops of
    [client_handler] end without an exception, with all bytes that did
    arrive consumed and no request read, however these bytes were cut
    up. *)
Theorem frame_cut_short (data frame got missing : list Byte.byte) (c : nat -> nat)
    (calls : nat) :
  pack_frame data = Ok frame -> frame = got ++ missing -> missing <> [] ->
  exists calls', read_frame (Socket got c calls) = (Ok None, Socket [] c calls').
Proof.
  unfold pack_frame.
  destruct (pack_H (Z.of_nat (length data))) as [header|e] eqn:E; [|discriminate].
  intros [= <-] Hsplit Hmissing.
  destruct (unpack_pack_H _ _ E) as [Hun Hh].
  assert (Hlens : (length header + length data = length got + length missing)%nat).
  { rewrite <- !length_app. by rewrite Hsplit. }
  assert (Hm : (1 <= length missing)%nat) by (destruct missing; [done|simpl; lia]).
  unfold read_frame. destruct (decide (length got < 2)%nat) as [Hshort|Hlong].
  - unfold recv_exact.
    destruct (recv_exact_loop_closed 2 2 0 (replicate 2 Byte.x00) got c calls)
      as [calls' H]; [done|lia|lia|].
    rewrite H. by exists calls'.
  - assert (Hgot : got = header ++ drop 2 got).
    { rewrite <- (take_drop 2 got) at 1. f_equal.
      apply (f_equal (take 2)) in Hsplit.
      rewrite take_app_length' in Hsplit by done. rewrite take_app_le in Hsplit by lia.
      done. }
    destruct (recv_exact_complete header (drop 2 got) c calls) as [calls1 H1].
    rewrite Hh, <- Hgot in H1. rewrite H1, Hun, Nat2Z.id.
    unfold recv_exact.
    destruct (recv_exact_loop_closed (length data) (length data) 0
                (replicate (length data) Byte.x00) (drop 2 got) c calls1)
      as [calls' H]; [by rewrite length_replicate|rewrite length_drop; lia..|].
    rewrite H. by exists calls'.
Qed.

(** The frame of a payload of three bytes, of which four bytes arrive. *)
Lemma frame_cut_short_witness :
  exists calls',
    read_frame (Socket [Byte.x00; Byte.x03; Byte.x61; Byte.x62] (fun _ => 7%nat) O)
    = (Ok None, Socket [] (fun _ => 7%nat) calls').
Proof.
  apply (frame_cut_short [Byte.x61; Byte.x62; Byte.x63]
           [Byte.x00; Byte.x03; Byte.x61; Byte.x62; Byte.x63] _ [Byte.x63]).
  - vm_compute. reflexivity.
  - reflexivity.
  - discriminate.
Defined.

(** * The start of the controller *)

Section BootFacts.
Context {V W : Type} (benv : BootEnv V W).

Local Abbreviation configs := (gmap string (cfg_value V)).

Lemma configure_run (opts : gmap string V) (flag source key : string)
    (convert : V -> outcome (cfg_value V)) (cfg cfg' : configs) (w w' : W) :
  configure opts flag source key convert cfg w = (Ok cfg', w') ->
  w' = w
  /\ ((opts !! flag = None /\ cfg' = cfg)
      \/ (is_Some (opts !! flag)
          /\ exists v c, opts !! source = Some v /\ convert v = Ok c
                         /\ cfg' = <[key := c]> cfg)).
Proof.
  unfold configure. destruct (opts !! flag) as [f|] eqn:Ef.
  - destruct (opts !! source) as [v|] eqn:Es; [|discriminate].
    destruct (convert v) as [c|e] eqn:Ec; [|discriminate].
    intros [= <- <-]. split; [done|]. right. split; [done|]. by exists v, c.
  - intros [= <- <-]. split; [done|]. by left.
Qed.

Lemma configure_other_key (opts : gmap string V) (flag source key k : string)
    (convert : V -> outcome (cfg_value V)) (cfg cfg' : configs) (w w' : W) :
  configure opts flag source key convert cfg w = (Ok cfg', w') ->
  key <> k -> cfg' !! k = cfg !! k.
Proof.
  intros (_ & [[_ ->]|(_ & v & c & _ & _ & ->)])%configure_run Hne; [done|].
  by rewrite lookup_insert_ne.
Qed.

Lemma archSDN_cli_opts_lookup (CONF : gmap string V) (k : string) (v : V) :
  archSDN_cli_opts benv CONF !! k = Some v ->
  CONF !! k = Some v /\ conf_truthy benv v = true.
Proof.
  unfold archSDN_cli_opts. intros [H1 H2]%map_lookup_filter_Some. split; [done|].
  simpl in H2. apply Is_true_true in H2. by apply andb_true_iff in H2 as [_ ?].
Qed.

(** X23: the first [ArchSDN] instance of a process gets as far as the call
    of [central.initialise] only if [CONF] holds a true value for the
    option [archSDN_centralPort]; without it [__init__] ends in
    [sys.exit], whatever the other options are and whatever the calls
    outside the file do. *)
Theorem init_needs_central_port (CONF : gmap string V) (id : Z) (w : W) :
  (forall v, CONF !! "archSDN_centralPort" = Some v -> conf_truthy benv v = false) ->
  exists ex w', __init__ benv CONF id w = (SysExit ex, w').
Proof.
  intros Hport. unfold __init__.
  destruct (configure_until_central benv CONF id w) as [[[[cfg ip] port]|ex] w'] eqn:E;
    [|by eauto].
  exfalso. unfold configure_until_central in E.
  assert (Hopt : archSDN_cli_opts benv CONF !! "archSDN_centralPort" = None).
  { destruct (archSDN_cli_opts benv CONF !! "archSDN_centralPort") as [v|] eqn:Ev; [|done].
    apply archSDN_cli_opts_lookup in Ev as [Ev Ht]. rewrite (Hport v Ev) in Ht.
    discriminate. }
  apply bind_eq in E as [(? & w1 & _ & E)|(? & _ & [=])].
  apply bind_eq in E as [(c1 & w2 & H1 & E)|(? & _ & [=])].
  apply bind_eq in E as [(c2 & w3 & H2 & E)|(? & _ & [=])].
  apply bind_eq in E as [(c3 & w4 & H3 & E)|(? & _ & [=])].
  apply bind_eq in E as [(c4 & w5 & H4 & E)|(? & _ & [=])].
  apply bind_eq in E as [(c5 & w6 & H5 & E)|(? & _ & [=])].
  apply bind_eq in E as [(c6 & w7 & H6 & E)|(? & _ & [=])].
  apply bind_eq in E as [(c7 & w8 & H7 & E)|(? & _ & [=])].
  assert (Hc7 : c7 !! "centralPort" = None).
  { rewrite (configure_other_key _ _ _ _ _ _ _ _ _ _ H7) by done.
    rewrite (configure_other_key _ _ _ _ _ _ _ _ _ _ H6) by done.
    apply configure_run in H5 as (_ & [[_ ->]|([? Hs] & _)]); [|congruence].
    rewrite (configure_other_key _ _ _ _ _ _ _ _ _ _ H4) by done.
    rewrite (configure_other_key _ _ _ _ _ _ _ _ _ _ H3) by done.
    rewrite (configure_other_key _ _ _ _ _ _ _ _ _ _ H2) by done.
    rewrite (configure_other_key _ _ _ _ _ _ _ _ _ _ H1) by done.
    done. }
  apply bind_eq in E as [(loc & w9 & H8 & E)|(? & _ & [=])].
  apply bind_eq in E as [(c8 & w10 & H9 & E)|(? & _ & [=])].
  assert (Hc8 : c8 !! "centralPort" = None).
  { destruct loc; try (by injection H9 as <- _).
    destruct (differs_from_memory benv v); [|by injection H9 as <- _].
    destruct (make_path benv v); [|discriminate].
    destruct (parent_exists benv v w9); [|discriminate].
    injection H9 as <- _. by rewrite lookup_insert_ne. }
  apply bind_eq in E as [(loc' & w11 & _ & E)|(? & _ & [=])].
  apply bind_eq in E as [(cid & w12 & _ & E)|(? & _ & [=])].
  apply bind_eq in E as [(? & w13 & _ & E)|(? & _ & [=])].
  apply bind_eq in E as [(cip & w14 & _ & E)|(? & _ & [=])].
  apply bind_eq in E as [(cport & w15 & H10 & E)|(? & _ & [=])].
  unfold dict_get in H10. rewrite Hc8 in H10. discriminate.
Qed.

Lemma archSDN_cli_opts_absent (CONF : gmap string V) (k : string) :
  (forall v, CONF !! k = Some v -> conf_truthy benv v = false) ->
  archSDN_cli_opts benv CONF !! k = None.
Proof.
  intros Hk. destruct (archSDN_cli_opts benv CONF !! k) as [v|] eqn:Ev; [|done].
  apply archSDN_cli_opts_lookup in Ev as [Ev Ht]. rewrite (Hk v Ev) in Ht. discriminate.
Qed.

(** X24: the option [archSDN_controllerPort] alone never changes the port
    of the controller: while [CONF] holds no true value for
    [archSDN_controllerIPPort], an [__init__] that reaches
    [central.initialise] has [controllerPort] at its default 12345; and
    when [CONF] holds a true value for [archSDN_controllerIPPort] but none
    for [archSDN_controllerPort], [__init__] ends in [sys.exit]. *)
Theorem controller_port_needs_two_options (CONF : gmap string V) (id : Z) (w : W) :
  ((forall v, CONF !! "archSDN_controllerIPPort" = Some v -> conf_truthy benv v = false) ->
   forall cfg central_ip central_port w',
     __init__ benv CONF id w = (CallsCentralInitialise cfg central_ip central_port, w') ->
     cfg !! "controllerPort" = Some (CfgInt 12345))
  /\ ((exists v, CONF !! "archSDN_controllerIPPort" = Some v /\ conf_truthy benv v = true) ->
      (forall v, CONF !! "archSDN_controllerPort" = Some v -> conf_truthy benv v = false) ->
      exists ex w', __init__ benv CONF id w = (SysExit ex, w')).
Proof.
  split.
  - intros Hflag cfg ip port w'. unfold __init__.
    destruct (configure_until_central benv CONF id w) as [[[[cfg' ip'] port']|ex] w1] eqn:E;
      [|discriminate].
    intros [= -> -> -> ->]. unfold configure_until_central in E.
    pose proof (archSDN_cli_opts_absent _ _ Hflag) as Hopt.
    apply bind_eq in E as [(? & w1 & _ & E)|(? & _ & [=])].
    apply bind_eq in E as [(c1 & w2 & H1 & E)|(? & _ & [=])].
    apply bind_eq in E as [(c2 & w3 & H2 & E)|(? & _ & [=])].
    apply bind_eq in E as [(c3 & w4 & H3 & E)|(? & _ & [=])].
    apply bind_eq in E as [(c4 & w5 & H4 & E)|(? & _ & [=])].
    apply bind_eq in E as [(c5 & w6 & H5 & E)|(? & _ & [=])].
    apply bind_eq in E as [(c6 & w7 & H6 & E)|(? & _ & [=])].
    apply bind_eq in E as [(c7 & w8 & H7 & E)|(? & _ & [=])].
    assert (Hc7 : c7 !! "controllerPort" = Some (CfgInt 12345)).
    { rewrite (configure_other_key _ _ _ _ _ _ _ _ _ _ H7) by done.
      rewrite (configure_other_key _ _ _ _ _ _ _ _ _ _ H6) by done.
      rewrite (configure_other_key _ _ _ _ _ _ _ _ _ _ H5) by done.
      rewrite (configure_other_key _ _ _ _ _ _ _ _ _ _ H4) by done.
      apply configure_run in H3 as (_ & [[_ ->]|([? Hs] & _)]); [|congruence].
      rewrite (configure_other_key _ _ _ _ _ _ _ _ _ _ H2) by done.
      rewrite (configure_other_key _ _ _ _ _ _ _ _ _ _ H1) by done.
      done. }
    apply bind_eq in E as [(loc & w9 & H8 & E)|(? & _ & [=])].
    apply bind_eq in E as [(c8 & w10 & H9 & E)|(? & _ & [=])].
    assert (Hc8 : c8 !! "controllerPort" = Some (CfgInt 12345)).
    { destruct loc; try (by injection H9 as <- _).
      destruct (differs_from_memory benv v); [|by injection H9 as <- _].
      destruct (make_path benv v); [|discriminate].
      destruct (parent_exists benv v w9); [|discriminate].
      injection H9 as <- _. by rewrite lookup_insert_ne. }
    apply bind_eq in E as [(loc' & w11 & _ & E)|(? & _ & [=])].
    apply bind_eq in E as [(cid & w12 & _ & E)|(? & _ & [=])].
    apply bind_eq in E as [(? & w13 & _ & E)|(? & _ & [=])].
    apply bind_eq in E as [(cip & w14 & _ & E)|(? & _ & [=])].
    apply bind_eq in E as [(cport & w15 & _ & E)|(? & _ & [=])].
    by injection E as <- _ _ _.
  - intros (v & Hv & Ht) Hsrc. unfold __init__.
    destruct (configure_until_central benv CONF id w) as [[[[cfg ip] port]|ex] w'] eqn:E;
      [|by eauto].
    exfalso. unfold configure_until_central in E.
    pose proof (archSDN_cli_opts_absent _ _ Hsrc) as Hopt.
    assert (Hflag : archSDN_cli_opts benv CONF !! "archSDN_controllerIPPort" = Some v).
    { unfold archSDN_cli_opts. apply map_lookup_filter_Some. split; [done|].
      simpl. rewrite Ht. done. }
    apply bind_eq in E as [(? & w1 & _ & E)|(? & _ & [=])].
    apply bind_eq in E as [(c1 & w2 & H1 & E)|(? & _ & [=])].
    apply bind_eq in E as [(c2 & w3 & H2 & E)|(? & _ & [=])].
    apply bind_eq in E as [(c3 & w4 & H3 & E)|(? & _ & [=])].
    apply configure_run in H3 as (_ & [[Hn _]|(_ & v' & c & Hs & _)]); congruence.
Qed.

End BootFacts.

(** No option at all: the start ends in [sys.exit]. *)
Lemma init_needs_central_port_witness :
  exists ex w', __init__ demo_boot_env ∅ 7 tt = (SysExit ex, w').
Proof.
  apply init_needs_central_port. intros v Hv. by rewrite lookup_empty in Hv.
Defined.

(** With [archSDN_centralPort] the start reaches [central.initialise];
    [archSDN_controllerPort] is given as well and the port stays 12345. *)
Lemma controller_port_needs_two_options_witness :
  let CONF : gmap string string :=
    {[ "archSDN_centralPort" := "6000"; "archSDN_controllerPort" := "777" ]} in
  exists cfg central_ip w',
    __init__ demo_boot_env CONF 7 tt
    = (CallsCentralInitialise cfg central_ip (CfgInt 6000), w')
    /\ cfg !! "controllerPort" = Some (CfgInt 12345).
Proof.
  intros CONF.
  destruct (__init__ demo_boot_env CONF 7 tt) as [r w'] eqn:E.
  assert (Hr : exists cfg ip, r = CallsCentralInitialise cfg ip (CfgInt 6000)).
  { vm_compute in E. injection E as <- _. eauto. }
  destruct Hr as (cfg & ip & ->). exists cfg, ip, w'. split; [done|].
  destruct (controller_port_needs_two_options demo_boot_env CONF 7 tt) as [H _].
  apply (H (fun v Hv => ltac:(vm_compute in Hv; discriminate)) cfg ip (CfgInt 6000) w' E).
Defined.

(** * Answers to registered requests *)

Section Answers.
Context {X : Type} (env : Env X).

Local Abbreviation state := (controller_state X).

Lemma requests_registered (func_name : string)
    (handler : rpc_payload -> M state rpc_value) :
  _requests env func_name = Some handler -> func_name ∈ request_names.
Proof.
  intros Hh. destruct (decide (func_name ∈ request_names)) as [|Hn]; [done|].
  apply (requests_unknown env) in Hn. congruence.
Qed.

(** X25: no exception of a registered request function leaves
    [client_handler]: the answer has status 0 and the function's value
    when the function returned, and status 1 otherwise, with the state as
    the function left it. A [KeyError] raised inside the function is
    answered as "Unknown Request" with the name of the function, any other
    exception with its text under [-d] and with "Internal Error. Cannot
    process request." without. *)
Theorem client_handler_registered (request : rpc_request) (st : state)
    (handler : rpc_payload -> M state rpc_value) :
  _requests env (rq_func_name request) = Some handler ->
  client_handler env request st
  = match handler (rq_payload request) st with
    | (Ok v, st1) => (Ok (0, AnswerValue v), st1)
    | (Raise KeyError, st1) =>
        (Ok (1, AnswerError ("Unknown Request: '"
                             +:+ repr_of_name env (Some (rq_func_name request)) +:+ "'")),
         st1)
    | (Raise ex, st1) =>
        (Ok (1, AnswerError (if flags_debug env
                             then "Unknown Request: " +:+ str_of_exn env ex
                             else "Internal Error. Cannot process request.")), st1)
    end.
Proof.
  intros Hh. pose proof (requests_registered _ _ Hh) as Hin.
  unfold client_handler, py_assert. rewrite bool_decide_eq_true_2 by done.
  rewrite andb_false_r. unfold ret at 1. rewrite Hh.
  unfold try_except, bind.
  destruct (handler (rq_payload request) st) as [[v|ex] st1]; [done|].
  unfold request_handlers. destruct ex; try done; by destruct (flags_debug env).
Qed.

End Answers.

(** [req_local_time] is answered with status 0 and the time. *)
Lemma client_handler_registered_witness :
  client_handler (demo_env 3 true demo_refusal) (RpcRequest "req_local_time" PayloadOther)
    demo_state
  = (Ok (0, AnswerValue (ValueTime "Tue Nov  3 08:40:00 2026")), demo_state).
Proof.
  exact (client_handler_registered (demo_env 3 true demo_refusal)
           (RpcRequest "req_local_time" PayloadOther) demo_state _ eq_refl).
Defined.

(** * The serving loop *)

Section ServingFacts.
Context {X : Type} (env : Env X) (codec : Codec).

Local Abbreviation state := (controller_state X).

Lemma request_handlers_returns (func_name : option string) (ex : exn) (st : state) :
  exists answer, request_handlers env func_name ex st = (Ok answer, st).
Proof.
  unfold request_handlers. destruct ex; try destruct (flags_debug env); by eexists.
Qed.

Lemma client_handler_returns (request : rpc_request) (st : state) :
  exists answer st', client_handler env request st = (Ok answer, st').
Proof.
  unfold client_handler.
  destruct (py_assert env _ _ st) as [[[]|ex] st1].
  - destruct (try_except _ _ st1) as [r st2] eqn:E.
    apply try_except_eq in E as [(a & _ & ->)|(ex & s1 & _ & H2)]; [by eauto|].
    destruct (request_handlers_returns (Some (rq_func_name request)) ex s1) as [a Ha].
    rewrite Ha in H2. injection H2 as <- <-. eauto.
  - destruct (request_handlers_returns None ex st1) as [a Ha]. eauto.
Qed.

Lemma answer_request_returns (buf : list Byte.byte) (st : state) :
  exists answer st', answer_request env codec buf st = (Ok answer, st').
Proof.
  unfold answer_request. destruct (decode_request codec buf) as [request|ex].
  - apply client_handler_returns.
  - destruct (request_handlers_returns None ex st) as [a Ha]. eauto.
Qed.

Lemma read_frame_closed (c : nat -> nat) (calls : nat) :
  exists calls', read_frame (Socket [] c calls) = (Ok None, Socket [] c calls').
Proof.
  unfold read_frame, recv_exact.
  destruct (recv_exact_loop_closed 2 2 0 (replicate 2 Byte.x00) [] c calls) as [calls' H];
    [done|simpl; lia|simpl; lia|].
  rewrite H. by exists calls'.
Qed.

Lemma pack_frame_too_long (data : list Byte.byte) :
  65535 < Z.of_nat (length data) -> exists e, pack_frame data = Raise e.
Proof.
  intros Hlen. unfold pack_frame, pack_H.
  rewrite (proj2 (Z.leb_gt (Z.of_nat (length data)) 65535)) by lia.
  rewrite andb_false_r. eauto.
Qed.

(** The turns of the loop for the frames whose answers can be sent. *)
Lemma client_handler_loop_prefix (payloads : list (list Byte.byte)) (st st1 : state)
    (answers : list (Z * answer_body)) :
  answered env codec payloads st answers st1 ->
  forall frames datas frames_out,
    Forall2 (fun payload frame => pack_frame payload = Ok frame) payloads frames ->
    Forall2 (fun answer data => encode_answer codec answer = Ok data) answers datas ->
    Forall2 (fun data frame => pack_frame data = Ok frame) datas frames_out ->
    forall (fuel : nat) (rest : list Byte.byte) (c : nat -> nat) (calls : nat)
           (sent : list Byte.byte),
    exists calls',
      client_handler_loop env codec (length frames + fuel)
        (Socket (concat frames ++ rest) c calls) sent st
      = client_handler_loop env codec fuel (Socket rest c calls')
          (sent ++ concat frames_out) st1.
Proof.
  induction 1 as [st|payload payloads st answer st1 answers st2 Ha _ IH];
    intros frames datas outs HF HE HO fuel rest c calls sent.
  - inversion HF; subst. inversion HE; subst. inversion HO; subst. simpl.
    exists calls. by rewrite app_nil_r.
  - inversion HF as [|? frame ? frames' Hf HF']; subst.
    inversion HE as [|? data ? datas' Hd HE']; subst.
    inversion HO as [|? out ? outs' Ho HO']; subst.
    cbn [length concat Nat.add client_handler_loop]. rewrite <- app_assoc.
    destruct (read_frame_complete payload frame (concat frames' ++ rest) c calls Hf)
      as [calls1 ->].
    rewrite Ha, Hd, Ho.
    destruct (IH frames' datas' outs' HF' HE' HO' fuel rest c calls1 (sent ++ out))
      as [calls' ->].
    exists calls'. by rewrite <- app_assoc.
Qed.


End ServingFacts.

